(** * lzdatagen: the statistical generation engine of [lzdatagen.c]

    A shallow embedding of [src/lzdatagen.c] and the properties of its
    two entry points, [lzdg_generate_data] and [lzdg_generate_data_bulk].

    - Machine integers are [Z] with the wrap-around written out
      ([uint_wrap] for [unsigned int], [size_wrap] for a 64-bit [size_t]).
    - [double] and [float] are IEEE-754 binary64 and binary32 values,
      computed with the parameterised operations of [SpecFloat].  The
      library function [powf] of libm is a parameter of the development.
    - C arrays are lists of cells; a cell is [None] while its content is
      indeterminate (a local array before its first assignment, a buffer
      fresh from [malloc]).  A read of such a cell, an access out of range,
      a failed [assert] and a float-to-integer conversion without a
      representable result all end the run with a [fault].
    - The random source of [pcg_basic.h] is a parameter: a state type and
      a step function; the generator threads it through a state and error
      monad, next to a log of the runs it emits (the instrumentation the
      trace properties are stated on). *)

From Stdlib Require Import ZArith Lia Strings.Byte Floats.SpecFloat.
From stdpp Require Import base numbers list.

Local Open Scope Z_scope.

(** ** Constants of [lzdatagen.c] *)

Definition MIN_LEN : Z := 3.
Definition MAX_LEN : Z := 258.
Definition NUM_LEN : Z := MAX_LEN - MIN_LEN + 1.
Definition LEN_PER_CHUNK : Z := 512.
Definition SAMPLE_SIZE : Z := 16384.
Definition BLOCK_SIZE : Z := 1024 * 1024.
Definition UINT32_MAX : Z := 4294967295.
Arguments SAMPLE_SIZE : simpl never.
Arguments BLOCK_SIZE : simpl never.

(** ** Machine integers *)

Definition uint_wrap (z : Z) : Z := z mod 2 ^ 32.
Definition size_wrap (z : Z) : Z := z mod 2 ^ 64.
Definition SIZE_MAX : Z := 2 ^ 64 - 1.

(** ** Floating point: binary64 [double] and binary32 [float] *)

Definition double := spec_float.
Definition float := spec_float.

Definition d_mul : double -> double -> double := SFmul 53 1024.
Definition d_div : double -> double -> double := SFdiv 53 1024.
Definition d_add : double -> double -> double := SFadd 53 1024.
Definition d_ltb : double -> double -> bool := SFltb.
Definition d_leb : double -> double -> bool := SFleb.
Definition f_mul : float -> float -> float := SFmul 24 128.

(** Integer to floating conversions (exact on the values used here). *)
Definition int_to_double (k : Z) : double := binary_normalize 53 1024 k 0 false.
Definition int_to_float (k : Z) : float := binary_normalize 24 128 k 0 false.

(** The cast [(float) x] of a double: round to nearest, ties to even. *)
Definition double_to_float (x : double) : float :=
  match x with
  | S754_finite s m e => binary_round 24 128 s m e
  | _ => x
  end.

Definition d_one : double := Eval vm_compute in int_to_double 1.
Definition f_one : float := Eval vm_compute in int_to_float 1.

(** [k / (UINT32_MAX + 1.0)]: what [rand_double] makes of the draw [k]. *)
Definition uniform (k : Z) : double :=
  d_div (int_to_double k) (d_add (int_to_double UINT32_MAX) d_one).

Arguments d_mul : simpl never.
Arguments d_div : simpl never.
Arguments d_add : simpl never.
Arguments d_ltb : simpl never.
Arguments d_leb : simpl never.
Arguments f_mul : simpl never.
Arguments uniform : simpl never.

(** Truncation toward zero, the integral part a cast to an integer type
    keeps; infinities and NaN have none. *)
Definition trunc (x : spec_float) : option Z :=
  match x with
  | S754_zero _ => Some 0
  | S754_finite s m e => Some (cond_Zopp s (Z.shiftl (Z.pos m) e))
  | _ => None
  end.

(** ** Faults and results *)

Inductive fault : Type :=
| AssertionFailed      (* [assert] evaluated to false *)
| OutOfBounds          (* array access outside the object *)
| Indeterminate        (* read of a cell never assigned *)
| ConversionUndefined  (* float to integer cast, value not representable *)
| OutOfFuel.           (* a [while] loop of the model ran out of steps *)

Inductive result (A : Type) : Type :=
| Ok (a : A)
| Fault (f : fault).
Arguments Ok {A} a.
Arguments Fault {A} f.

(** The casts [(size_t) x] and [(unsigned char) x] of a floating value:
    undefined unless the integral part is representable. *)
Definition float_to_size_t (x : spec_float) : result Z :=
  match trunc x with
  | Some z => if (0 <=? z) && (z <=? SIZE_MAX) then Ok z else Fault ConversionUndefined
  | None => Fault ConversionUndefined
  end.

Definition float_to_uchar (x : spec_float) : result byte :=
  match trunc x with
  | Some z =>
      if 0 <=? z then
        match Byte.of_N (Z.to_N z) with
        | Some b => Ok b
        | None => Fault ConversionUndefined
        end
      else Fault ConversionUndefined
  | None => Fault ConversionUndefined
  end.

(** ** Arrays *)

Abbreviation array A := (list (option A)).

Definition fresh_array (A : Type) (n : Z) : array A := replicate (Z.to_nat n) None.
Arguments fresh_array : simpl never.

Definition load {A} (a : array A) (k : Z) : result A :=
  if k <? 0 then Fault OutOfBounds
  else match a !! Z.to_nat k with
       | Some (Some v) => Ok v
       | Some None => Fault Indeterminate
       | None => Fault OutOfBounds
       end.

Definition store {A} (a : array A) (k : Z) (v : A) : result (array A) :=
  if (0 <=? k) && (k <? Z.of_nat (length a))
  then Ok (<[Z.to_nat k := Some v]> a)
  else Fault OutOfBounds.

(** The cells [off, off + len) of an array. *)
Definition slice {A} (a : array A) (off len : Z) : array A :=
  take (Z.to_nat len) (drop (Z.to_nat off) a).

(** ** The log of emitted runs *)

Inductive event : Type :=
| EvBlock (off num : Z) (samples : array byte)
    (* bulk mode: a block of [num] bytes at [off] starts, with its corpus *)
| EvRefill (freq : array Z) (scratch : array byte)
    (* the histogram and the scratch buffer were regenerated *)
| EvIssue (len : Z)
    (* the histogram issued the run length [len], not yet clamped *)
| EvLiteralRun (off : Z) (data : array byte)
| EvBreakLiteral (off : Z) (data : array byte)
| EvRepeatRun (off : Z) (data : array byte).

(** The kind of run an event stands for. *)
Definition is_repeat (e : event) : bool :=
  match e with EvRepeatRun _ _ => true | _ => false end.

Definition is_literal (e : event) : bool :=
  match e with EvLiteralRun _ _ | EvBreakLiteral _ _ => true | _ => false end.

(** ** A small random source for the concrete runs

    A stand-in for the generator behind [pcg32_random]: a 32-bit linear
    congruential step.  It is used in concrete runs only; every general
    theorem is stated for an arbitrary source. *)
Definition lcg_random (s : Z) : Z * Z :=
  let s' := (s * 1664525 + 1013904223) mod 2 ^ 32 in (s', s').

(** [powf] at the exponent 1.0f, where it returns its first argument. *)
Definition powf_exp1 (x y : float) : float := x.

(** A source stuck on one value: every draw returns the state. *)
Definition fixed_random (s : Z) : Z * Z := (s, s).

(** The draw [0x80000000], which [rand_double] maps to 0.5. *)
Definition mid_draw : Z := 2 ^ 31.

(** A source whose draws stay below [2^26]: the top 26 bits of the state
    of the linear congruential step.  Its length classes are 0 to 3, so
    that a cycle of [LEN_PER_CHUNK] lengths is used up within 3 KiB. *)
Definition low_random (s : Z) : Z * Z :=
  let s' := (s * 1664525 + 1013904223) mod 2 ^ 32 in (s' / 2 ^ 6, s').

Definition d_three : double := Eval vm_compute in int_to_double 3.
Definition d_thousand : double := Eval vm_compute in int_to_double 1000.

(** ** The state and error monad of the generator *)

Section Monad.
Context {rng : Type}.

(** What a call reads and changes besides its arguments: the state of
    the random source and the log. *)
Record world : Type := World { gen : rng; log : list event }.

Definition M (A : Type) : Type := world -> result (A * world).

Definition ret {A} (a : A) : M A := fun w => Ok (a, w).

Definition bind {A B} (c : M A) (k : A -> M B) : M B :=
  fun w => match c w with
           | Ok (a, w') => k a w'
           | Fault f => Fault f
           end.

Definition lift {A} (r : result A) : M A :=
  fun w => match r with
           | Ok a => Ok (a, w)
           | Fault f => Fault f
           end.

Definition fail {A} (f : fault) : M A := fun _ => Fault f.

Definition emit (e : event) : M unit :=
  fun w => Ok (tt, World (gen w) (e :: log w)).

Definition assert (b : bool) : M unit :=
  if b then ret tt else fail AssertionFailed.
End Monad.

Arguments world : clear implicits.
Arguments M : clear implicits.

Notation "'let*' x ':=' c 'in' k" := (bind c (fun x => k))
  (at level 10, x name, c at level 100, k at level 200).

(** [for (j = start; count steps; ++j) body]: the loops of the source whose
    trip count is fixed on entry. *)
Fixpoint for_loop {rng S} (count : nat) (j : Z) (body : Z -> S -> M rng S) (s : S)
  : M rng S :=
  match count with
  | O => ret s
  | Datatypes.S count' => let* s' := body j s in for_loop count' (j + 1) body s'
  end.

(** ** The generator *)

(** The local variables of [generate_data_internal], with the object its
    argument [ptr] points into ([mem]) and the offset of [p] in it. *)
Record locals : Type := Locals {
  len_freq : array Z;
  buffer : array byte;
  mem : array byte;
  p : Z;
  cur_len : Z;
  i : Z;
  last_was_match : bool
}.

(** Steps granted to the scan for a non-zero bucket; [scan_terminates]
    shows they are never used up. *)
Definition scan_fuel : nat := 512.

Section Generator.
Context {rng : Type}.
Variable pcg32_random : rng -> Z * rng.
Variable powf : float -> float -> float.

(** One draw of the random source, as the [uint32_t] it returns. *)
Definition pcg32 : M rng Z :=
  fun w => let (k, g) := pcg32_random (gen w) in Ok (uint_wrap k, World g (log w)).

Definition rand_double : M rng double :=
  let* k := pcg32 in ret (uniform k).

(** [n * powf((float) u, (float) e)], the power-law sample before its
    cast to an integer type. *)
Definition power_sample (n : Z) (u e : double) : float :=
  f_mul (int_to_float n) (powf (double_to_float u) (double_to_float e)).

Definition generate_literals_from_distribution
    (a : array byte) (ptr size : Z) (lit_exp : double) : M rng (array byte) :=
  for_loop (Z.to_nat size) 0 (fun j a =>
    let* u := rand_double in
    let* v := lift (float_to_uchar (power_sample 256 u lit_exp)) in
    lift (store a (ptr + j) v)) a.

Definition generate_literals_from_samples
    (a : array byte) (ptr size : Z) (samples : array byte) : M rng (array byte) :=
  for_loop (Z.to_nat size) 0 (fun j a =>
    let* k := pcg32 in
    let* v := lift (load samples (k mod SAMPLE_SIZE)) in
    lift (store a (ptr + j) v)) a.

Definition generate_literals
    (a : array byte) (ptr size : Z) (lit_exp : double) (samples : option (array byte))
  : M rng (array byte) :=
  match samples with
  | Some s => generate_literals_from_samples a ptr size s
  | None => generate_literals_from_distribution a ptr size lit_exp
  end.

Definition generate_lengths (freq : array Z) (num : Z) (len_exp : double)
  : M rng (array Z) :=
  let* freq := for_loop (Z.to_nat NUM_LEN) 0 (fun j f => lift (store f j 0)) freq in
  for_loop (Z.to_nat num) 0 (fun _ f =>
    let* u := rand_double in
    let* len := lift (float_to_size_t (power_sample NUM_LEN u len_exp)) in
    let* _ := assert (len <? NUM_LEN) in
    let* v := lift (load f len) in
    lift (store f len (uint_wrap (v + 1)))) freq.

(** [memcpy(dst + d, src, n)]. *)
Definition memcpy (dst : array byte) (d : Z) (src : array byte) (n : Z)
  : M rng (array byte) :=
  for_loop (Z.to_nat n) 0 (fun j a =>
    let* v := lift (load src j) in
    lift (store a (d + j) v)) dst.

(** The inner loop: find the next length with non-zero frequency. *)
Fixpoint find_length (fuel : nat) (len_exp lit_exp : double)
    (samples : option (array byte)) (st : locals) : M rng locals :=
  let* f := lift (load (len_freq st) (cur_len st)) in
  if f =? 0 then
    match fuel with
    | O => fail OutOfFuel
    | Datatypes.S fuel' =>
        let* st1 :=
          if cur_len st =? 0 then
            let* b := generate_literals (buffer st) 0 MAX_LEN lit_exp samples in
            let* lf := generate_lengths (len_freq st) LEN_PER_CHUNK len_exp in
            let* _ := emit (EvRefill lf b) in
            ret (Locals lf b (mem st) (p st) NUM_LEN (i st) (last_was_match st))
          else ret st in
        find_length fuel' len_exp lit_exp samples
          (Locals (len_freq st1) (buffer st1) (mem st1) (p st1)
                  (size_wrap (cur_len st1 - 1)) (i st1) (last_was_match st1))
    end
  else ret st.

(** [len] clamped to the space left after the cursor [pos]. *)
Definition clamp (size pos len : Z) : Z :=
  if size_wrap (size - pos) <? len then size_wrap (size - pos) else len.

(** One pass through the body of the outer loop. *)
Definition iteration (size : Z) (ratio len_exp lit_exp : double)
    (samples : option (array byte)) (st : locals) : M rng locals :=
  let* st := find_length scan_fuel len_exp lit_exp samples st in
  let len := size_wrap (MIN_LEN + cur_len st) in
  let* _ := emit (EvIssue len) in
  let* f := lift (load (len_freq st) (cur_len st)) in
  let* lf := lift (store (len_freq st) (cur_len st) (uint_wrap (f - 1))) in
  let len := clamp size (i st) len in
  let* u := rand_double in
  if d_ltb u (d_div d_one ratio) then
    (* Insert len literals *)
    let* m := generate_literals (mem st) (p st) len lit_exp samples in
    let* _ := emit (EvLiteralRun (p st) (slice m (p st) len)) in
    ret (Locals lf (buffer st) m (p st + len) (cur_len st)
                (size_wrap (i st + len)) false)
  else
    (* Insert literal to break up matches *)
    let* brk :=
      if last_was_match st then
        let* m := generate_literals (mem st) (p st) 1 lit_exp samples in
        let* _ := emit (EvBreakLiteral (p st) (slice m (p st) 1)) in
        let i1 := size_wrap (i st + 1) in
        ret (m, p st + 1, i1, clamp size i1 len)
      else ret (mem st, p st, i st, len) in
    let '(m, p1, i1, len1) := brk in
    (* Insert match of length len *)
    let* m := memcpy m p1 (buffer st) len1 in
    let* _ := emit (EvRepeatRun p1 (slice m p1 len1)) in
    ret (Locals lf (buffer st) m (p1 + len1) (cur_len st)
                (size_wrap (i1 + len1)) true).

(** The outer loop [while (i < size)]. *)
Fixpoint main_loop (fuel : nat) (size : Z) (ratio len_exp lit_exp : double)
    (samples : option (array byte)) (st : locals) : M rng locals :=
  if i st <? size then
    match fuel with
    | O => fail OutOfFuel
    | Datatypes.S fuel' =>
        let* st' := iteration size ratio len_exp lit_exp samples st in
        main_loop fuel' size ratio len_exp lit_exp samples st'
    end
  else ret st.

(** The locals on entry: both arrays indeterminate, then [len_freq[0] = 0]. *)
Definition initial_locals (m : array byte) (ptr : Z) : result locals :=
  match store (fresh_array Z NUM_LEN) 0 0 with
  | Ok lf => Ok (Locals lf (fresh_array byte MAX_LEN) m ptr 0 0 false)
  | Fault f => Fault f
  end.

(** [generate_data_internal(m + ptr, size, ...)], run to its last state. *)
Definition generate_data_run (m : array byte) (ptr size : Z)
    (ratio len_exp lit_exp : double) (samples : option (array byte))
  : M rng locals :=
  let* st := lift (initial_locals m ptr) in
  main_loop (Z.to_nat size) size ratio len_exp lit_exp samples st.

Definition generate_data_internal (m : array byte) (ptr size : Z)
    (ratio len_exp lit_exp : double) (samples : option (array byte))
  : M rng (array byte) :=
  let* st := generate_data_run m ptr size ratio len_exp lit_exp samples in
  ret (mem st).

Definition lzdg_generate_data (m : array byte) (size : Z)
    (ratio len_exp lit_exp : double) : M rng (array byte) :=
  generate_data_internal m 0 size ratio len_exp lit_exp None.

(** The loop of [lzdg_generate_data_bulk]; [samples] is its local array. *)
Fixpoint bulk_loop (fuel : nat) (m : array byte) (size : Z)
    (ratio len_exp lit_exp : double) (samples : array byte) (offs : Z)
  : M rng (array byte) :=
  if offs <? size then
    match fuel with
    | O => fail OutOfFuel
    | Datatypes.S fuel' =>
        let num := if BLOCK_SIZE <? size_wrap (size - offs)
                   then BLOCK_SIZE else size_wrap (size - offs) in
        let* samples := generate_literals samples 0 SAMPLE_SIZE lit_exp None in
        let* _ := emit (EvBlock offs num samples) in
        let* m := generate_data_internal m offs num ratio len_exp lit_exp
                    (Some samples) in
        bulk_loop fuel' m size ratio len_exp lit_exp samples (size_wrap (offs + num))
    end
  else ret m.

Definition lzdg_generate_data_bulk (m : array byte) (size : Z)
    (ratio len_exp lit_exp : double) : M rng (array byte) :=
  bulk_loop (Z.to_nat size) m size ratio len_exp lit_exp
            (fresh_array byte SAMPLE_SIZE) 0.

End Generator.

(** * Specification vocabulary *)

(** ** Weakest preconditions

    [wp E c Q w]: run from [w], the computation [c] either returns a value
    and a world satisfying [Q], or stops with a fault in [E].  It always
    does one of the two: the monad has no other outcome. *)
Definition wp {rng A} (E : fault -> Prop) (c : M rng A)
    (Q : A -> world rng -> Prop) (w : world rng) : Prop :=
  match c w with
  | Ok (a, w') => Q a w'
  | Fault f => E f
  end.
Arguments wp : simpl never.

(** The faults of the power-law sampling: the assertion of
    [generate_lengths] and the two float-to-integer casts. *)
Definition sampling_fault (f : fault) : Prop :=
  f = AssertionFailed \/ f = ConversionUndefined.

Definition no_fault (f : fault) : Prop := False.

(** ** Assumptions on the random source

    [safe_source pcg32_random powf E G D len_exp lit_exp]: the set [G] of
    source states is closed under a draw, the draws made from [G] lie in
    [D], and the two power-law samples made of a draw in [D] fault at most
    in [E].  With [E := sampling_fault] every source qualifies
    ([safe_source_any]); with [E := no_fault] the record selects the runs
    on which the casts and the assertion of [generate_lengths] succeed. *)
Definition length_sample_ok (powf : float -> float -> float) (E : fault -> Prop)
    (len_exp : double) (k : Z) : Prop :=
  match float_to_size_t (power_sample powf NUM_LEN (uniform k) len_exp) with
  | Ok len => if len <? NUM_LEN then True else E AssertionFailed
  | Fault f => E f
  end.

Definition literal_sample_ok (powf : float -> float -> float) (E : fault -> Prop)
    (lit_exp : double) (k : Z) : Prop :=
  match float_to_uchar (power_sample powf 256 (uniform k) lit_exp) with
  | Ok _ => True
  | Fault f => E f
  end.

Definition is_uint32 (k : Z) : Prop := 0 <= k < 2 ^ 32.

Record safe_source {rng} (pcg32_random : rng -> Z * rng)
    (powf : float -> float -> float) (E : fault -> Prop) (G : rng -> Prop)
    (D : Z -> Prop) (len_exp lit_exp : double) : Prop := {
  ss_step : forall g, G g -> G (snd (pcg32_random g));
  ss_draw : forall g, G g -> D (uint_wrap (fst (pcg32_random g)));
  ss_range : forall k, D k -> is_uint32 k;
  ss_len : forall k, D k -> length_sample_ok powf E len_exp k;
  ss_lit : forall k, D k -> literal_sample_ok powf E lit_exp k
}.

(** ** Arrays *)

Definition initialised {A} (a : array A) : Prop :=
  forall k : nat, (k < length a)%nat -> exists v, a !! k = Some (Some v).

(** [a'] is [a] with the cells [off, off + n) assigned values in [P]. *)
Record written {A} (P : A -> Prop) (a a' : array A) (off n : Z) : Prop := {
  wr_length : length a' = length a;
  wr_frame : forall k : nat,
    Z.of_nat k < off \/ off + n <= Z.of_nat k -> a' !! k = a !! k;
  wr_cells : forall k : nat,
    off <= Z.of_nat k < off + n -> exists v, a' !! k = Some (Some v) /\ P v
}.

(** [a'] is [dst] with the first [n] cells of [src] copied to [d]. *)
Definition copied {A} (dst a' : array A) (d : Z) (src : array A) (n : Z) : Prop :=
  written (fun _ => True) dst a' d n /\
  forall k : nat, Z.of_nat k < n -> a' !! (Z.to_nat d + k)%nat = src !! k.

(** A length class: the power-law sample of a draw, cast to [size_t]. *)
Definition sampled_class (powf : float -> float -> float) (D : Z -> Prop)
    (len_exp : double) (c : Z) : Prop :=
  exists k, D k /\ float_to_size_t (power_sample powf NUM_LEN (uniform k) len_exp) = Ok c.

(** A literal byte: in distribution mode the power-law sample of a draw,
    in corpus mode one of the samples. *)
Definition sampled_literal (powf : float -> float -> float) (D : Z -> Prop)
    (lit_exp : double) (v : byte) : Prop :=
  exists k, D k /\ float_to_uchar (power_sample powf 256 (uniform k) lit_exp) = Ok v.

Definition literal_value (powf : float -> float -> float) (D : Z -> Prop)
    (lit_exp : double) (samples : option (array byte)) (v : byte) : Prop :=
  match samples with
  | Some s => Some v ∈ s
  | None => sampled_literal powf D lit_exp v
  end.

Definition samples_ok (samples : option (array byte)) : Prop :=
  match samples with
  | Some s => Z.of_nat (length s) = SAMPLE_SIZE /\ initialised s
  | None => True
  end.

(** A corpus pool: [SAMPLE_SIZE] literals sampled from the distribution. *)
Definition corpus_ok (powf : float -> float -> float) (D : Z -> Prop)
    (lit_exp : double) (s : array byte) : Prop :=
  Z.of_nat (length s) = SAMPLE_SIZE /\
  forall k : nat, Z.of_nat k < SAMPLE_SIZE ->
    exists b, s !! k = Some (Some b) /\ sampled_literal powf D lit_exp b.

(** The number of lengths a histogram holds. *)
Definition hist_total (f : array Z) : Z :=
  foldr (fun c acc => default 0 c + acc) 0 f.

(** ** Invariants of [generate_data_internal] *)

(** What holds of the histogram, the scratch buffer and the scan cursor
    whenever the outer loop tests its condition. *)
Record scan_inv (st : locals) : Prop := {
  si_freq_len : Z.of_nat (length (len_freq st)) = NUM_LEN;
  si_buf_len : Z.of_nat (length (buffer st)) = MAX_LEN;
  si_cur : 0 <= cur_len st < NUM_LEN;
  si_low : forall k : nat, Z.of_nat k <= cur_len st ->
    exists v, len_freq st !! k = Some (Some v) /\ 0 <= v < 2 ^ 32;
  si_high : forall (k : nat) (v : Z), cur_len st < Z.of_nat k ->
    len_freq st !! k = Some (Some v) -> v = 0;
  si_phase : initialised (buffer st) \/
             (cur_len st = 0 /\ len_freq st !! 0%nat = Some (Some 0))
}.

(** The outcome [st1], [w1] of the scan for a non-zero bucket started in
    [st], [w]: either the cursor moved down within the current histogram,
    or the histogram was used up and one refill took place, which left
    lengths of classes in [C] only. *)
Record scanned {rng} (C : Z -> Prop)
    (st : locals) (w : world rng) (st1 : locals) (w1 : world rng)
  : Prop := {
  sc_inv : scan_inv st1;
  sc_buf : initialised (buffer st1);
  sc_found : exists f, len_freq st1 !! Z.to_nat (cur_len st1) = Some (Some f) /\
                       0 < f < 2 ^ 32;
  sc_mem : mem st1 = mem st;
  sc_p : p st1 = p st;
  sc_i : i st1 = i st;
  sc_last : last_was_match st1 = last_was_match st;
  sc_case :
    (log w1 = log w /\ len_freq st1 = len_freq st /\ buffer st1 = buffer st /\
     cur_len st1 <= cur_len st) \/
    (log w1 = EvRefill (len_freq st1) (buffer st1) :: log w /\
     hist_total (len_freq st1) = LEN_PER_CHUNK /\
     initialised (len_freq st1) /\
     (forall (k : nat) (v : Z), len_freq st !! k = Some (Some v) -> v = 0) /\
     (forall (k : nat) (v : Z), len_freq st1 !! k = Some (Some v) -> v <> 0 ->
        C (Z.of_nat k)))
}.

(** The destination while it is filled: [m0] is the caller's object on
    entry and [ptr] the offset in it of the first byte to generate. *)
Record mem_inv (m0 : array byte) (ptr size : Z) (st : locals) : Prop := {
  mi_i : 0 <= i st <= size;
  mi_p : p st = ptr + i st;
  mi_written : written (fun _ => True) m0 (mem st) ptr (i st)
}.

(** The locals when the outer loop is entered. *)
Definition entry_locals (m : array byte) (ptr : Z) : locals :=
  Locals (<[0%nat := Some 0]> (fresh_array Z NUM_LEN)) (fresh_array byte MAX_LEN)
         m ptr 0 0 false.

(** The size of the block that [lzdg_generate_data_bulk] starts at [offs]. *)
Definition block_size (size offs : Z) : Z := Z.min BLOCK_SIZE (size - offs).

(** The invariant of the outer loop. *)
Definition loop_inv (m0 : array byte) (ptr size : Z) (st : locals) : Prop :=
  scan_inv st /\ mem_inv m0 ptr size st.

(** ** One iteration, as a relation

    [run_step D L size ratio st1 l1 st' l']: from the locals [st1] the
    scan has left and the log [l1], the rest of one pass through the loop
    body issues a length, makes the Bernoulli variate of a draw [k] in [D]
    and emits a literal run, a repeat run, or a break literal and a repeat
    run; the literal bytes lie in [L]. *)
Inductive run_step (D : Z -> Prop) (L : byte -> Prop) (size : Z) (ratio : double)
    (st1 : locals) (l1 : list event) (st' : locals) (l' : list event) : Prop :=
| step_literal (f k : Z) :
    let len0 := MIN_LEN + cur_len st1 in
    let len := Z.min len0 (size - i st1) in
    len_freq st1 !! Z.to_nat (cur_len st1) = Some (Some f) ->
    len_freq st' = <[Z.to_nat (cur_len st1) := Some (f - 1)]> (len_freq st1) ->
    buffer st' = buffer st1 -> cur_len st' = cur_len st1 ->
    D k -> d_ltb (uniform k) (d_div d_one ratio) = true ->
    written L (mem st1) (mem st') (p st1) len ->
    l' = EvLiteralRun (p st1) (slice (mem st') (p st1) len) :: EvIssue len0 :: l1 ->
    p st' = p st1 + len -> i st' = i st1 + len -> last_was_match st' = false ->
    run_step D L size ratio st1 l1 st' l'
| step_repeat (f k : Z) :
    let len0 := MIN_LEN + cur_len st1 in
    let len := Z.min len0 (size - i st1) in
    len_freq st1 !! Z.to_nat (cur_len st1) = Some (Some f) ->
    len_freq st' = <[Z.to_nat (cur_len st1) := Some (f - 1)]> (len_freq st1) ->
    buffer st' = buffer st1 -> cur_len st' = cur_len st1 ->
    D k -> d_ltb (uniform k) (d_div d_one ratio) = false ->
    last_was_match st1 = false ->
    copied (mem st1) (mem st') (p st1) (buffer st1) len ->
    l' = EvRepeatRun (p st1) (slice (mem st') (p st1) len) :: EvIssue len0 :: l1 ->
    p st' = p st1 + len -> i st' = i st1 + len -> last_was_match st' = true ->
    run_step D L size ratio st1 l1 st' l'
| step_break_repeat (f k : Z) (m1 : array byte) :
    let len0 := MIN_LEN + cur_len st1 in
    let len := Z.min len0 (size - (i st1 + 1)) in
    len_freq st1 !! Z.to_nat (cur_len st1) = Some (Some f) ->
    len_freq st' = <[Z.to_nat (cur_len st1) := Some (f - 1)]> (len_freq st1) ->
    buffer st' = buffer st1 -> cur_len st' = cur_len st1 ->
    D k -> d_ltb (uniform k) (d_div d_one ratio) = false ->
    last_was_match st1 = true ->
    written L (mem st1) m1 (p st1) 1 ->
    copied m1 (mem st') (p st1 + 1) (buffer st1) len ->
    l' = EvRepeatRun (p st1 + 1) (slice (mem st') (p st1 + 1) len)
           :: EvBreakLiteral (p st1) (slice m1 (p st1) 1)
           :: EvIssue len0 :: l1 ->
    p st' = p st1 + 1 + len -> i st' = i st1 + 1 + len ->
    last_was_match st' = true ->
    run_step D L size ratio st1 l1 st' l'.

(** A whole pass: the scan, with refills of length classes in [C], then
    the run. *)
Definition iterated {rng} (D C : Z -> Prop) (L : byte -> Prop) (size : Z)
    (ratio : double)
    (st : locals) (w : world rng) (st' : locals) (w' : world rng) : Prop :=
  exists st1 w1, scanned C st w st1 w1 /\
                 run_step D L size ratio st1 (log w1) st' (log w').

(** ** Properties of the log *)

(** A refill leaves the histogram with [LEN_PER_CHUNK] lengths. *)
Definition refill_full (e : event) : Prop :=
  match e with
  | EvRefill f _ => hist_total f = LEN_PER_CHUNK
  | _ => True
  end.

(** Neither a repeat run nor a break literal. *)
Definition literal_only (e : event) : Prop :=
  match e with
  | EvRepeatRun _ _ | EvBreakLiteral _ _ => False
  | _ => True
  end.

(** An issued length, before clamping. *)
Definition issue_in_range (e : event) : Prop :=
  match e with
  | EvIssue len => MIN_LEN <= len <= MAX_LEN
  | _ => True
  end.

(** A repeat run of at least one and at most [MAX_LEN] bytes. *)
Definition repeat_nonempty (e : event) : Prop :=
  match e with
  | EvRepeatRun _ data => 1 <= Z.of_nat (length data) <= MAX_LEN
  | _ => True
  end.

(** A repeat run of at most [MAX_LEN] bytes, shorter than [MIN_LEN] only
    where it ends at [limit]. *)
Definition repeat_clamped (limit : Z) (e : event) : Prop :=
  match e with
  | EvRepeatRun off data =>
      Z.of_nat (length data) <= MAX_LEN /\
      (Z.of_nat (length data) < MIN_LEN -> off + Z.of_nat (length data) = limit)
  | _ => True
  end.

(** The same in bulk mode, where a run ends with its block. *)
Definition repeat_clamped_bulk (size : Z) (e : event) : Prop :=
  match e with
  | EvRepeatRun off data =>
      Z.of_nat (length data) <= MAX_LEN /\
      (Z.of_nat (length data) < MIN_LEN ->
         off + Z.of_nat (length data) = size \/
         (off + Z.of_nat (length data)) mod BLOCK_SIZE = 0)
  | _ => True
  end.

(** The most recent run of the current call of [generate_data_internal],
    in a log read from its newest event; in bulk mode [EvBlock] marks the
    start of a call. *)
Fixpoint last_run (l : list event) : option event :=
  match l with
  | [] => None
  | EvBlock _ _ _ :: _ => None
  | EvLiteralRun off d :: _ => Some (EvLiteralRun off d)
  | EvBreakLiteral off d :: _ => Some (EvBreakLiteral off d)
  | EvRepeatRun off d :: _ => Some (EvRepeatRun off d)
  | _ :: rest => last_run rest
  end.

(** What may precede a repeat run that starts at [off]: nothing, a literal
    run of at least one byte or a break literal of exactly one byte, either
    ending at [off]. *)
Definition precedes_repeat (off : Z) (prev : option event) : Prop :=
  match prev with
  | None => True
  | Some (EvLiteralRun off' d) =>
      1 <= Z.of_nat (length d) /\ off' + Z.of_nat (length d) = off
  | Some (EvBreakLiteral off' d) => length d = 1%nat /\ off' + 1 = off
  | Some _ => False
  end.

(** What precedes a break literal at [off]: a repeat run ending at [off]. *)
Definition precedes_break (off : Z) (prev : option event) : Prop :=
  match prev with
  | Some (EvRepeatRun off' d) => off' + Z.of_nat (length d) = off
  | _ => False
  end.

(** No two repeat runs of a call follow one another. *)
Fixpoint separated (l : list event) : Prop :=
  match l with
  | [] => True
  | EvRepeatRun off _ :: rest => precedes_repeat off (last_run rest) /\ separated rest
  | EvBreakLiteral off _ :: rest => precedes_break off (last_run rest) /\ separated rest
  | _ :: rest => separated rest
  end.

(** The flag [last_was_match] and the cursor [p], read off the log. *)
Definition run_state (st : locals) (l : list event) : Prop :=
  match last_run l with
  | None => last_was_match st = false
  | Some (EvLiteralRun off d) =>
      last_was_match st = false /\ 1 <= Z.of_nat (length d) /\
      off + Z.of_nat (length d) = p st
  | Some (EvRepeatRun off d) =>
      last_was_match st = true /\ off + Z.of_nat (length d) = p st
  | Some _ => False
  end.

(** The most recent run of the whole output: as [last_run], but read
    across the starts of blocks. *)
Fixpoint previous_run (l : list event) : option event :=
  match l with
  | [] => None
  | EvLiteralRun off d :: _ => Some (EvLiteralRun off d)
  | EvBreakLiteral off d :: _ => Some (EvBreakLiteral off d)
  | EvRepeatRun off d :: _ => Some (EvRepeatRun off d)
  | _ :: rest => previous_run rest
  end.

(** No two repeat runs of the whole output follow one another. *)
Fixpoint separated_output (l : list event) : Prop :=
  match l with
  | [] => True
  | EvRepeatRun off _ :: rest =>
      precedes_repeat off (previous_run rest) /\ separated_output rest
  | _ :: rest => separated_output rest
  end.

(** Two repeat runs of at least one byte each with no run between them,
    the second starting at the byte where the first ends. *)
Definition touching (l : list event) : Prop :=
  exists l1 off1 d1 off2 d2 l2,
    l = l1 ++ EvRepeatRun off2 d2 :: l2 /\
    previous_run l2 = Some (EvRepeatRun off1 d1) /\
    (1 <= length d1)%nat /\ (1 <= length d2)%nat /\
    off1 + Z.of_nat (length d1) = off2.

(** A histogram whose lengths are all of class [c]. *)
Definition only_class (c : nat) (f : array Z) : Prop :=
  forall (k : nat) (v : Z), f !! k = Some (Some v) -> v <> 0 -> k = c.

(** The block at [offs] of [bs] bytes while a run that takes the repeat
    branch at every pass and issues the length 131 only fills it: before
    the first pass the log ends with the start of the block, after it with
    a repeat run of at least one byte that ends at the cursor, and the
    cursor is at 131 modulo 132 until it reaches the end of the block. *)
Definition stuck_run_inv (offs bs : Z) (st : locals) (l : list event) : Prop :=
  (last_was_match st = false /\ i st = 0 /\
   (forall (k : nat) (v : Z), len_freq st !! k = Some (Some v) -> v = 0) /\
   (0 < offs -> exists smp off d rest,
      l = EvBlock offs bs smp :: EvRepeatRun off d :: rest /\
      (1 <= length d)%nat /\ off + Z.of_nat (length d) = offs)) \/
  (last_was_match st = true /\ only_class 128 (len_freq st) /\
   (i st = bs \/ i st mod 132 = 131) /\
   (exists off d rest,
      l = EvRepeatRun off d :: rest /\
      (1 <= length d)%nat /\ off + Z.of_nat (length d) = p st) /\
   (0 < offs -> touching l)).

(** The scratch buffer of the most recent refill of the current call. *)
Fixpoint scratch_of (l : list event) : option (array byte) :=
  match l with
  | [] => None
  | EvBlock _ _ _ :: _ => None
  | EvRefill _ s :: _ => Some s
  | _ :: rest => scratch_of rest
  end.

(** [data] is the first [length data] bytes of the scratch buffer, which
    has [MAX_LEN] assigned bytes. *)
Definition copies_scratch (data : array byte) (scratch : option (array byte)) : Prop :=
  match scratch with
  | Some s => Z.of_nat (length s) = MAX_LEN /\ initialised s /\
              data = take (length data) s
  | None => False
  end.

(** Every repeat run copies the scratch buffer current when it is emitted. *)
Fixpoint repeats_from_scratch (l : list event) : Prop :=
  match l with
  | [] => True
  | EvRepeatRun _ d :: rest => copies_scratch d (scratch_of rest) /\
                               repeats_from_scratch rest
  | _ :: rest => repeats_from_scratch rest
  end.

(** The scratch buffer of the locals is the one the log shows; before the
    first refill of a call the histogram is in its entry state. *)
Definition scratch_state (st : locals) (l : list event) : Prop :=
  match scratch_of l with
  | Some s => buffer st = s
  | None => cur_len st = 0 /\ len_freq st !! 0%nat = Some (Some 0)
  end.

(** Neither a refill nor the start of a block. *)
Definition same_cycle (e : event) : Prop :=
  match e with
  | EvRefill _ _ | EvBlock _ _ _ => False
  | _ => True
  end.

(** Two repeat runs with no refill between them: one is a prefix of the
    other. *)
Definition cycle_prefixes (l : list event) : Prop :=
  forall l1 l2 l3 off1 d1 off2 d2,
    l = l1 ++ EvRepeatRun off1 d1 :: l2 ++ EvRepeatRun off2 d2 :: l3 ->
    Forall same_cycle l2 ->
    d1 `prefix_of` d2 \/ d2 `prefix_of` d1.

(** ** The order in which lengths are issued *)

(** The lengths a histogram holds, from the top bucket down: bucket [k]
    of [f] (counted from [c]) stands for [f k] runs of length
    [MIN_LEN + c + k]. *)
Fixpoint expand_from (c : Z) (f : array Z) : list Z :=
  match f with
  | [] => []
  | cell :: rest =>
      expand_from (c + 1) rest ++ replicate (Z.to_nat (default 0 cell)) (MIN_LEN + c)
  end.

Definition expand (f : array Z) : list Z := expand_from 0 f.

Fixpoint nonincreasing (l : list Z) : Prop :=
  match l with
  | x :: t => match t with
              | y :: _ => y <= x /\ nonincreasing t
              | [] => True
              end
  | [] => True
  end.

(** The lengths of the current refill cycle, as its histogram holds them;
    none before the first refill of a call. *)
Fixpoint cycle_of (l : list event) : list Z :=
  match l with
  | [] => []
  | EvBlock _ _ _ :: _ => []
  | EvRefill f _ :: _ => expand f
  | _ :: rest => cycle_of rest
  end.

(** The lengths issued so far in the current refill cycle, oldest first. *)
Fixpoint cycle_issued (l : list event) : list Z :=
  match l with
  | [] => []
  | EvBlock _ _ _ :: _ => []
  | EvRefill _ _ :: _ => []
  | EvIssue len :: rest => cycle_issued rest ++ [len]
  | _ :: rest => cycle_issued rest
  end.

(** The lengths issued in a cycle are the lengths of its histogram read
    from the top bucket down, and when the next refill of the call takes
    place all of them have been issued. *)
Fixpoint cycles_ok (l : list event) : Prop :=
  match l with
  | [] => True
  | EvRefill _ _ :: rest => cycle_issued rest = cycle_of rest /\ cycles_ok rest
  | EvIssue len :: rest =>
      (cycle_issued rest ++ [len]) `prefix_of` cycle_of rest /\ cycles_ok rest
  | _ :: rest => cycles_ok rest
  end.

(** What is left of the current cycle is what the histogram still holds. *)
Definition cycle_state (st : locals) (l : list event) : Prop :=
  cycle_issued l ++ expand (len_freq st) = cycle_of l.

(** At every moment of the run the lengths issued in the current cycle are
    in non-increasing order. *)
Definition issued_nonincreasing (l : list event) : Prop :=
  forall l1 l2, l = l1 ++ l2 -> nonincreasing (cycle_issued l2).

(** ** Blocks and their corpus *)

(** The corpus of the block being generated. *)
Fixpoint pool_of (l : list event) : option (array byte) :=
  match l with
  | [] => None
  | EvBlock _ _ s :: _ => Some s
  | _ :: rest => pool_of rest
  end.

(** Every cell of [data] holds a byte found at some index of the pool. *)
Definition from_samples (data : array byte) (pool : option (array byte)) : Prop :=
  match pool with
  | Some s => forall cell, cell ∈ data ->
      exists (b : byte) (k : nat),
        cell = Some b /\ Z.of_nat k < SAMPLE_SIZE /\ s !! k = Some (Some b)
  | None => False
  end.

Fixpoint literals_from_pool (l : list event) : Prop :=
  match l with
  | [] => True
  | EvLiteralRun _ d :: rest => from_samples d (pool_of rest) /\ literals_from_pool rest
  | EvBreakLiteral _ d :: rest => from_samples d (pool_of rest) /\ literals_from_pool rest
  | _ :: rest => literals_from_pool rest
  end.

(** Where the next block starts. *)
Fixpoint next_offset (l : list event) : Z :=
  match l with
  | [] => 0
  | EvBlock off num _ :: _ => off + num
  | _ :: rest => next_offset rest
  end.

(** The blocks follow one another from offset 0, each of
    [min BLOCK_SIZE (size - off)] bytes and with a corpus of its own. *)
Fixpoint blocks_ok (powf : float -> float -> float) (lit_exp : double) (size : Z)
    (l : list event) : Prop :=
  match l with
  | [] => True
  | EvBlock off num s :: rest =>
      off = next_offset rest /\ off < size /\ num = block_size size off /\
      1 <= num <= BLOCK_SIZE /\ corpus_ok powf is_uint32 lit_exp s /\
      blocks_ok powf lit_exp size rest
  | _ :: rest => blocks_ok powf lit_exp size rest
  end.

(** Not the start of a block. *)
Definition in_block (e : event) : Prop :=
  match e with
  | EvBlock _ _ _ => False
  | _ => True
  end.

(** A run of the log is found in the buffer [m], below the cursor [pcur]. *)
Definition run_in (m : array byte) (pcur : Z) (e : event) : Prop :=
  match e with
  | EvLiteralRun off d | EvBreakLiteral off d | EvRepeatRun off d =>
      0 <= off /\ off + Z.of_nat (length d) <= pcur /\
      slice m off (Z.of_nat (length d)) = d
  | _ => True
  end.

(** ** Two runs side by side

    [wp2 c1 c2 R w]: run from the same world [w], the computations [c1] and
    [c2] stop with the same fault, or both return, in the same world (the
    same state of the random source and the same log), values related by
    [R]. *)
Definition wp2 {rng A} (c1 c2 : M rng A) (R : A -> A -> Prop) (w : world rng) : Prop :=
  match c1 w, c2 w with
  | Ok (a1, w1), Ok (a2, w2) => R a1 a2 /\ w1 = w2
  | Fault f1, Fault f2 => f1 = f2
  | _, _ => False
  end.
Arguments wp2 : simpl never.

(** Two buffers of one length that hold the same cells on [lo, hi). *)
Definition agree (lo hi : Z) (m1 m2 : array byte) : Prop :=
  length m1 = length m2 /\
  forall k : nat, lo <= Z.of_nat k < hi -> m1 !! k = m2 !! k.

(** Two sets of locals that differ at most in the destination, which they
    share from [lo] up to the cursor. *)
Definition locals_rel (lo : Z) (st1 st2 : locals) : Prop :=
  len_freq st1 = len_freq st2 /\ buffer st1 = buffer st2 /\
  p st1 = p st2 /\ cur_len st1 = cur_len st2 /\ i st1 = i st2 /\
  last_was_match st1 = last_was_match st2 /\
  0 <= lo <= p st1 /\ agree lo (p st1) (mem st1) (mem st2).

(** ** Further vocabulary *)

(** [x] is the quotient [k / 2^32], with no rounding: zero for the draw 0,
    else a positive mantissa [m] and an exponent [e] with
    [m * 2^e = k * 2^-32]. *)
Definition is_quotient (k : Z) (x : double) : Prop :=
  match x with
  | S754_zero false => k = 0
  | S754_finite false m e => e <= 0 /\ Z.pos m * 2 ^ 32 = k * 2 ^ (- e)
  | _ => False
  end.

(** Not a literal run. *)
Definition no_literal_run (e : event) : Prop :=
  match e with
  | EvLiteralRun _ _ => False
  | _ => True
  end.

(** The ratios for which no uniform variate is below [1.0 / ratio]: NaN,
    the infinities, and every zero or finite ratio with the sign bit set. *)
Definition threshold_unreachable (ratio : double) : Prop :=
  match ratio with
  | S754_nan | S754_infinity _ => True
  | S754_zero s | S754_finite s _ _ => s = true
  end.

(** The state of the source after [n] draws, and the [n] draws made on
    the way, as the [uint32_t] values [pcg32_random] returns. *)
Definition draw_state {rng} (pcg32_random : rng -> Z * rng) (n : nat) (g : rng) : rng :=
  Nat.iter n (fun g => snd (pcg32_random g)) g.

Fixpoint draws {rng} (pcg32_random : rng -> Z * rng) (n : nat) (g : rng) : list Z :=
  match n with
  | O => []
  | Datatypes.S n' =>
      uint_wrap (fst (pcg32_random g)) :: draws pcg32_random n' (snd (pcg32_random g))
  end.

(** The length class [generate_lengths] makes of the draw [k]. *)
Definition class_of (powf : float -> float -> float) (len_exp : double) (k : Z)
  : result Z :=
  float_to_size_t (power_sample powf NUM_LEN (uniform k) len_exp).

Definition class_is (powf : float -> float -> float) (len_exp : double) (c k : Z)
  : bool :=
  match class_of powf len_exp k with
  | Ok c' => c' =? c
  | Fault _ => false
  end.

(** How many elements of a list satisfy [f]. *)
Fixpoint count_if (f : Z -> bool) (l : list Z) : Z :=
  match l with
  | [] => 0
  | x :: t => (if f x then 1 else 0) + count_if f t
  end.

(** The bytes of a run. *)
Definition run_data (e : event) : array byte :=
  match e with
  | EvLiteralRun _ d | EvBreakLiteral _ d | EvRepeatRun _ d => d
  | _ => []
  end.

(** The runs of a log laid end to end, oldest first. *)
Fixpoint output_of (l : list event) : array byte :=
  match l with
  | [] => []
  | e :: rest => output_of rest ++ run_data e
  end.

(** Every fault allowed: [wp any_fault] speaks of the runs that return. *)
Definition any_fault (f : fault) : Prop := True.

(** Every assigned cell of [a] holds a byte in [L]. *)
Definition cells_in (L : byte -> Prop) (a : array byte) : Prop :=
  forall (k : nat) (v : byte), a !! k = Some (Some v) -> L v.

(** The cells [lo, hi) of [a] are assigned, with bytes in [L]. *)
Definition filled (L : byte -> Prop) (a : array byte) (lo hi : Z) : Prop :=
  forall k : nat, lo <= Z.of_nat k < hi -> exists v, a !! k = Some (Some v) /\ L v.

(** [a'] after a loop has stored bytes in [S] at [base, base + j) of [a]:
    the cells below [base] are as before, and no other byte than one in
    [S] has come in. *)
Definition fill_inv (S : byte -> Prop) (a : array byte) (base j : Z)
    (a' : array byte) : Prop :=
  (forall k : nat, Z.of_nat k < base -> a' !! k = a !! k) /\
  (forall (k : nat) (v : byte),
     a' !! k = Some (Some v) -> a !! k = Some (Some v) \/ S v) /\
  filled S a' base (base + j).

(** An event of a call of [generate_data_internal] whose run, if it is
    one, consists of assigned bytes in [L]. *)
Definition run_of (L : byte -> Prop) (e : event) : Prop :=
  match e with
  | EvBlock _ _ _ => False
  | EvLiteralRun _ d | EvBreakLiteral _ d | EvRepeatRun _ d =>
      forall cell, cell ∈ d -> exists b, cell = Some b /\ L b
  | _ => True
  end.

(** Every run of the log, repeat runs included, consists of bytes of the
    corpus of its block. *)
Fixpoint runs_from_pool (l : list event) : Prop :=
  match l with
  | [] => True
  | EvLiteralRun _ d :: rest => from_samples d (pool_of rest) /\ runs_from_pool rest
  | EvBreakLiteral _ d :: rest => from_samples d (pool_of rest) /\ runs_from_pool rest
  | EvRepeatRun _ d :: rest => from_samples d (pool_of rest) /\ runs_from_pool rest
  | _ :: rest => runs_from_pool rest
  end.

(** ** [strtosize] of [lzdgen.c]

    A C string is the list of its bytes before the terminating NUL, a
    pointer into it an offset; [char_at s n] is [s[n]] as the [int] that
    [tolower] receives (of an [unsigned char] value; the NUL at the end).
    The library function [strtoull] is a parameter: it returns the value,
    the offset it stores through its second argument, and whether it has
    set [errno] to [ERANGE]. *)

Definition ULLONG_MAX : Z := 2 ^ 64 - 1.
Definition ullong_wrap (z : Z) : Z := z mod 2 ^ 64.

Definition char_at (s : list byte) (n : nat) : Z :=
  Z.of_N (Byte.to_N (default "000"%byte (s !! n))).

(** [tolower] in the C locale, the one in effect in [lzdgen]. *)
Definition tolower (c : Z) : Z :=
  if (65 <=? c) && (c <=? 90) then c + 32 else c.

Section Strtosize.
Variable strtoull : list byte -> Z -> Z * nat * bool.

(** The value returned and the offset left in [*endptr] (which the
    caller reads when [endptr] is not [NULL]). *)
Definition strtosize (s : list byte) (base : Z) : Z * nat :=
  let '(v, ep, erange) := strtoull s base in
  let ep := if (v =? ULLONG_MAX) && erange then 0%nat else ep in
  let c := tolower (char_at s ep) in
  if c =? 107 then                                           (* 'k' *)
    if ULLONG_MAX / 1024 <=? v then (ULLONG_MAX, 0%nat)
    else (ullong_wrap (v * 1024), Datatypes.S ep)
  else if c =? 109 then                                      (* 'm' *)
    if ULLONG_MAX / (1024 * 1024) <=? v then (ULLONG_MAX, 0%nat)
    else (ullong_wrap (v * (1024 * 1024)), Datatypes.S ep)
  else if c =? 103 then                                      (* 'g' *)
    if ULLONG_MAX / (1024 * 1024 * 1024) <=? v then (ULLONG_MAX, 0%nat)
    else (ullong_wrap (v * (1024 * 1024 * 1024)), Datatypes.S ep)
  else if c =? 116 then                                      (* 't' *)
    if ULLONG_MAX / (1024 * 1024 * 1024 * 1024) <=? v then (ULLONG_MAX, 0%nat)
    else (ullong_wrap (v * (1024 * 1024 * 1024 * 1024)), Datatypes.S ep)
  else (v, ep).
End Strtosize.

(** A [strtoull] that reads the value [v] and stops at offset [n]. *)
Definition strtoull_reads (v : Z) (n : nat) (s : list byte) (base : Z)
  : Z * nat * bool := (v, n, false).

(** A [strtoull] that reports an overflow after reading up to offset [n]. *)
Definition strtoull_overflows (n : nat) (s : list byte) (base : Z)
  : Z * nat * bool := (ULLONG_MAX, n, true).

(** The factor a size suffix stands for, in either case. *)
Definition suffix_scale (c : Z) : option Z :=
  if (c =? 107) || (c =? 75) then Some (2 ^ 10)        (* k K *)
  else if (c =? 109) || (c =? 77) then Some (2 ^ 20)   (* m M *)
  else if (c =? 103) || (c =? 71) then Some (2 ^ 30)   (* g G *)
  else if (c =? 116) || (c =? 84) then Some (2 ^ 40)   (* t T *)
  else None.

(** The long run is ahead of the short one: its cursor is at least as
    far, and below the cursor of the short run the two destinations hold
    the same cells. *)
Definition ahead (st_s st_l : locals) : Prop :=
  p st_s <= p st_l /\
  forall k : nat, Z.of_nat k < p st_s -> mem st_l !! k = mem st_s !! k.

(** A computation whose result and draws do not depend on the log it
    starts from. *)
Definition log_blind {rng A} (c : M rng A) : Prop :=
  forall g l1 l2,
    match c (World g l1), c (World g l2) with
    | Ok (a1, w1), Ok (a2, w2) => a1 = a2 /\ gen w1 = gen w2
    | Fault f1, Fault f2 => f1 = f2
    | _, _ => False
    end.

(** How many events of a log satisfy [f]. *)
Fixpoint count_events (f : event -> bool) (l : list event) : nat :=
  match l with
  | [] => O
  | e :: rest => ((if f e then 1 else 0) + count_events f rest)%nat
  end.

Definition is_break (e : event) : bool :=
  match e with EvBreakLiteral _ _ => true | _ => false end.

Definition is_literal_run (e : event) : bool :=
  match e with EvLiteralRun _ _ => true | _ => false end.

Definition is_refill (e : event) : bool :=
  match e with EvRefill _ _ => true | _ => false end.

Definition is_issue_of (len : Z) (e : event) : bool :=
  match e with EvIssue n => n =? len | _ => false end.

(** The draws an event of the log stands for: a corpus takes
    [SAMPLE_SIZE] draws, a refill [MAX_LEN] for the scratch buffer and
    [LEN_PER_CHUNK] for the lengths, an issued length the draw of the
    branch test, and every literal byte one. *)
Definition event_draws (e : event) : nat :=
  match e with
  | EvBlock _ _ _ => Z.to_nat SAMPLE_SIZE
  | EvRefill _ _ => (Z.to_nat MAX_LEN + Z.to_nat LEN_PER_CHUNK)%nat
  | EvIssue _ => 1%nat
  | EvLiteralRun _ d => length d
  | EvBreakLiteral _ d => length d
  | EvRepeatRun _ _ => 0%nat
  end.

Fixpoint draws_of (l : list event) : nat :=
  match l with
  | [] => 0%nat
  | e :: rest => (event_draws e + draws_of rest)%nat
  end.

(** The corpus made of the [SAMPLE_SIZE] draws that follow the state [g]
    of the source: cell [j] holds the literal sample of the [j]-th. *)
Definition corpus_drawn {rng} (pcg32_random : rng -> Z * rng)
    (powf : float -> float -> float) (lit_exp : double) (g : rng)
    (s : array byte) : Prop :=
  Z.of_nat (length s) = SAMPLE_SIZE /\
  forall (j : nat) (d : Z),
    draws pcg32_random (Z.to_nat SAMPLE_SIZE) g !! j = Some d ->
    exists b, float_to_uchar (power_sample powf 256 (uniform d) lit_exp) = Ok b /\
              s !! j = Some (Some b).

(** Every block has a corpus drawn for it: the corpus logged at the start
    of a block is made of the [SAMPLE_SIZE] draws that come after all the
    draws of the run so far, from the state [g0] the run started in. *)
Fixpoint corpora_fresh {rng} (pcg32_random : rng -> Z * rng)
    (powf : float -> float -> float) (lit_exp : double) (g0 : rng)
    (l : list event) : Prop :=
  match l with
  | [] => True
  | EvBlock _ _ s :: rest =>
      corpus_drawn pcg32_random powf lit_exp
        (draw_state pcg32_random (draws_of rest) g0) s /\
      corpora_fresh pcg32_random powf lit_exp g0 rest
  | _ :: rest => corpora_fresh pcg32_random powf lit_exp g0 rest
  end.

(** The source is where the draws of the log have taken it, and every
    corpus of the log was drawn for its block. *)
Definition drawn {rng} (pcg32_random : rng -> Z * rng)
    (powf : float -> float -> float) (lit_exp : double) (g0 : rng)
    (w : world rng) : Prop :=
  gen w = draw_state pcg32_random (draws_of (log w)) g0 /\
  corpora_fresh pcg32_random powf lit_exp g0 (log w).

(** * Proofs *)

(** ** Floating point: the uniform variate

    [uniform k] is the exact quotient [k / 2^32]: for a draw of [d] bits the
    mantissa is [k] shifted to 53 bits and the exponent is [d - 85]. *)

Lemma digits2_pos_size p : digits2_pos p = Pos.size p.
Proof. induction p; simpl; congruence. Qed.

Lemma digits2_iter_xO p n :
  Z.pos (digits2_pos (Pos.iter xO p n)) = Z.pos (digits2_pos p) + Z.pos n.
Proof.
  revert p. induction n using Pos.peano_ind; intros p.
  - simpl. lia.
  - rewrite Pos.iter_succ. simpl. rewrite Pos2Z.inj_succ, IHn. lia.
Qed.

Lemma digits2_uint32 p : Z.pos p < 2 ^ 32 -> 1 <= Z.pos (digits2_pos p) <= 32.
Proof.
  intros H. split; [lia|].
  rewrite digits2_pos_size.
  destruct (Z.le_gt_cases (Z.pos (Pos.size p)) 32) as [|Hgt]; [done|].
  pose proof (Pos.size_le p) as Hle.
  assert (2 ^ 33 <= 2 ^ Z.pos (Pos.size p)).
  { apply Z.pow_le_mono_r; lia. }
  assert (Z.pos (2 ^ Pos.size p) = 2 ^ Z.pos (Pos.size p))
    by (rewrite Pos2Z.inj_pow; done).
  assert (Z.pos (2 ^ Pos.size p) <= Z.pos p~0) by (apply Pos2Z.pos_le_pos; exact Hle).
  lia.
Qed.

(** Rounding leaves a canonical mantissa as it is. *)
Lemma binary_round_aux_canonical prec emax s m e :
  fexp prec emax (Z.pos (digits2_pos m) + e) = e -> e <= emax - prec ->
  binary_round_aux prec emax s (Z.pos m) e loc_Exact = S754_finite s m e.
Proof.
  intros Hc He. unfold binary_round_aux, shr_fexp. simpl Zdigits2.
  rewrite Hc, Z.sub_diag. simpl. rewrite Hc, Z.sub_diag. simpl.
  apply Z.leb_le in He. rewrite He. done.
Qed.

Lemma int_to_double_pos p :
  Z.pos (digits2_pos p) <= 32 ->
  int_to_double (Z.pos p) =
    S754_finite false (Pos.iter xO p (Z.to_pos (53 - Z.pos (digits2_pos p))))
                (Z.pos (digits2_pos p) - 53).
Proof.
  intros Hd. unfold int_to_double, binary_normalize, binary_round.
  set (d := Z.pos (digits2_pos p)) in *.
  assert (Hf : fexp 53 1024 (d + 0) = d - 53).
  { unfold fexp, emin. lia. }
  rewrite Hf. unfold shl_align.
  destruct (d - 53 - 0) as [|q|q] eqn:Hq; try lia.
  assert (Hq' : Z.to_pos (53 - d) = q) by lia. rewrite Hq'.
  apply binary_round_aux_canonical.
  - rewrite digits2_iter_xO. fold d. unfold fexp, emin. lia.
  - lia.
Qed.

Lemma two32_eq :
  d_add (int_to_double UINT32_MAX) d_one = S754_finite false 4503599627370496 (-20).
Proof. vm_compute. reflexivity. Qed.

(** Division by [2^32] of a 53-bit mantissa is exact. *)
Lemma div_pow2_52 m e m2 :
  Z.pos (digits2_pos m) = 53 -> -53 < e <= 0 ->
  Z.pos (digits2_pos m2) = 53 -> Z.pos m2 = 2 ^ 52 ->
  SFdiv 53 1024 (S754_finite false m e) (S754_finite false m2 (-20))
  = S754_finite false m (e - 32).
Proof.
  intros Hd He Hd2 Hm2. unfold SFdiv, SFdiv_core_binary, Zdigits2.
  rewrite Hd, Hd2.
  assert (Hmin : Z.min (fexp 53 1024 (53 + e - (53 + -20))) (e - -20) = e - 33).
  { unfold fexp, emin. lia. }
  rewrite Hmin.
  replace (e - -20 - (e - 33)) with 53 by lia.
  assert (Hdiv : Z.div_eucl (Z.shiftl (Z.pos m) 53) (Z.pos m2) = (Z.pos m~0, 0)).
  { rewrite Z.shiftl_mul_pow2 by lia.
    pose proof (Z.div_eucl_eq (Z.pos m * 2 ^ 53) (Z.pos m2) ltac:(lia)) as Heq.
    pose proof (Z.mod_pos_bound (Z.pos m * 2 ^ 53) (Z.pos m2) ltac:(lia)) as Hb.
    unfold Z.modulo in Hb.
    destruct (Z.div_eucl (Z.pos m * 2 ^ 53) (Z.pos m2)) as [q r].
    rewrite Hm2 in *.
    change (2 ^ 53) with (2 * 2 ^ 52) in Heq.
    assert (r = 0 /\ q = 2 * Z.pos m) as [-> ->] by nia.
    reflexivity. }
  rewrite Hdiv.
  assert (Hloc : new_location (Z.pos m2) 0 = loc_Exact).
  { unfold new_location, new_location_even, new_location_odd.
    destruct (Z.even (Z.pos m2)); reflexivity. }
  rewrite Hloc.
  unfold binary_round_aux, shr_fexp, Zdigits2.
  change (digits2_pos m~0) with (Pos.succ (digits2_pos m)).
  rewrite Pos2Z.inj_succ, Hd.
  assert (Hf1 : fexp 53 1024 (Z.succ 53 + (e - 33)) - (e - 33) = 1).
  { unfold fexp, emin. lia. }
  rewrite Hf1. simpl. rewrite Hd.
  assert (Hf2 : fexp 53 1024 (53 + (e - 33 + 1)) - (e - 33 + 1) = 0).
  { unfold fexp, emin. lia. }
  rewrite Hf2. simpl.
  replace (e - 33 + 1) with (e - 32) by lia.
  destruct (Z.leb_spec (e - 32) (1024 - 53)); [done | lia].
Qed.

Lemma uniform_pos p :
  Z.pos p < 2 ^ 32 ->
  uniform (Z.pos p) =
    S754_finite false (Pos.iter xO p (Z.to_pos (53 - Z.pos (digits2_pos p))))
                (Z.pos (digits2_pos p) - 85).
Proof.
  intros Hp. pose proof (digits2_uint32 p Hp) as Hd.
  unfold uniform. rewrite two32_eq, int_to_double_pos by lia.
  unfold d_div. rewrite div_pow2_52; [| |lia|reflexivity|reflexivity].
  - f_equal. lia.
  - rewrite digits2_iter_xO. lia.
Qed.

(** Every uniform variate is below 1.0. *)
Lemma uniform_lt_one k : is_uint32 k -> d_ltb (uniform k) d_one = true.
Proof.
  intros Hk. destruct k as [|p|p]; [reflexivity| |unfold is_uint32 in Hk; lia].
  rewrite uniform_pos by (unfold is_uint32 in Hk; lia).
  pose proof (digits2_uint32 p ltac:(unfold is_uint32 in Hk; lia)) as Hd.
  unfold d_ltb, SFltb, SFcompare, d_one.
  destruct (Z.compare_spec (Z.pos (digits2_pos p) - 85) (-52)); [lia|done|lia].
Qed.

(** The draws within 128 of [2^32] round up to 1.0f when narrowed. *)
Lemma narrowing_rounds_up k :
  2 ^ 32 - 128 <= k < 2 ^ 32 -> double_to_float (uniform k) = f_one.
Proof.
  intros Hk.
  assert (H : forallb
                (fun j => match double_to_float (uniform (4294967168 + Z.of_nat j)) with
                          | S754_finite false 8388608 (-23) => true
                          | _ => false
                          end) (seq 0 128) = true) by (vm_compute; reflexivity).
  rewrite forallb_forall in H.
  specialize (H (Z.to_nat (k - 4294967168))).
  replace (4294967168 + Z.of_nat (Z.to_nat (k - 4294967168))) with k in H by lia.
  assert (Hin : In (Z.to_nat (k - 4294967168)) (seq 0 128)).
  { apply in_seq. lia. }
  specialize (H Hin).
  destruct (double_to_float (uniform k)) as [| | |[] [] []]; try discriminate.
  all: repeat match goal with
       | H : match ?p with _ => _ end = true |- _ => destruct p; try discriminate
       end.
  reflexivity.
Qed.

(** ** Rules of the program logic *)

Section Rules.
Context {rng : Type}.
Implicit Types (w : world rng) (E : fault -> Prop).

Lemma wp_ret {A} E (a : A) (Q : A -> world rng -> Prop) w :
  Q a w -> wp E (ret a) Q w.
Proof. intros H. exact H. Qed.

Lemma wp_bind {A B} E (c : M rng A) (k : A -> M rng B) Q w :
  wp E c (fun a w' => wp E (k a) Q w') w -> wp E (bind c k) Q w.
Proof.
  unfold wp, bind. destruct (c w) as [[a w']|f]; auto.
Qed.

Lemma wp_lift {A} E (r : result A) (Q : A -> world rng -> Prop) w :
  match r with Ok a => Q a w | Fault f => E f end -> wp E (lift r) Q w.
Proof. unfold wp, lift. destruct r; auto. Qed.

Lemma wp_emit E e (Q : unit -> world rng -> Prop) w :
  Q tt (World (gen w) (e :: log w)) -> wp E (emit e) Q w.
Proof. intros H. exact H. Qed.

Lemma wp_assert E (b : bool) (Q : unit -> world rng -> Prop) w :
  (if b then Q tt w else E AssertionFailed) -> wp E (assert b) Q w.
Proof. destruct b; intros H; exact H. Qed.

Lemma wp_fail {A} E f (Q : A -> world rng -> Prop) w :
  E f -> wp E (fail f) Q w.
Proof. intros H. exact H. Qed.

Lemma wp_mono {A} E (c : M rng A) (Q Q' : A -> world rng -> Prop) w :
  wp E c Q w -> (forall a w', Q a w' -> Q' a w') -> wp E c Q' w.
Proof.
  unfold wp. destruct (c w) as [[a w']|f]; auto.
Qed.

Lemma wp_fault_mono {A} (E E' : fault -> Prop) (c : M rng A) Q w :
  wp E c Q w -> (forall f, E f -> E' f) -> wp E' c Q w.
Proof.
  unfold wp. destruct (c w) as [[a w']|f]; auto.
Qed.

(** A counted loop keeps an invariant indexed by the loop variable. *)
Lemma wp_for_loop {S} E (I : Z -> S -> world rng -> Prop)
    (body : Z -> S -> M rng S) (count : nat) (j : Z) (s : S) w :
  I j s w ->
  (forall j' s' w', j <= j' < j + Z.of_nat count -> I j' s' w' ->
      wp E (body j' s') (I (j' + 1)) w') ->
  wp E (for_loop count j body s) (I (j + Z.of_nat count)) w.
Proof.
  revert j s w. induction count as [|n IH]; intros j s w HI Hbody.
  - simpl. apply wp_ret. replace (j + Z.of_nat 0) with j by lia. exact HI.
  - simpl. apply wp_bind.
    eapply wp_mono; [apply Hbody; [lia | exact HI]|].
    intros s' w' HI'. simpl.
    replace (j + Z.of_nat (Datatypes.S n)) with (j + 1 + Z.of_nat n) by lia.
    apply IH; [exact HI'|].
    intros j' s'' w'' Hj. apply Hbody. lia.
Qed.
End Rules.

(** ** Machine arithmetic without overflow *)

Lemma size_wrap_small z : 0 <= z <= SIZE_MAX -> size_wrap z = z.
Proof. intros H. unfold size_wrap. apply Z.mod_small. unfold SIZE_MAX in H. lia. Qed.

Lemma uint_wrap_small z : 0 <= z < 2 ^ 32 -> uint_wrap z = z.
Proof. intros H. unfold uint_wrap. apply Z.mod_small. lia. Qed.

Lemma uint_wrap_range z : 0 <= uint_wrap z < 2 ^ 32.
Proof. unfold uint_wrap. apply Z.mod_pos_bound. reflexivity. Qed.

Lemma clamp_min size pos len :
  0 <= size - pos <= SIZE_MAX -> clamp size pos len = Z.min len (size - pos).
Proof.
  intros H. unfold clamp. rewrite size_wrap_small by exact H.
  destruct (Z.ltb_spec (size - pos) len); lia.
Qed.

(** ** Arrays *)

Section ArrayFacts.
Context {rng A : Type}.
Implicit Types (a : array A) (w : world rng).

Lemma wp_load E a k v (Q : A -> world rng -> Prop) w :
  0 <= k -> a !! Z.to_nat k = Some (Some v) -> Q v w ->
  wp E (lift (load a k)) Q w.
Proof.
  intros Hk Hv HQ. apply wp_lift. unfold load.
  destruct (Z.ltb_spec k 0); [lia|]. rewrite Hv. exact HQ.
Qed.

Lemma wp_store E a k v (Q : array A -> world rng -> Prop) w :
  0 <= k < Z.of_nat (length a) ->
  Q (<[Z.to_nat k := Some v]> a) w ->
  wp E (lift (store a k v)) Q w.
Proof.
  intros Hk HQ. apply wp_lift. unfold store.
  destruct (Z.leb_spec 0 k); [|lia].
  destruct (Z.ltb_spec k (Z.of_nat (length a))); [|lia].
  exact HQ.
Qed.

Lemma written_refl (P : A -> Prop) a off : written P a a off 0.
Proof. split; [done|done|]. intros k Hk. lia. Qed.

(** One more cell assigned at the end of the range. *)
Lemma written_step (P : A -> Prop) a a' off n v :
  0 <= off -> 0 <= n -> off + n < Z.of_nat (length a) ->
  written P a a' off n -> P v ->
  written P a (<[Z.to_nat (off + n) := Some v]> a') off (n + 1).
Proof.
  intros Hoff Hn Hlen [Hl Hf Hc] HP. split.
  - rewrite length_insert. exact Hl.
  - intros k Hk. rewrite list_lookup_insert_ne by lia. apply Hf. lia.
  - intros k Hk. destruct (decide (k = Z.to_nat (off + n))) as [->|Hne].
    + exists v. split; [|exact HP].
      apply list_lookup_insert_eq. lia.
    + rewrite list_lookup_insert_ne by lia. apply Hc. lia.
Qed.

(** Two adjacent ranges assigned one after the other. *)
Lemma written_app (P : A -> Prop) a b c off n n' :
  0 <= n -> 0 <= n' ->
  written P a b off n -> written P b c (off + n) n' ->
  written P a c off (n + n').
Proof.
  intros Hn Hn' [Hl1 Hf1 Hc1] [Hl2 Hf2 Hc2]. split.
  - congruence.
  - intros k Hk. rewrite Hf2 by lia. apply Hf1. lia.
  - intros k Hk. destruct (decide (Z.of_nat k < off + n)) as [Hlt|Hge].
    + rewrite Hf2 by lia. apply Hc1. lia.
    + apply Hc2. lia.
Qed.

Lemma written_weaken (P P' : A -> Prop) a a' off n :
  written P a a' off n -> (forall v, P v -> P' v) -> written P' a a' off n.
Proof.
  intros [Hl Hf Hc] HP. split; [done|done|].
  intros k Hk. destruct (Hc k Hk) as (v & Hv & HPv). eauto.
Qed.
End ArrayFacts.

(** ** The histogram total *)

Lemma hist_total_replicate (n : nat) : hist_total (replicate n (Some 0)) = 0.
Proof. induction n as [|n IH]; simpl; [done|]. fold (hist_total (replicate n (Some 0))). lia. Qed.

Lemma hist_total_insert (f : array Z) (k : nat) (v v' : Z) :
  f !! k = Some (Some v) ->
  hist_total (<[k := Some v']> f) = hist_total f - v + v'.
Proof.
  revert k. induction f as [|c f IH]; intros k Hk; [done|].
  destruct k as [|k]; simpl in *.
  - injection Hk as ->. simpl. unfold hist_total. lia.
  - fold (hist_total (<[k := Some v']> f)). fold (hist_total f).
    rewrite (IH k Hk). lia.
Qed.

Lemma hist_total_nonneg (f : array Z) :
  (forall j c, f !! j = Some (Some c) -> 0 <= c) -> 0 <= hist_total f.
Proof.
  induction f as [|c f IH]; intros Hnn; [done|].
  simpl. fold (hist_total f).
  assert (0 <= hist_total f).
  { apply IH. intros j c0 Hj. apply (Hnn (Datatypes.S j)). exact Hj. }
  destruct c as [c|]; simpl; [|lia].
  specialize (Hnn 0%nat c eq_refl). lia.
Qed.

Lemma hist_total_bound (f : array Z) (k : nat) (v : Z) :
  (forall j c, f !! j = Some (Some c) -> 0 <= c) ->
  f !! k = Some (Some v) -> v <= hist_total f.
Proof.
  revert k. induction f as [|c f IH]; intros k Hnn Hk; [done|].
  assert (Htl : forall j c0, f !! j = Some (Some c0) -> 0 <= c0).
  { intros j c0 Hj. apply (Hnn (Datatypes.S j)). exact Hj. }
  pose proof (hist_total_nonneg f Htl) as Hrest.
  destruct k as [|k]; simpl in *; fold (hist_total f).
  - injection Hk as ->. simpl. lia.
  - pose proof (IH k Htl Hk).
    destruct c as [c|]; simpl; [|lia].
    specialize (Hnn 0%nat c eq_refl). lia.
Qed.

Lemma hist_total_zero (f : array Z) :
  (forall (k : nat) (v : Z), f !! k = Some (Some v) -> v = 0) -> hist_total f = 0.
Proof.
  induction f as [|c f IH]; intros Hz; [done|].
  simpl. fold (hist_total f). rewrite IH.
  - destruct c as [c|]; simpl; [|done]. rewrite (Hz 0%nat c eq_refl). done.
  - intros k v Hk. apply (Hz (Datatypes.S k)). exact Hk.
Qed.

Lemma hist_total_nonzero (f : array Z) :
  hist_total f <> 0 -> exists (k : nat) (v : Z), f !! k = Some (Some v) /\ v <> 0.
Proof.
  induction f as [|c f IH]; intros Hne; [done|].
  simpl in Hne. fold (hist_total f) in Hne.
  destruct c as [v|]; simpl in Hne.
  - destruct (decide (v = 0)) as [->|Hv].
    + destruct IH as (k & v' & Hk & Hv'); [lia|]. by exists (Datatypes.S k), v'.
    + by exists 0%nat, v.
  - destruct IH as (k & v' & Hk & Hv'); [lia|]. by exists (Datatypes.S k), v'.
Qed.

(** ** Specifications of the generator's functions *)

Lemma safe_source_any {rng} (pcg32_random : rng -> Z * rng) powf len_exp lit_exp :
  safe_source pcg32_random powf sampling_fault (fun _ => True) is_uint32
              len_exp lit_exp.
Proof.
  split; [done| | done | |].
  - intros g _. apply uint_wrap_range.
  - intros k _. unfold length_sample_ok, float_to_size_t.
    destruct (trunc _) as [z|]; [|by right].
    destruct (_ && _); [|by right].
    destruct (z <? NUM_LEN); [done|by left].
  - intros k _. unfold literal_sample_ok, float_to_uchar.
    destruct (trunc _) as [z|]; [|by right].
    destruct (0 <=? z); [|by right].
    destruct (Byte.of_N _); [done|by right].
Qed.

Section Specs.
Context {rng : Type}.
Variable pcg32_random : rng -> Z * rng.
Variable powf : float -> float -> float.
Variable E : fault -> Prop.
Variable G : rng -> Prop.
Variable D : Z -> Prop.
Variables len_exp lit_exp : double.
Hypothesis source : safe_source pcg32_random powf E G D len_exp lit_exp.

Implicit Types (w : world rng).

Lemma wp_pcg32 (Q : Z -> world rng -> Prop) w :
  G (gen w) ->
  (forall k g, D k -> G g -> Q k (World g (log w))) ->
  wp E (pcg32 pcg32_random) Q w.
Proof.
  intros HG HQ. unfold wp, pcg32.
  pose proof (ss_step _ _ _ _ _ _ _ source _ HG) as Hstep.
  pose proof (ss_draw _ _ _ _ _ _ _ source _ HG) as Hdraw.
  destruct (pcg32_random (gen w)) as [k g]. simpl in *. by apply HQ.
Qed.

Lemma generate_literals_from_distribution_spec (a : array byte) ptr size w :
  0 <= ptr -> 0 <= size -> ptr + size <= Z.of_nat (length a) -> G (gen w) ->
  wp E (generate_literals_from_distribution pcg32_random powf a ptr size lit_exp)
     (fun a' w' => written (sampled_literal powf D lit_exp) a a' ptr size /\
                   log w' = log w /\ G (gen w')) w.
Proof.
  intros Hptr Hsize Hlen HG. unfold generate_literals_from_distribution.
  eapply wp_mono.
  - apply (wp_for_loop E (fun j a' w' =>
             written (sampled_literal powf D lit_exp) a a' ptr j /\
             log w' = log w /\ G (gen w'))).
    + split; [apply written_refl|done].
    + intros j a' w' Hj (Hw & Hlog & HG'). apply wp_bind.
      unfold rand_double. apply wp_bind. apply wp_pcg32; [exact HG'|].
      intros k g Hk Hg. apply wp_ret. apply wp_bind. apply wp_lift.
      pose proof (ss_lit _ _ _ _ _ _ _ source _ Hk) as Hlit.
      unfold literal_sample_ok in Hlit.
      destruct (float_to_uchar _) as [v|f] eqn:Hconv; [|exact Hlit].
      apply wp_store.
      * rewrite (wr_length _ _ _ _ _ Hw). lia.
      * split; [|done]. apply written_step; [lia|lia|lia|exact Hw|].
        exists k. done.
  - intros a' w' H. replace (0 + Z.of_nat (Z.to_nat size)) with size in H by lia.
    exact H.
Qed.

Lemma generate_literals_from_samples_spec (a : array byte) ptr size samples w :
  0 <= ptr -> 0 <= size -> ptr + size <= Z.of_nat (length a) ->
  samples_ok (Some samples) -> G (gen w) ->
  wp E (generate_literals_from_samples pcg32_random a ptr size samples)
     (fun a' w' => written (literal_value powf D lit_exp (Some samples)) a a' ptr size /\
                   log w' = log w /\ G (gen w')) w.
Proof.
  intros Hptr Hsize Hlen [Hslen Hsinit] HG. unfold generate_literals_from_samples.
  eapply wp_mono.
  - apply (wp_for_loop E (fun j a' w' =>
             written (literal_value powf D lit_exp (Some samples)) a a' ptr j /\
             log w' = log w /\ G (gen w'))).
    + split; [apply written_refl|done].
    + intros j a' w' Hj (Hw & Hlog & HG'). apply wp_bind.
      apply wp_pcg32; [exact HG'|]. intros k g _ Hg.
      assert (Hk : 0 <= k mod SAMPLE_SIZE < SAMPLE_SIZE).
      { apply Z.mod_pos_bound. reflexivity. }
      destruct (Hsinit (Z.to_nat (k mod SAMPLE_SIZE)) ltac:(lia)) as [v Hv].
      apply wp_bind. eapply wp_load; [lia|exact Hv|].
      apply wp_store.
      * rewrite (wr_length _ _ _ _ _ Hw). lia.
      * split; [|done]. apply written_step; [lia|lia|lia|exact Hw|].
        simpl. eapply list_elem_of_lookup_2. exact Hv.
  - intros a' w' H. replace (0 + Z.of_nat (Z.to_nat size)) with size in H by lia.
    exact H.
Qed.

Lemma generate_literals_spec (a : array byte) ptr size samples w :
  0 <= ptr -> 0 <= size -> ptr + size <= Z.of_nat (length a) ->
  samples_ok samples -> G (gen w) ->
  wp E (generate_literals pcg32_random powf a ptr size lit_exp samples)
     (fun a' w' => written (literal_value powf D lit_exp samples) a a' ptr size /\
                   log w' = log w /\ G (gen w')) w.
Proof.
  intros Hptr Hsize Hlen Hs HG. destruct samples as [s|]; simpl.
  - by apply generate_literals_from_samples_spec.
  - by apply generate_literals_from_distribution_spec.
Qed.

Lemma memcpy_spec (dst : array byte) d (src : array byte) n w
    (Q : array byte -> world rng -> Prop) :
  0 <= d -> 0 <= n -> d + n <= Z.of_nat (length dst) ->
  n <= Z.of_nat (length src) -> initialised src ->
  (forall a', copied dst a' d src n -> Q a' w) ->
  wp E (memcpy (rng := rng) dst d src n) Q w.
Proof.
  intros Hd Hn Hlen Hsrc Hinit HQ. unfold memcpy.
  eapply wp_mono.
  - apply (wp_for_loop E (fun j a' w' => copied dst a' d src j /\ w' = w)).
    + split; [|done]. split; [apply written_refl|]. intros k Hk. lia.
    + intros j a' w' Hj ([Hw Hc] & ->).
      destruct (Hinit (Z.to_nat j) ltac:(lia)) as [v Hv].
      apply wp_bind. eapply wp_load; [lia|exact Hv|].
      apply wp_store.
      * rewrite (wr_length _ _ _ _ _ Hw). lia.
      * split; [|done]. split.
        -- apply written_step; [lia|lia|lia|exact Hw|done].
        -- intros k Hk. destruct (decide (k = Z.to_nat j)) as [->|Hne].
           ++ rewrite Hv. replace (Z.to_nat d + Z.to_nat j)%nat with (Z.to_nat (d + j)) by lia.
              apply list_lookup_insert_eq. rewrite (wr_length _ _ _ _ _ Hw). lia.
           ++ rewrite list_lookup_insert_ne by lia. apply Hc. lia.
  - intros a' w' [Hc ->]. apply HQ.
    replace (0 + Z.of_nat (Z.to_nat n)) with n in Hc by lia. exact Hc.
Qed.

(** After [generate_lengths] every bucket is assigned and the counts
    add up to the number of lengths asked for. *)
Lemma generate_lengths_spec (freq : array Z) num w :
  Z.of_nat (length freq) = NUM_LEN -> 0 <= num < 2 ^ 32 - 1 -> G (gen w) ->
  wp E (generate_lengths pcg32_random powf freq num len_exp)
     (fun f' w' =>
        Z.of_nat (length f') = NUM_LEN /\
        (forall k : nat, Z.of_nat k < NUM_LEN ->
           exists v, f' !! k = Some (Some v) /\ 0 <= v <= num) /\
        (forall (k : nat) (v : Z), f' !! k = Some (Some v) -> v <> 0 ->
           sampled_class powf D len_exp (Z.of_nat k)) /\
        hist_total f' = num /\ log w' = log w /\ G (gen w')) w.
Proof.
  intros Hlen Hnum HG. unfold generate_lengths. apply wp_bind.
  eapply wp_mono.
  { apply (wp_for_loop E (fun j f' w' =>
       length f' = length freq /\ w' = w /\
       forall k : nat, Z.of_nat k < j -> f' !! k = Some (Some 0))).
    - split; [done|]. split; [done|]. intros k Hk. lia.
    - intros j f' w' Hj (Hl & -> & Hz). apply wp_store; [lia|].
      split; [by rewrite length_insert|]. split; [done|].
      intros k Hk. destruct (decide (k = Z.to_nat j)) as [->|Hne].
      + apply list_lookup_insert_eq. lia.
      + rewrite list_lookup_insert_ne by lia. apply Hz. lia. }
  intros f0 w0 (Hl0 & -> & Hz0). simpl in Hz0.
  assert (Hf0 : f0 = replicate (Z.to_nat NUM_LEN) (Some 0)).
  { apply list_eq. intros k. destruct (decide (k < Z.to_nat NUM_LEN)%nat) as [Hk|Hk].
    - rewrite lookup_replicate_2 by done. apply Hz0. lia.
    - rewrite (lookup_ge_None_2 f0) by lia.
      symmetry. apply lookup_replicate_None. lia. }
  eapply wp_mono.
  { apply (wp_for_loop E (fun j f' w' =>
       Z.of_nat (length f') = NUM_LEN /\
       (forall k : nat, Z.of_nat k < NUM_LEN ->
          exists v, f' !! k = Some (Some v) /\ 0 <= v) /\
       (forall (k : nat) (v : Z), f' !! k = Some (Some v) -> v <> 0 ->
          sampled_class powf D len_exp (Z.of_nat k)) /\
       hist_total f' = j /\ log w' = log w /\ G (gen w'))).
    - split; [lia|]. split; [|split].
      + intros k Hk. exists 0. split; [apply Hz0; lia|lia].
      + intros k v Hv Hnz. rewrite Hf0 in Hv.
        apply lookup_replicate in Hv as [Hv _]. congruence.
      + split; [|done]. rewrite Hf0. apply hist_total_replicate.
    - intros j f' w' Hj (Hl & Hcells & Hcls & Htot & Hlog & HG').
      apply wp_bind. unfold rand_double. apply wp_bind.
      apply wp_pcg32; [exact HG'|]. intros d g Hd Hg. apply wp_ret.
      apply wp_bind. apply wp_lift.
      pose proof (ss_len _ _ _ _ _ _ _ source _ Hd) as Hok.
      unfold length_sample_ok in Hok.
      destruct (float_to_size_t _) as [len|f] eqn:Hconv; [|exact Hok].
      apply wp_bind. apply wp_assert.
      destruct (Z.ltb_spec len NUM_LEN) as [Hlt|]; [|exact Hok].
      assert (Hge : 0 <= len).
      { unfold float_to_size_t in Hconv. destruct (trunc _) as [z|]; [|done].
        destruct (Z.leb_spec 0 z); simpl in Hconv; [|done].
        destruct (z <=? SIZE_MAX); [|done]. injection Hconv as <-. done. }
      destruct (Hcells (Z.to_nat len) ltac:(lia)) as (v & Hv & Hv0).
      assert (Hvle : v <= hist_total f').
      { eapply hist_total_bound; [|exact Hv]. intros k c Hk.
        destruct (decide (Z.of_nat k < NUM_LEN)) as [Hk'|Hk'].
        - destruct (Hcells k Hk') as (c' & Hc' & ?). congruence.
        - apply lookup_lt_Some in Hk. lia. }
      apply wp_bind. eapply wp_load; [lia|exact Hv|].
      apply wp_store; [lia|].
      assert (Hwrap : uint_wrap (v + 1) = v + 1).
      { unfold uint_wrap. apply Z.mod_small. lia. }
      rewrite Hwrap. split; [by rewrite length_insert|]. split; [|split].
      + intros k Hk. destruct (decide (k = Z.to_nat len)) as [->|Hne].
        * exists (v + 1). split; [apply list_lookup_insert_eq; lia|lia].
        * rewrite list_lookup_insert_ne by lia. apply Hcells, Hk.
      + intros k c Hc Hnz. destruct (decide (k = Z.to_nat len)) as [->|Hne].
        * exists d. split; [exact Hd|]. rewrite Hconv. f_equal. lia.
        * rewrite list_lookup_insert_ne in Hc by lia. by eapply Hcls.
      + split; [|done]. rewrite (hist_total_insert _ _ v) by exact Hv. lia. }
  intros f' w' (Hl & Hcells & Hcls & Htot & Hlog & HG').
  replace (0 + Z.of_nat (Z.to_nat num)) with num in Htot by lia.
  split; [done|]. split; [|done].
  intros k Hk. destruct (Hcells k Hk) as (v & Hv & Hv0). exists v.
  split; [done|]. split; [done|]. rewrite <- Htot.
  eapply hist_total_bound; [|exact Hv]. intros k' c Hk'.
  destruct (decide (Z.of_nat k' < NUM_LEN)) as [Hlt|Hge].
  - destruct (Hcells k' Hlt) as (c' & Hc' & ?). congruence.
  - apply lookup_lt_Some in Hk'. lia.
Qed.

(** *** The scan for a non-zero bucket *)

(** With a non-zero bucket at or below the cursor, the scan walks down
    to the first one and changes nothing else. *)
Lemma find_length_scan samples fuel st w :
  scan_inv st -> initialised (buffer st) ->
  (exists (k : nat) (v : Z), Z.of_nat k <= cur_len st /\
      len_freq st !! k = Some (Some v) /\ v <> 0) ->
  cur_len st <= Z.of_nat fuel ->
  wp E (find_length pcg32_random powf fuel len_exp lit_exp samples st)
     (fun st1 w1 => scanned (sampled_class powf D len_exp) st w st1 w1 /\ w1 = w /\
                    len_freq st1 = len_freq st /\ buffer st1 = buffer st) w.
Proof.
  revert st. induction fuel as [|fuel IH]; intros st Hinv Hbuf Hnz Hfuel.
  - destruct Hinv as [Hfl Hbl Hcur Hlow Hhigh Hph].
    assert (Hc0 : cur_len st = 0) by lia.
    destruct Hnz as (k & v & Hk & Hv & Hv0).
    assert (k = 0%nat) as -> by lia.
    destruct (Hlow 0%nat ltac:(lia)) as (v' & Hv' & Hr).
    assert (v' = v) as -> by congruence.
    simpl. apply wp_bind. eapply wp_load; [lia| rewrite Hc0; exact Hv|].
    destruct (Z.eqb_spec v 0) as [|_]; [done|]. apply wp_ret.
    split; [|done]. split; try done.
    + exists v. rewrite Hc0. split; [exact Hv|lia].
    + left. done.
  - pose proof Hinv as [Hfl Hbl Hcur Hlow Hhigh Hph].
    destruct (Hlow (Z.to_nat (cur_len st)) ltac:(lia)) as (f & Hf & Hfr).
    simpl. apply wp_bind. eapply wp_load; [lia|exact Hf|].
    destruct (Z.eqb_spec f 0) as [->|Hf0].
    + destruct (Z.eqb_spec (cur_len st) 0) as [Hc0|Hc0].
      { destruct Hnz as (k & v & Hk & Hv & Hv0).
        assert (k = Z.to_nat (cur_len st)) as -> by lia. congruence. }
      apply wp_bind, wp_ret.
      assert (Hdec : size_wrap (cur_len st - 1) = cur_len st - 1).
      { unfold size_wrap. apply Z.mod_small. unfold NUM_LEN, MAX_LEN, MIN_LEN in Hcur. lia. }
      rewrite Hdec.
      set (st' := Locals (len_freq st) (buffer st) (mem st) (p st)
                         (cur_len st - 1) (i st) (last_was_match st)).
      assert (Hinv' : scan_inv st').
      { split; simpl; try done.
        - lia.
        - intros k Hk. apply Hlow. lia.
        - intros k v Hk Hv.
          destruct (decide (Z.of_nat k = cur_len st)) as [Heq|Hne].
          + replace k with (Z.to_nat (cur_len st)) in Hv by lia. congruence.
          + eapply Hhigh; [|exact Hv]. lia.
        - by left. }
      eapply wp_mono.
      * apply (IH st' Hinv' Hbuf); [|simpl; lia].
        destruct Hnz as (k & v & Hk & Hv & Hv0). exists k, v. simpl.
        split; [|done].
        destruct (decide (Z.of_nat k = cur_len st)) as [Heq|Hne]; [|lia].
        replace k with (Z.to_nat (cur_len st)) in Hv by lia. congruence.
      * intros st1 w1 ([Hi1 Hb1 Hfd Hm Hp Hi Hl Hcase] & -> & Hlf & Hbf).
        split; [|done]. split; try done.
        left. simpl in *. repeat split; try done.
        destruct Hcase as [(_ & _ & _ & Hle)|(Hlog & _)]; [lia|].
        exfalso. apply (f_equal length) in Hlog. simpl in Hlog. lia.
    + apply wp_ret. split; [|done]. split; try done.
      * exists f. split; [exact Hf|lia].
      * left. done.
Qed.

(** In general the scan may first run down to bucket 0, refill there, and
    then walk down the new histogram; [scan_fuel] steps cover both. *)
Lemma find_length_spec samples fuel st w :
  scan_inv st -> samples_ok samples -> G (gen w) ->
  cur_len st + NUM_LEN <= Z.of_nat fuel ->
  wp E (find_length pcg32_random powf fuel len_exp lit_exp samples st)
     (fun st1 w1 => scanned (sampled_class powf D len_exp) st w st1 w1 /\ G (gen w1)) w.
Proof.
  revert st. induction fuel as [|fuel IH]; intros st Hinv Hs HG Hfuel.
  { destruct Hinv. unfold NUM_LEN, MAX_LEN, MIN_LEN in *. lia. }
  pose proof Hinv as [Hfl Hbl Hcur Hlow Hhigh Hph].
  destruct (Hlow (Z.to_nat (cur_len st)) ltac:(lia)) as (f & Hf & Hfr).
  simpl. apply wp_bind. eapply wp_load; [lia|exact Hf|].
  destruct (Z.eqb_spec f 0) as [->|Hf0].
  - destruct (Z.eqb_spec (cur_len st) 0) as [Hc0|Hc0].
    + (* bucket 0 is empty: refill *)
      apply wp_bind, wp_bind.
      eapply wp_mono; [apply generate_literals_spec; try done; lia|].
      intros b w1 (Hb & Hlog1 & HG1). simpl.
      apply wp_bind.
      eapply wp_mono;
        [apply generate_lengths_spec; [done|unfold LEN_PER_CHUNK; lia|done]|].
      intros lf w2 (Hll & Hcells & Hcls & Htot & Hlog2 & HG2). simpl.
      apply wp_bind, wp_emit, wp_ret. simpl.
      assert (Hdec : size_wrap (NUM_LEN - 1) = NUM_LEN - 1) by reflexivity.
      rewrite Hdec.
      set (st' := Locals lf b (mem st) (p st) (NUM_LEN - 1) (i st) (last_was_match st)).
      assert (Hbinit : initialised b).
      { intros k Hk. destruct (wr_cells _ _ _ _ _ Hb k) as (v & Hv & _); [|by exists v].
        rewrite (wr_length _ _ _ _ _ Hb) in Hk. lia. }
      assert (Hinv' : scan_inv st').
      { split; simpl; try done.
        - rewrite (wr_length _ _ _ _ _ Hb). done.
        - intros k Hk. destruct (Hcells k ltac:(lia)) as (v & Hv & Hr).
          exists v. split; [done|]. unfold LEN_PER_CHUNK in Hr. lia.
        - intros k v Hk Hv. apply lookup_lt_Some in Hv. lia.
        - by left. }
      eapply wp_mono.
      * apply (find_length_scan samples fuel st' _ Hinv' Hbinit).
        -- destruct (hist_total_nonzero lf) as (k & v & Hk & Hv).
           { rewrite Htot. done. }
           exists k, v. split; [|done]. simpl. apply lookup_lt_Some in Hk. lia.
        -- simpl. lia.
      * intros st1 w3 ([Hi1 Hb1 Hfd Hm Hp Hi Hl Hcase] & -> & Hlf & Hbf).
        simpl in *. split; [|exact HG2]. split; try done.
        right. simpl. rewrite Hlf, Hbf, Hlog2, Hlog1. split; [done|].
        split; [done|]. split; [|split].
        -- intros k Hk. destruct (Hcells k ltac:(lia)) as (v & Hv & _). by exists v.
        -- intros k v Hv. destruct (decide (k = 0%nat)) as [->|Hk].
           ++ rewrite Hc0 in Hf. change (Z.to_nat 0) with 0%nat in Hf. congruence.
           ++ eapply Hhigh; [|exact Hv]. lia.
        -- exact Hcls.
    + (* step down *)
      apply wp_bind, wp_ret.
      assert (Hdec : size_wrap (cur_len st - 1) = cur_len st - 1).
      { unfold size_wrap. apply Z.mod_small.
        unfold NUM_LEN, MAX_LEN, MIN_LEN in Hcur. lia. }
      rewrite Hdec.
      set (st' := Locals (len_freq st) (buffer st) (mem st) (p st)
                         (cur_len st - 1) (i st) (last_was_match st)).
      assert (Hinv' : scan_inv st').
      { split; simpl; try done.
        - lia.
        - intros k Hk. apply Hlow. lia.
        - intros k v Hk Hv.
          destruct (decide (Z.of_nat k = cur_len st)) as [Heq|Hne].
          + replace k with (Z.to_nat (cur_len st)) in Hv by lia. congruence.
          + eapply Hhigh; [|exact Hv]. lia.
        - destruct Hph as [?|[? _]]; [by left|lia]. }
      eapply wp_mono; [apply (IH st' Hinv' Hs HG); simpl; lia|].
      intros st1 w1 ([Hi1 Hb1 Hfd Hm Hp Hi Hl Hcase] & HG1).
      split; [|done]. split; try done. simpl in *.
      destruct Hcase as [(? & ? & ? & ?)|?]; [left|by right].
      repeat split; try done. lia.
  - apply wp_ret. split; [|done]. split; try done.
    + destruct Hph as [?|[_ H0]]; [done|].
      destruct (Z.eqb_spec (cur_len st) 0) as [Hc0|Hc0].
      * rewrite Hc0 in Hf. change (Z.to_nat 0) with 0%nat in Hf. congruence.
      * destruct Hinv as [_ _ _ _ _ [?|[? _]]]; [done|lia].
    + exists f. split; [exact Hf|lia].
    + left. done.
Qed.

(** *** One pass through the loop body *)

Lemma iteration_spec m0 ptr size ratio samples st w :
  scan_inv st -> mem_inv m0 ptr size st ->
  i st < size -> size <= SIZE_MAX ->
  0 <= ptr -> ptr + size <= Z.of_nat (length m0) ->
  samples_ok samples -> G (gen w) ->
  wp E (iteration pcg32_random powf size ratio len_exp lit_exp samples st)
     (fun st' w' =>
        iterated D (sampled_class powf D len_exp)
                 (literal_value powf D lit_exp samples) size ratio st w st' w' /\
        G (gen w')) w.
Proof.
  intros Hinv [Hi0 Hp0 Hw0] Hi Hsize Hptr Hlen Hs HG. unfold iteration.
  apply wp_bind. eapply wp_mono.
  { apply find_length_spec; try done.
    destruct Hinv. unfold scan_fuel, NUM_LEN, MAX_LEN, MIN_LEN in *. lia. }
  intros st1 w1 (Hsc & HG1).
  pose proof Hsc as [Hi1 Hb1 (f & Hf & Hfr) Hm Hp Hii Hl Hcase].
  pose proof Hi1 as [Hfl Hbl Hcur _ _ _].
  assert (Hcur' : 0 <= cur_len st1 < 256) by exact Hcur.
  assert (Hlen0 : size_wrap (MIN_LEN + cur_len st1) = MIN_LEN + cur_len st1).
  { apply size_wrap_small. unfold MIN_LEN, SIZE_MAX. lia. }
  rewrite Hlen0.
  apply wp_bind, wp_emit. apply wp_bind. eapply wp_load; [lia|exact Hf|].
  apply wp_bind. apply wp_store; [lia|].
  rewrite (uint_wrap_small (f - 1)) by lia.
  rewrite clamp_min by lia.
  apply wp_bind. unfold rand_double. apply wp_bind.
  apply wp_pcg32; [exact HG1|]. intros k g Hk Hg. apply wp_ret. simpl.
  assert (Hml : length (mem st1) = length m0).
  { rewrite Hm. apply (wr_length _ _ _ _ _ Hw0). }
  assert (Hp1 : p st1 = ptr + i st1) by lia.
  set (len := Z.min (MIN_LEN + cur_len st1) (size - i st1)).
  assert (Hlenr : 1 <= len <= size - i st1).
  { unfold len, MIN_LEN. lia. }
  destruct (d_ltb (uniform k) (d_div d_one ratio)) eqn:Hber.
  - (* literal run *)
    apply wp_bind. eapply wp_mono.
    { apply generate_literals_spec; try done; lia. }
    intros m w2 (Hw & Hlog & HG2). simpl in Hlog.
    apply wp_bind, wp_emit, wp_ret. simpl. split; [|exact HG2].
    exists st1, w1. split; [exact Hsc|].
    apply step_literal with (f := f) (k := k); simpl; try done.
    + rewrite Hlog. done.
    + apply size_wrap_small. lia.
  - destruct (last_was_match st1) eqn:Hlast.
    + (* break literal, then repeat run *)
      apply wp_bind, wp_bind. eapply wp_mono.
      { apply generate_literals_spec; try done; lia. }
      intros m1 w2 (Hw & Hlog & HG2). simpl in Hlog.
      apply wp_bind, wp_emit, wp_ret. simpl.
      rewrite (size_wrap_small (i st1 + 1)) by lia.
      rewrite clamp_min by lia.
      replace (Z.min len (size - (i st1 + 1)))
        with (Z.min (MIN_LEN + cur_len st1) (size - (i st1 + 1))) by (unfold len; lia).
      set (len2 := Z.min (MIN_LEN + cur_len st1) (size - (i st1 + 1))).
      pose proof (wr_length _ _ _ _ _ Hw) as Hml1.
      apply wp_bind.
      apply memcpy_spec; try done; try (unfold MAX_LEN, MIN_LEN in *; lia).
      intros m2 Hcp. apply wp_bind, wp_emit, wp_ret. simpl.
      split; [|exact HG2].
      exists st1, w1. split; [exact Hsc|].
      apply step_break_repeat with (f := f) (k := k) (m1 := m1); simpl; try done.
      * rewrite Hlog. done.
      * apply size_wrap_small. unfold len2, MIN_LEN. lia.
    + (* repeat run *)
      apply wp_bind, wp_ret. simpl.
      apply wp_bind.
      apply memcpy_spec; try done; try (unfold MAX_LEN, MIN_LEN in *; lia).
      intros m2 Hcp. apply wp_bind, wp_emit, wp_ret. simpl.
      split; [|exact Hg].
      exists st1, w1. split; [exact Hsc|].
      apply step_repeat with (f := f) (k := k); simpl; try done.
      apply size_wrap_small. lia.
Qed.

(** *** The invariants across one pass *)

Lemma iterated_scan_inv {C} L size ratio st w st' w' :
  iterated D C L size ratio st w st' w' -> scan_inv st'.
Proof.
  intros (st1 & w1 & Hsc & Hrun).
  destruct Hsc as [[Hfl Hbl Hcur Hlow Hhigh Hph] Hb1 (f0 & Hf0 & Hfr) _ _ _ _ _].
  assert (Hgoal : forall f, len_freq st1 !! Z.to_nat (cur_len st1) = Some (Some f) ->
            len_freq st' = <[Z.to_nat (cur_len st1) := Some (f - 1)]> (len_freq st1) ->
            buffer st' = buffer st1 -> cur_len st' = cur_len st1 -> scan_inv st').
  { intros f Hf Hlf Hbuf Hc. assert (f = f0) as -> by congruence.
    split; rewrite ?Hlf, ?Hbuf, ?Hc; try done.
    - rewrite length_insert. done.
    - intros k Hk. destruct (decide (k = Z.to_nat (cur_len st1))) as [->|Hne].
      + exists (f0 - 1). split; [apply list_lookup_insert_eq; lia|lia].
      + rewrite list_lookup_insert_ne by lia. apply Hlow, Hk.
    - intros k v Hk Hv. rewrite list_lookup_insert_ne in Hv by lia.
      eapply Hhigh; [exact Hk|exact Hv].
    - by left. }
  destruct Hrun; eauto.
Qed.

Lemma iterated_mem_inv {C} L m0 ptr size ratio st w st' w' :
  mem_inv m0 ptr size st -> i st < size ->
  iterated D C L size ratio st w st' w' ->
  mem_inv m0 ptr size st' /\ i st < i st'.
Proof.
  intros [Hi Hp Hw] Hlt (st1 & w1 & Hsc & Hrun).
  destruct Hsc as [[_ _ Hcur _ _ _] _ _ Hm1 Hp1 Hi1 _ _].
  assert (Hcur' : 0 <= cur_len st1 < 256) by exact Hcur.
  rewrite <- Hm1, <- Hi1 in Hw. rewrite <- Hi1 in Hi, Hlt |- *.
  rewrite <- Hp1, <- Hi1 in Hp. clear Hm1 Hp1 Hi1.
  destruct Hrun as [f k len0 len Hf Hlf Hb Hc Hk Hber Hwr Hlog Hp' Hi' Hl'
                   |f k len0 len Hf Hlf Hb Hc Hk Hber Hl [Hwr _] Hlog Hp' Hi' Hl'
                   |f k m1 len0 len Hf Hlf Hb Hc Hk Hber Hl Hw1 [Hwr _] Hlog Hp' Hi' Hl'].
  - assert (1 <= len <= size - i st1) by (unfold len, len0, MIN_LEN; lia).
    split; [|lia]. split; [lia|lia|]. rewrite Hi'.
    eapply written_app; [lia|lia|exact Hw|]. rewrite <- Hp.
    eapply written_weaken; [exact Hwr|done].
  - assert (1 <= len <= size - i st1) by (unfold len, len0, MIN_LEN; lia).
    split; [|lia]. split; [lia|lia|]. rewrite Hi'.
    eapply written_app; [lia|lia|exact Hw|]. rewrite <- Hp. exact Hwr.
  - assert (0 <= len <= size - (i st1 + 1)) by (unfold len, len0, MIN_LEN; lia).
    split; [|lia]. split; [lia|lia|]. rewrite Hi'.
    replace (i st1 + 1 + len) with (i st1 + (1 + len)) by lia.
    eapply written_app; [lia|lia|exact Hw|]. rewrite <- Hp.
    eapply written_app; [lia|lia| |exact Hwr].
    eapply written_weaken; [exact Hw1|done].
Qed.

(** *** The outer loop *)

(** Any property [I] of the locals and the world that every pass keeps
    holds when the loop is left, and the loop is left with [i = size]. *)
Lemma main_loop_spec (I : locals -> world rng -> Prop)
    m0 ptr size ratio samples fuel st w :
  (forall st w st' w',
      I st w -> scan_inv st -> mem_inv m0 ptr size st -> i st < size ->
      iterated D (sampled_class powf D len_exp)
               (literal_value powf D lit_exp samples) size ratio st w st' w' ->
      I st' w') ->
  I st w -> scan_inv st -> mem_inv m0 ptr size st ->
  size <= SIZE_MAX -> 0 <= ptr -> ptr + size <= Z.of_nat (length m0) ->
  samples_ok samples -> G (gen w) ->
  size - i st <= Z.of_nat fuel ->
  wp E (main_loop pcg32_random powf fuel size ratio len_exp lit_exp samples st)
     (fun st' w' => I st' w' /\ scan_inv st' /\ mem_inv m0 ptr size st' /\
                    i st' = size /\ G (gen w')) w.
Proof.
  intros Hstep. revert st w.
  induction fuel as [|fuel IH]; intros st w HI Hinv Hmem Hsize Hptr Hlen Hs HG Hfuel.
  - simpl. pose proof (mi_i _ _ _ _ Hmem).
    destruct (Z.ltb_spec (i st) size); [lia|]. apply wp_ret.
    split; [done|]. split; [done|]. split; [done|]. split; [lia|done].
  - simpl. pose proof (mi_i _ _ _ _ Hmem).
    destruct (Z.ltb_spec (i st) size) as [Hlt|Hge].
    + apply wp_bind. eapply wp_mono; [by eapply iteration_spec|].
      intros st' w' (Hit & HG').
      destruct (iterated_mem_inv _ _ _ _ _ _ _ _ _ Hmem Hlt Hit) as [Hmem' Hprog].
      apply IH; try done.
      * eapply Hstep; eauto.
      * eapply iterated_scan_inv; eauto.
      * lia.
    + apply wp_ret.
      split; [done|]. split; [done|]. split; [done|]. split; [lia|done].
Qed.

(** *** A whole call of [generate_data_internal] *)

Lemma initial_locals_eq m ptr : initial_locals m ptr = Ok (entry_locals m ptr).
Proof. reflexivity. Qed.

Lemma entry_scan_inv m ptr : scan_inv (entry_locals m ptr).
Proof.
  split; unfold entry_locals; cbn [len_freq buffer cur_len].
  - rewrite length_insert. unfold fresh_array. rewrite length_replicate. done.
  - unfold fresh_array. rewrite length_replicate. done.
  - done.
  - intros k Hk. assert (k = 0%nat) as -> by lia. exists 0. done.
  - intros k v Hk Hv. rewrite list_lookup_insert_ne in Hv by lia.
    unfold fresh_array in Hv. apply lookup_replicate in Hv as [? _]. done.
  - right. done.
Qed.

Lemma entry_mem_inv m ptr size : 0 <= size -> mem_inv m ptr size (entry_locals m ptr).
Proof.
  intros Hs. split; simpl; [lia|lia|]. apply written_refl.
Qed.

Lemma generate_data_run_spec (I : locals -> world rng -> Prop)
    m ptr size ratio samples w :
  (forall st w st' w',
      I st w -> scan_inv st -> mem_inv m ptr size st -> i st < size ->
      iterated D (sampled_class powf D len_exp)
               (literal_value powf D lit_exp samples) size ratio st w st' w' ->
      I st' w') ->
  I (entry_locals m ptr) w ->
  0 <= size <= SIZE_MAX -> 0 <= ptr -> ptr + size <= Z.of_nat (length m) ->
  samples_ok samples -> G (gen w) ->
  wp E (generate_data_run pcg32_random powf m ptr size ratio len_exp lit_exp samples)
     (fun st' w' => I st' w' /\ scan_inv st' /\ mem_inv m ptr size st' /\
                    i st' = size /\ G (gen w')) w.
Proof.
  intros Hstep HI Hsize Hptr Hlen Hs HG. unfold generate_data_run.
  apply wp_bind, wp_lift. rewrite initial_locals_eq.
  eapply main_loop_spec; try done.
  - apply entry_scan_inv.
  - apply entry_mem_inv. lia.
  - lia.
  - simpl. lia.
Qed.

(** *** The block loop of [lzdg_generate_data_bulk]

    [J] is kept from block to block, [I] within a block. *)
Lemma bulk_loop_spec
    (J : array byte -> Z -> world rng -> Prop)
    (I : array byte -> Z -> array byte -> locals -> world rng -> Prop)
    (m0 : array byte) size ratio fuel (m samples : array byte) offs w :
  (forall m offs w smp w1,
      J m offs w -> 0 <= offs < size -> corpus_ok powf D lit_exp smp ->
      log w1 = EvBlock offs (block_size size offs) smp :: log w ->
      I m offs smp (entry_locals m offs) w1) ->
  (forall m offs smp st w st' w',
      I m offs smp st w -> scan_inv st ->
      mem_inv m offs (block_size size offs) st -> i st < block_size size offs ->
      iterated D (sampled_class powf D len_exp)
               (literal_value powf D lit_exp (Some smp)) (block_size size offs) ratio
              st w st' w' ->
      I m offs smp st' w') ->
  (forall m offs w smp st' w',
      J m offs w -> 0 <= offs < size -> I m offs smp st' w' ->
      mem_inv m offs (block_size size offs) st' ->
      i st' = block_size size offs ->
      J (mem st') (offs + block_size size offs) w') ->
  J m offs w ->
  0 <= offs <= size -> size <= SIZE_MAX ->
  length m = length m0 -> size <= Z.of_nat (length m0) ->
  Z.of_nat (length samples) = SAMPLE_SIZE -> G (gen w) ->
  size - offs <= Z.of_nat fuel ->
  wp E (bulk_loop pcg32_random powf fuel m size ratio len_exp lit_exp samples offs)
     (fun m' w' => J m' size w' /\ length m' = length m0 /\ G (gen w')) w.
Proof.
  intros Hinit Hstep Hfin. revert m samples offs w.
  induction fuel as [|fuel IH];
    intros m samples offs w HJ Hoffs Hsize Hml Hm0 Hsl HG Hfuel.
  - cbn [bulk_loop]. destruct (Z.ltb_spec offs size); [lia|]. apply wp_ret.
    assert (offs = size) as -> by lia. done.
  - cbn [bulk_loop]. destruct (Z.ltb_spec offs size) as [Hlt|Hge].
    + rewrite (size_wrap_small (size - offs)) by lia.
      assert (Hnum : (if BLOCK_SIZE <? size - offs then BLOCK_SIZE else size - offs)
                     = block_size size offs).
      { unfold block_size. destruct (Z.ltb_spec BLOCK_SIZE (size - offs)); lia. }
      rewrite Hnum.
      assert (Hnr : 1 <= block_size size offs <= size - offs).
      { unfold block_size, BLOCK_SIZE. lia. }
      apply wp_bind. eapply wp_mono.
      { apply (generate_literals_spec samples 0 SAMPLE_SIZE None);
          [lia|unfold SAMPLE_SIZE; lia|lia|exact Logic.I|exact HG]. }
      intros smp w1 (Hsmp & Hlog1 & HG1).
      assert (Hcorp : corpus_ok powf D lit_exp smp).
      { split; [rewrite (wr_length _ _ _ _ _ Hsmp); done|].
        intros k Hk. apply (wr_cells _ _ _ _ _ Hsmp k). lia. }
      assert (Hsok : samples_ok (Some smp)).
      { destruct Hcorp as [Hcl Hcc]. split; [done|].
        intros k Hk. destruct (Hcc k) as (v & Hv & _); [lia|by exists v]. }
      apply wp_bind, wp_emit. apply wp_bind.
      unfold generate_data_internal. apply wp_bind.
      eapply wp_mono.
      { apply (generate_data_run_spec (I m offs smp) m offs (block_size size offs));
          try done; try lia.
        - intros st0 w0 st' w'. apply Hstep.
        - apply (Hinit m offs w smp); try done; [lia|]. simpl. by rewrite Hlog1. }
      intros st' w' (HI' & _ & Hmem' & Hi' & HG').
      apply wp_ret.
      rewrite (size_wrap_small (offs + block_size size offs)) by lia.
      apply IH; try done; try lia.
      * eapply (Hfin m offs w smp); try done. lia.
      * rewrite (wr_length _ _ _ _ _ (mi_written _ _ _ _ Hmem')). done.
      * rewrite (wr_length _ _ _ _ _ Hsmp). done.
    + apply wp_ret. assert (offs = size) as -> by lia. done.
Qed.
End Specs.

(** * The properties of the generator *)

(** ** Exactly [size] bytes are written *)

Section Fill.
Context {rng : Type}.
Variable pcg32_random : rng -> Z * rng.
Variable powf : float -> float -> float.
Variables ratio len_exp lit_exp : double.

Let source := safe_source_any pcg32_random powf len_exp lit_exp.

Lemma generate_data_internal_fills (m : array byte) ptr size samples w :
  0 <= size <= SIZE_MAX -> 0 <= ptr -> ptr + size <= Z.of_nat (length m) ->
  samples_ok samples ->
  wp sampling_fault
     (generate_data_internal pcg32_random powf m ptr size ratio len_exp lit_exp samples)
     (fun m' _ => written (fun _ => True) m m' ptr size) w.
Proof.
  intros Hsize Hptr Hlen Hs. unfold generate_data_internal. apply wp_bind.
  eapply wp_mono.
  { apply (generate_data_run_spec _ _ _ _ _ _ _ source (fun _ _ => True));
      done. }
  intros st' w' (_ & _ & [_ _ Hw] & Hi & _). apply wp_ret.
  rewrite Hi in Hw. exact Hw.
Qed.

Lemma lzdg_generate_data_fills (m : array byte) size w :
  0 <= size <= SIZE_MAX -> size <= Z.of_nat (length m) ->
  wp sampling_fault
     (lzdg_generate_data pcg32_random powf m size ratio len_exp lit_exp)
     (fun m' _ => written (fun _ => True) m m' 0 size) w.
Proof.
  intros Hsize Hlen. apply generate_data_internal_fills; done.
Qed.

Lemma lzdg_generate_data_bulk_fills (m : array byte) size w :
  0 <= size <= SIZE_MAX -> size <= Z.of_nat (length m) ->
  wp sampling_fault
     (lzdg_generate_data_bulk pcg32_random powf m size ratio len_exp lit_exp)
     (fun m' _ => written (fun _ => True) m m' 0 size) w.
Proof.
  intros Hsize Hlen. unfold lzdg_generate_data_bulk.
  eapply wp_mono.
  { apply (bulk_loop_spec _ _ _ _ _ _ _ source
             (fun m' offs _ => written (fun _ => True) m m' 0 offs)
             (fun _ _ _ _ _ => True) m); try done; try lia.
    - intros m1 offs w1 smp st' w' HJ Hoffs _ [_ _ Hw] Hi.
      rewrite Hi in Hw. eapply written_app; [lia| |exact HJ|exact Hw].
      unfold block_size, BLOCK_SIZE. lia.
    - apply written_refl. }
  intros m' w' (HJ & _ & _). exact HJ.
Qed.

(** The cursor after a pass through the loop body. *)
Lemma iteration_cursor (m : array byte) ptr size samples st w :
  0 <= size <= SIZE_MAX -> 0 <= ptr -> ptr + size <= Z.of_nat (length m) ->
  samples_ok samples -> loop_inv m ptr size st -> i st < size ->
  wp sampling_fault
     (iteration pcg32_random powf size ratio len_exp lit_exp samples st)
     (fun st' _ => i st < i st' <= size /\ loop_inv m ptr size st') w.
Proof.
  intros Hsize Hptr Hlen Hs [Hsi Hmi] Hi.
  eapply wp_mono.
  { eapply (iteration_spec _ _ _ _ _ _ _ source); try done. lia. }
  intros st' w' (Hit & _).
  destruct (iterated_mem_inv _ _ _ _ _ _ _ _ _ _ Hmi Hi Hit) as [Hmi' Hprog].
  pose proof (mi_i _ _ _ _ Hmi').
  split; [lia|]. split; [|exact Hmi'].
  eapply iterated_scan_inv. exact Hit.
Qed.

Lemma generate_data_run_cursor (m : array byte) ptr size samples w :
  0 <= size <= SIZE_MAX -> 0 <= ptr -> ptr + size <= Z.of_nat (length m) ->
  samples_ok samples ->
  wp sampling_fault
     (generate_data_run pcg32_random powf m ptr size ratio len_exp lit_exp samples)
     (fun st' _ => i st' = size /\ p st' = ptr + size) w.
Proof.
  intros Hsize Hptr Hlen Hs. eapply wp_mono.
  { apply (generate_data_run_spec _ _ _ _ _ _ _ source (fun _ _ => True));
      done. }
  intros st' w' (_ & _ & [_ Hp _] & Hi & _). split; [done|]. lia.
Qed.
End Fill.

(** For every [size] and every ratio and exponents, a run of either entry
    point that returns has written exactly [size] bytes into the caller's
    buffer and none at an offset at or beyond [size]: the buffer returned differs from the one
    passed in exactly on the cells [0, size), each of which has been
    assigned.  The locals on entry satisfy the loop invariant; the cursor
    [i] grows in every pass through the loop body, stays at most [size]
    (also on the path of the break literal), and is [size] when the loop
    is left.  A run can stop short of this only in the power-law sampling
    (the assertion of [generate_lengths] or a cast), never at an access
    outside the buffer. *)
Theorem generate_writes_exactly_size {rng} (pcg32_random : rng -> Z * rng)
    (powf : float -> float -> float) (m : array byte) (size : Z)
    (ratio len_exp lit_exp : double) (w : world rng) :
  0 <= size <= SIZE_MAX -> size <= Z.of_nat (length m) ->
  wp sampling_fault
     (lzdg_generate_data pcg32_random powf m size ratio len_exp lit_exp)
     (fun m' _ => written (fun _ => True) m m' 0 size) w /\
  wp sampling_fault
     (lzdg_generate_data_bulk pcg32_random powf m size ratio len_exp lit_exp)
     (fun m' _ => written (fun _ => True) m m' 0 size) w /\
  (forall ptr samples, 0 <= ptr -> ptr + size <= Z.of_nat (length m) ->
     samples_ok samples ->
     loop_inv m ptr size (entry_locals m ptr) /\
     (forall st w1, loop_inv m ptr size st -> i st < size ->
        wp sampling_fault
           (iteration pcg32_random powf size ratio len_exp lit_exp samples st)
           (fun st' _ => i st < i st' <= size /\ loop_inv m ptr size st') w1) /\
     wp sampling_fault
        (generate_data_run pcg32_random powf m ptr size ratio len_exp lit_exp samples)
        (fun st' _ => i st' = size /\ p st' = ptr + size) w).
Proof.
  intros Hsize Hlen. split; [|split].
  - by apply lzdg_generate_data_fills.
  - by apply lzdg_generate_data_bulk_fills.
  - intros ptr samples Hptr Hplen Hs. split; [|split].
    + split; [apply entry_scan_inv|apply entry_mem_inv; lia].
    + intros st w1 Hinv Hi. by apply iteration_cursor.
    + by apply generate_data_run_cursor.
Qed.

(** The log after one pass, by cases on the scan and on the run. *)
Ltac iterated_cases H :=
  let st1 := fresh "st1" in
  let w1 := fresh "w1" in
  let Hsc := fresh "Hsc" in
  let Hrun := fresh "Hrun" in
  let Hscan := fresh "Hscan" in
  destruct H as (st1 & w1 & Hsc & Hrun);
  pose proof (sc_case _ _ _ _ _ Hsc) as Hscan;
  destruct Hscan as [(?Hlog1 & ?Hfreq1 & ?Hbuf1 & ?Hcur1)
                    |(?Hlog1 & ?Htot1 & ?Hinit1 & ?Hzero1 & ?Hclass1)];
  destruct Hrun as [?f ?k ?len0 ?len ?Hf ?Hlf ?Hb ?Hc ?Hk ?Hber ?Hwr ?Hlog ?Hp' ?Hi' ?Hl'
                   |?f ?k ?len0 ?len ?Hf ?Hlf ?Hb ?Hc ?Hk ?Hber ?Hl ?Hwr ?Hlog ?Hp' ?Hi' ?Hl'
                   |?f ?k ?m1 ?len0 ?len ?Hf ?Hlf ?Hb ?Hc ?Hk ?Hber ?Hl ?Hw1 ?Hwr ?Hlog
                      ?Hp' ?Hi' ?Hl'].

(** ** Termination *)

Section Termination.
Context {rng : Type}.
Variable pcg32_random : rng -> Z * rng.
Variable powf : float -> float -> float.
Variables ratio len_exp lit_exp : double.

Let source := safe_source_any pcg32_random powf len_exp lit_exp.

Lemma wp_not_out_of_fuel {A} (c : M rng A) Q w :
  wp sampling_fault c Q w -> c w <> Fault OutOfFuel.
Proof.
  unfold wp. destruct (c w) as [[a w']|f]; [done|].
  intros [->| ->]; done.
Qed.

Lemma iterated_refill_full D {C} L size st (w : world rng) st' w' :
  Forall refill_full (log w) ->
  iterated D C L size ratio st w st' w' ->
  Forall refill_full (log w').
Proof.
  intros Hall Hit. iterated_cases Hit; rewrite Hlog, Hlog1;
    repeat (apply Forall_cons; split; [done|]); exact Hall.
Qed.

Lemma generate_data_internal_refills (m : array byte) ptr size samples w :
  0 <= size <= SIZE_MAX -> 0 <= ptr -> ptr + size <= Z.of_nat (length m) ->
  samples_ok samples -> Forall refill_full (log w) ->
  wp sampling_fault
     (generate_data_internal pcg32_random powf m ptr size ratio len_exp lit_exp samples)
     (fun _ w' => Forall refill_full (log w')) w.
Proof.
  intros Hsize Hptr Hlen Hs Hall. unfold generate_data_internal. apply wp_bind.
  eapply wp_mono.
  { apply (generate_data_run_spec _ _ _ _ _ _ _ source
             (fun _ w' => Forall refill_full (log w'))); try done.
    intros st0 w0 st' w' HI _ _ _ Hit. eapply iterated_refill_full; eauto. }
  intros st' w' (HI & _). apply wp_ret. exact HI.
Qed.

Lemma lzdg_generate_data_bulk_refills (m : array byte) size w :
  0 <= size <= SIZE_MAX -> size <= Z.of_nat (length m) ->
  Forall refill_full (log w) ->
  wp sampling_fault
     (lzdg_generate_data_bulk pcg32_random powf m size ratio len_exp lit_exp)
     (fun _ w' => Forall refill_full (log w')) w.
Proof.
  intros Hsize Hlen Hall. unfold lzdg_generate_data_bulk.
  eapply wp_mono.
  { apply (bulk_loop_spec _ _ _ _ _ _ _ source
             (fun _ _ w' => Forall refill_full (log w'))
             (fun _ _ _ _ w' => Forall refill_full (log w')) m);
      try done; try lia.
    - intros m1 offs w1 smp w2 HJ _ _ Hlog. rewrite Hlog.
      apply Forall_cons. done.
    - intros m1 offs smp st0 w0 st' w' HI _ _ _ Hit.
      eapply iterated_refill_full; eauto. }
  intros m' w' (HJ & _ & _). exact HJ.
Qed.
End Termination.

(** C4. A generation call always terminates.  With the steps the model
    grants its two [while] loops (512 for the scan, [size] for the outer
    loop) neither entry point ever runs out of them: the scan for a
    non-zero bucket ends on a bucket with a positive count, because every
    refill recorded in the log left the 256 buckets with a total of 512,
    and every pass through the body of the outer loop advances the cursor
    by at least one byte. *)
Theorem generation_terminates {rng} (pcg32_random : rng -> Z * rng)
    (powf : float -> float -> float) (m : array byte) (size : Z)
    (ratio len_exp lit_exp : double) (w : world rng) :
  0 <= size <= SIZE_MAX -> size <= Z.of_nat (length m) ->
  Forall refill_full (log w) ->
  lzdg_generate_data pcg32_random powf m size ratio len_exp lit_exp w
    <> Fault OutOfFuel /\
  lzdg_generate_data_bulk pcg32_random powf m size ratio len_exp lit_exp w
    <> Fault OutOfFuel /\
  wp sampling_fault
     (lzdg_generate_data pcg32_random powf m size ratio len_exp lit_exp)
     (fun _ w' => Forall refill_full (log w')) w /\
  wp sampling_fault
     (lzdg_generate_data_bulk pcg32_random powf m size ratio len_exp lit_exp)
     (fun _ w' => Forall refill_full (log w')) w /\
  (forall samples st w1, scan_inv st -> samples_ok samples ->
     wp sampling_fault
        (find_length pcg32_random powf scan_fuel len_exp lit_exp samples st)
        (fun st1 _ => exists f, len_freq st1 !! Z.to_nat (cur_len st1) = Some (Some f)
                                /\ 0 < f) w1) /\
  (forall ptr samples st w1,
     0 <= ptr -> ptr + size <= Z.of_nat (length m) -> samples_ok samples ->
     loop_inv m ptr size st -> i st < size ->
     wp sampling_fault
        (iteration pcg32_random powf size ratio len_exp lit_exp samples st)
        (fun st' _ => i st + 1 <= i st') w1).
Proof.
  intros Hsize Hlen Hall.
  assert (H1 : wp sampling_fault
     (lzdg_generate_data pcg32_random powf m size ratio len_exp lit_exp)
     (fun _ w' => Forall refill_full (log w')) w).
  { apply generate_data_internal_refills; done. }
  assert (H2 : wp sampling_fault
     (lzdg_generate_data_bulk pcg32_random powf m size ratio len_exp lit_exp)
     (fun _ w' => Forall refill_full (log w')) w).
  { apply lzdg_generate_data_bulk_refills; done. }
  split; [eapply wp_not_out_of_fuel; exact H1|].
  split; [eapply wp_not_out_of_fuel; exact H2|].
  split; [exact H1|]. split; [exact H2|]. split.
  - intros samples st w1 Hinv Hs. eapply wp_mono.
    { apply (find_length_spec _ _ _ _ _ _ _
               (safe_source_any pcg32_random powf len_exp lit_exp)); try done.
      destruct Hinv. unfold scan_fuel, NUM_LEN, MAX_LEN, MIN_LEN in *. lia. }
    intros st1 w' ([_ _ (f & Hf & Hfr) _ _ _ _ _] & _). exists f. split; [done|lia].
  - intros ptr samples st w1 Hptr Hplen Hs Hinv Hi. eapply wp_mono.
    { apply (iteration_cursor pcg32_random powf ratio len_exp lit_exp m ptr size);
        done. }
    intros st' w' [Hc _]. simpl in Hc. lia.
Qed.

(** ** The assertion of [generate_lengths] *)

Lemma wp_pcg32_next {rng} (pcg32_random : rng -> Z * rng) E
    (Q : Z -> world rng -> Prop) w :
  Q (uint_wrap (fst (pcg32_random (gen w))))
    (World (snd (pcg32_random (gen w))) (log w)) ->
  wp E (pcg32 pcg32_random) Q w.
Proof.
  unfold wp, pcg32. destruct (pcg32_random (gen w)) as [k g]. done.
Qed.

Lemma wp_fault_only {rng A} (f0 : fault) (c : M rng A) w :
  wp (fun f => f = f0) c (fun _ _ => False) w -> c w = Fault f0.
Proof.
  unfold wp. destruct (c w) as [[a w']|f]; [done|]. by intros ->.
Qed.

(** The length class of a draw that narrows to 1.0f. *)
Lemma length_class_of_one (powf : float -> float -> float) (len_exp : double) k :
  (forall y, powf f_one y = f_one) -> 2 ^ 32 - 128 <= k < 2 ^ 32 ->
  float_to_size_t (power_sample powf NUM_LEN (uniform k) len_exp) = Ok NUM_LEN.
Proof.
  intros Hpow Hk. unfold power_sample.
  rewrite (narrowing_rounds_up k Hk), Hpow. vm_compute. reflexivity.
Qed.

(** C5 (the code departs from it).  The claim is that the sampled length
    class stays below 256, so that [assert(len < NUM_LEN)] never fires.  In
    the code the uniform variate is narrowed to [float] before [powf]: a
    draw within 128 of [2^32] rounds up to 1.0f, [powf(1.0f, y)] is 1.0f
    for every [y] (C99 F.9.4.4), the class is [256 * 1.0f = 256] and the
    assertion fails on the first such draw that [generate_lengths] takes. *)
Theorem length_class_assertion_fires {rng} (pcg32_random : rng -> Z * rng)
    (powf : float -> float -> float) (freq : array Z) (num : Z)
    (len_exp : double) (w : world rng) :
  (forall y, powf f_one y = f_one) ->
  2 ^ 32 - 128 <= uint_wrap (fst (pcg32_random (gen w))) ->
  Z.of_nat (length freq) = NUM_LEN -> 0 < num ->
  float_to_size_t
    (power_sample powf NUM_LEN
       (uniform (uint_wrap (fst (pcg32_random (gen w))))) len_exp) = Ok NUM_LEN /\
  generate_lengths pcg32_random powf freq num len_exp w = Fault AssertionFailed.
Proof.
  intros Hpow Hk Hlen Hnum.
  pose proof (uint_wrap_range (fst (pcg32_random (gen w)))) as Hr.
  assert (Hclass := length_class_of_one powf len_exp _ Hpow (conj Hk (proj2 Hr))).
  split; [exact Hclass|].
  apply wp_fault_only. unfold generate_lengths. apply wp_bind.
  eapply wp_mono.
  { apply (wp_for_loop _ (fun j f' w' => length f' = length freq /\ w' = w)).
    - done.
    - intros j f' w' Hj (Hl & ->). apply wp_store; [lia|].
      split; [by rewrite length_insert|done]. }
  intros f0 w0 (Hl0 & ->).
  destruct (Z.to_nat num) as [|n] eqn:Hn; [lia|].
  cbn [for_loop]. apply wp_bind, wp_bind.
  unfold rand_double. apply wp_bind, wp_pcg32_next, wp_ret.
  apply wp_bind, wp_lift. rewrite Hclass.
  apply wp_bind, wp_assert. reflexivity.
Qed.

Lemma length_class_assertion_fires_witness :
  (forall y, powf_exp1 f_one y = f_one) /\
  2 ^ 32 - 128 <= uint_wrap (fst (lcg_random (gen (World 653637408 [])))) /\
  generate_lengths lcg_random powf_exp1 (fresh_array Z NUM_LEN) LEN_PER_CHUNK
                   d_three (World 653637408 []) = Fault AssertionFailed.
Proof.
  assert (H1 : forall y, powf_exp1 f_one y = f_one) by reflexivity.
  assert (H2 : 2 ^ 32 - 128 <= uint_wrap (fst (lcg_random (gen (World 653637408 [])))))
    by (vm_compute; discriminate).
  split; [exact H1|]. split; [exact H2|].
  apply (length_class_assertion_fires lcg_random powf_exp1 (fresh_array Z NUM_LEN)
           LEN_PER_CHUNK d_three (World 653637408 []) H1 H2).
  - reflexivity.
  - reflexivity.
Defined.

(** ** The degenerate ratio 1.0 *)

Lemma ratio_one_threshold : d_div d_one d_one = d_one.
Proof. vm_compute. reflexivity. Qed.

Section RatioOne.
Context {rng : Type}.
Variable pcg32_random : rng -> Z * rng.
Variable powf : float -> float -> float.
Variables len_exp lit_exp : double.

Let source := safe_source_any pcg32_random powf len_exp lit_exp.

Lemma iterated_literal_only {C} L size st (w : world rng) st' w' :
  Forall literal_only (log w) ->
  iterated is_uint32 C L size d_one st w st' w' ->
  Forall literal_only (log w').
Proof.
  intros Hall Hit.
  iterated_cases Hit;
    try (rewrite ratio_one_threshold, uniform_lt_one in Hber by done; discriminate);
    rewrite Hlog, Hlog1;
    repeat (apply Forall_cons; split; [done|]); exact Hall.
Qed.

Lemma generate_data_internal_ratio_one (m : array byte) ptr size samples w :
  0 <= size <= SIZE_MAX -> 0 <= ptr -> ptr + size <= Z.of_nat (length m) ->
  samples_ok samples -> Forall literal_only (log w) ->
  wp sampling_fault
     (generate_data_internal pcg32_random powf m ptr size d_one len_exp lit_exp samples)
     (fun _ w' => Forall literal_only (log w')) w.
Proof.
  intros Hsize Hptr Hlen Hs Hall. unfold generate_data_internal. apply wp_bind.
  eapply wp_mono.
  { apply (generate_data_run_spec _ _ _ _ _ _ _ source
             (fun _ w' => Forall literal_only (log w'))); try done.
    intros st0 w0 st' w' HI _ _ _ Hit. eapply iterated_literal_only; eauto. }
  intros st' w' (HI & _). apply wp_ret. exact HI.
Qed.

Lemma lzdg_generate_data_bulk_ratio_one (m : array byte) size w :
  0 <= size <= SIZE_MAX -> size <= Z.of_nat (length m) ->
  Forall literal_only (log w) ->
  wp sampling_fault
     (lzdg_generate_data_bulk pcg32_random powf m size d_one len_exp lit_exp)
     (fun _ w' => Forall literal_only (log w')) w.
Proof.
  intros Hsize Hlen Hall. unfold lzdg_generate_data_bulk.
  eapply wp_mono.
  { apply (bulk_loop_spec _ _ _ _ _ _ _ source
             (fun _ _ w' => Forall literal_only (log w'))
             (fun _ _ _ _ w' => Forall literal_only (log w')) m);
      try done; try lia.
    - intros m1 offs w1 smp w2 HJ _ _ Hlog. rewrite Hlog.
      apply Forall_cons. done.
    - intros m1 offs smp st0 w0 st' w' HI _ _ _ Hit.
      eapply iterated_literal_only; eauto. }
  intros m' w' (HJ & _ & _). exact HJ.
Qed.
End RatioOne.

(** C3 as stated fails: with ratio 1.0 the comparison [u < 1/ratio] is not
    false for every draw; already the draw 0 satisfies it. *)
Lemma ratio_one_selects_literal :
  ~ (forall k, is_uint32 k -> d_ltb (uniform k) (d_div d_one d_one) = false).
Proof.
  intros H. specialize (H 0 ltac:(unfold is_uint32; lia)).
  vm_compute in H. discriminate.
Qed.

(** C3, amended.  With ratio 1.0 the threshold [1/ratio] is 1.0 and every
    uniform variate lies below it: the Bernoulli test selects the literal
    branch for every draw.  The output of either entry point then consists
    of literal runs only; no repeat run and no break literal is emitted. *)
Theorem ratio_one_only_literals {rng} (pcg32_random : rng -> Z * rng)
    (powf : float -> float -> float) (m : array byte) (size : Z)
    (len_exp lit_exp : double) (w : world rng) :
  0 <= size <= SIZE_MAX -> size <= Z.of_nat (length m) ->
  Forall literal_only (log w) ->
  (forall k, is_uint32 k -> d_ltb (uniform k) (d_div d_one d_one) = true) /\
  wp sampling_fault
     (lzdg_generate_data pcg32_random powf m size d_one len_exp lit_exp)
     (fun _ w' => Forall literal_only (log w')) w /\
  wp sampling_fault
     (lzdg_generate_data_bulk pcg32_random powf m size d_one len_exp lit_exp)
     (fun _ w' => Forall literal_only (log w')) w.
Proof.
  intros Hsize Hlen Hall. split; [|split].
  - intros k Hk. rewrite ratio_one_threshold. by apply uniform_lt_one.
  - apply generate_data_internal_ratio_one; done.
  - apply lzdg_generate_data_bulk_ratio_one; done.
Qed.

(** ** Run lengths *)

Lemma length_slice {A} (a : array A) off len :
  0 <= off -> 0 <= len -> off + len <= Z.of_nat (length a) ->
  Z.of_nat (length (slice a off len)) = len.
Proof.
  intros Hoff Hlen Hb. unfold slice. rewrite length_take, length_drop. lia.
Qed.

Section RunLengths.
Context {rng : Type}.
Variable pcg32_random : rng -> Z * rng.
Variable powf : float -> float -> float.
Variables ratio len_exp lit_exp : double.

Let source := safe_source_any pcg32_random powf len_exp lit_exp.

Lemma iterated_run_lengths D {C} L (m0 : array byte) ptr size st (w : world rng) st' w'
    (P : event -> Prop) :
  (forall e, issue_in_range e -> repeat_clamped (ptr + size) e -> P e) ->
  0 <= ptr -> ptr + size <= Z.of_nat (length m0) ->
  mem_inv m0 ptr size st -> i st < size ->
  iterated D C L size ratio st w st' w' ->
  Forall P (log w) -> Forall P (log w').
Proof.
  intros HP Hptr Hlen Hmi Hi Hit Hall.
  destruct (iterated_mem_inv _ _ _ _ _ _ _ _ _ _ Hmi Hi Hit) as [Hmi' _].
  pose proof (wr_length _ _ _ _ _ (mi_written _ _ _ _ Hmi')) as Hml.
  destruct Hmi as [Hi0 Hp0 _].
  assert (Hother : forall e, (forall off d, e <> EvRepeatRun off d) ->
                             (forall len, e <> EvIssue len) -> P e).
  { intros e H1 H2. apply HP; destruct e; simpl; try done.
    - by destruct (H2 len).
    - by destruct (H1 off data). }
  assert (Hrep : forall off len m c,
            length m = length m0 -> 0 <= c < NUM_LEN ->
            ptr <= off -> 0 <= len -> len <= MIN_LEN + c ->
            off + len <= ptr + size ->
            (len < MIN_LEN -> off + len = ptr + size) ->
            P (EvRepeatRun off (slice m off len))).
  { intros off len m c Hm Hc Hoff Hl0 Hl1 Hl2 Hl3. apply HP; simpl; [done|].
    rewrite length_slice by lia.
    split; [unfold NUM_LEN, MAX_LEN, MIN_LEN in *; lia|exact Hl3]. }
  assert (Hissue : forall c, 0 <= c < NUM_LEN -> P (EvIssue (MIN_LEN + c))).
  { intros c Hc. apply HP; simpl; [|done]. unfold NUM_LEN, MAX_LEN, MIN_LEN in *. lia. }
  iterated_cases Hit;
    pose proof (sc_p _ _ _ _ _ Hsc) as Hp1; pose proof (sc_i _ _ _ _ _ Hsc) as Hi1;
    pose proof (si_cur _ (sc_inv _ _ _ _ _ Hsc)) as Hcur0;
    rewrite Hlog, Hlog1;
    repeat (apply Forall_cons; split); try exact Hall;
    try (apply Hother; intros; discriminate);
    try (apply Hissue; exact Hcur0);
    apply (Hrep _ _ _ (cur_len st1)); try done;
    unfold len, len0, NUM_LEN, MAX_LEN, MIN_LEN in *; lia.
Qed.

Lemma generate_data_internal_run_lengths (m : array byte) ptr size samples g :
  0 <= size <= SIZE_MAX -> 0 <= ptr -> ptr + size <= Z.of_nat (length m) ->
  samples_ok samples ->
  wp sampling_fault
     (generate_data_internal pcg32_random powf m ptr size ratio len_exp lit_exp samples)
     (fun _ w' => Forall issue_in_range (log w') /\
                  Forall (repeat_clamped (ptr + size)) (log w')) (World g []).
Proof.
  intros Hsize Hptr Hlen Hs. unfold generate_data_internal. apply wp_bind.
  eapply wp_mono.
  { apply (generate_data_run_spec _ _ _ _ _ _ _ source
             (fun _ w' => Forall (fun e => issue_in_range e /\
                                           repeat_clamped (ptr + size) e) (log w')));
      try done.
    intros st0 w0 st' w' HI _ Hmi Hi Hit.
    eapply iterated_run_lengths; eauto. }
  intros st' w' (HI & _). apply wp_ret.
  split; eapply Forall_impl; try exact HI; by intros e [? ?].
Qed.

Lemma block_end size offs :
  0 <= offs < size -> offs mod BLOCK_SIZE = 0 ->
  offs + block_size size offs = size \/
  (offs + block_size size offs) mod BLOCK_SIZE = 0.
Proof.
  intros Hoffs Hmod. unfold block_size.
  destruct (Z.le_gt_cases BLOCK_SIZE (size - offs)).
  - right. rewrite Z.min_l by lia.
    rewrite <- Zplus_mod_idemp_l, Hmod. apply Z_mod_same_full.
  - left. lia.
Qed.

Lemma lzdg_generate_data_bulk_run_lengths (m : array byte) size g :
  0 <= size <= SIZE_MAX -> size <= Z.of_nat (length m) ->
  wp sampling_fault
     (lzdg_generate_data_bulk pcg32_random powf m size ratio len_exp lit_exp)
     (fun _ w' => Forall issue_in_range (log w') /\
                  Forall (repeat_clamped_bulk size) (log w')) (World g []).
Proof.
  intros Hsize Hlen. unfold lzdg_generate_data_bulk.
  set (P := fun e => issue_in_range e /\ repeat_clamped_bulk size e).
  eapply wp_mono.
  { apply (bulk_loop_spec _ _ _ _ _ _ _ source
             (fun m' offs w' => Forall P (log w') /\
                                (offs mod BLOCK_SIZE = 0 \/ offs = size) /\
                                length m' = length m)
             (fun m' offs _ _ w' => Forall P (log w') /\ offs mod BLOCK_SIZE = 0 /\
                                    0 <= offs < size /\ length m' = length m) m);
      try done; try lia.
    - intros m1 offs w1 smp w2 (HJ & Hmod & Hl) Hoffs _ Hlog.
      rewrite Hlog. split; [by apply Forall_cons|].
      split; [|done]. destruct Hmod; [done|lia].
    - intros m1 offs smp st0 w0 st' w' (HI & Hmod & Hoffs & Hl) _ Hmi Hi Hit.
      split; [|done].
      assert (Hnr : 1 <= block_size size offs <= size - offs).
      { unfold block_size, BLOCK_SIZE. lia. }
      eapply (iterated_run_lengths _ _ m1 offs (block_size size offs));
        try exact Hit; try done; try lia.
      intros e He1 He2. split; [done|]. destruct e; try done.
      destruct He2 as [He2 He3]. split; [done|]. intros Hshort.
      rewrite (He3 Hshort). by apply block_end.
    - intros m1 offs w1 smp st' w' (HJ & Hmod & Hl) Hoffs (HI & Hmod' & _ & _) Hmi Hi.
      split; [done|]. split.
      + destruct (block_end size offs Hoffs Hmod'); [by right|by left].
      + rewrite (wr_length _ _ _ _ _ (mi_written _ _ _ _ Hmi)). done.
    - split; [by apply Forall_nil|]. split; [by left|done]. }
  intros m' w' ((HJ & _) & _). split; eapply Forall_impl; try exact HJ; by intros e [? ?].
Qed.
End RunLengths.

(** C8 as stated fails: a repeat run can have length 0.  With 259 bytes to
    generate, the first run is a repeat run of 258 bytes; in the second
    pass one byte is left, the repeat branch is taken again, the break
    literal takes that byte and [memcpy] is called with length 0. *)
Lemma repeat_run_of_length_zero :
  ~ wp sampling_fault
      (lzdg_generate_data lcg_random powf_exp1 (fresh_array byte 259) 259
         d_thousand d_one d_one)
      (fun _ w' => Forall repeat_nonempty (log w')) (World 12345 []).
Proof.
  assert (Hrun : match lzdg_generate_data lcg_random powf_exp1 (fresh_array byte 259)
                         259 d_thousand d_one d_one (World 12345 []) with
                 | Ok (_, w') => head (log w')
                 | Fault _ => None
                 end = Some (EvRepeatRun 259 [])) by (vm_compute; reflexivity).
  unfold wp.
  destruct (lzdg_generate_data _ _ _ _ _ _ _ _) as [[m' w']|f]; [|discriminate].
  destruct (log w') as [|e l]; [discriminate|]. injection Hrun as ->.
  intros H. apply Forall_cons in H as [H _]. simpl in H. lia.
Qed.

(** C8, amended.  Every run length issued by the histogram lies in
    [3, 258] before clamping.  After clamping to the space left, every
    repeat run has between 0 and 258 bytes, and one of fewer than 3 bytes
    ends exactly where the call of [generate_data_internal] stops writing:
    at [size] for [lzdg_generate_data], at the end of its block in bulk
    mode. *)
Theorem run_lengths_in_range {rng} (pcg32_random : rng -> Z * rng)
    (powf : float -> float -> float) (m : array byte) (size : Z)
    (ratio len_exp lit_exp : double) (g : rng) :
  0 <= size <= SIZE_MAX -> size <= Z.of_nat (length m) ->
  wp sampling_fault
     (lzdg_generate_data pcg32_random powf m size ratio len_exp lit_exp)
     (fun _ w' => Forall issue_in_range (log w') /\
                  Forall (repeat_clamped size) (log w')) (World g []) /\
  wp sampling_fault
     (lzdg_generate_data_bulk pcg32_random powf m size ratio len_exp lit_exp)
     (fun _ w' => Forall issue_in_range (log w') /\
                  Forall (repeat_clamped_bulk size) (log w')) (World g []).
Proof.
  intros Hsize Hlen. split.
  - apply (generate_data_internal_run_lengths pcg32_random powf ratio len_exp lit_exp
             m 0 size None g); done.
  - by apply lzdg_generate_data_bulk_run_lengths.
Qed.

(** ** Repeat runs are separated *)

Section Separation.
Context {rng : Type}.
Variable pcg32_random : rng -> Z * rng.
Variable powf : float -> float -> float.
Variables ratio len_exp lit_exp : double.

Let source := safe_source_any pcg32_random powf len_exp lit_exp.

Lemma iterated_separated D {C} L (m0 : array byte) ptr size st (w : world rng) st' w' :
  0 <= ptr -> ptr + size <= Z.of_nat (length m0) ->
  mem_inv m0 ptr size st -> i st < size ->
  iterated D C L size ratio st w st' w' ->
  separated (log w) /\ run_state st (log w) ->
  separated (log w') /\ run_state st' (log w').
Proof.
  intros Hptr Hlen Hmi Hi Hit [Hsep Hrs].
  destruct (iterated_mem_inv _ _ _ _ _ _ _ _ _ _ Hmi Hi Hit) as [Hmi' _].
  pose proof (wr_length _ _ _ _ _ (mi_written _ _ _ _ Hmi')) as Hml.
  destruct Hmi as [Hi0 Hp0 _].
  unfold run_state in *.
  iterated_cases Hit;
    pose proof (sc_p _ _ _ _ _ Hsc) as Hp1; pose proof (sc_i _ _ _ _ _ Hsc) as Hi1;
    pose proof (sc_last _ _ _ _ _ Hsc) as Hl1;
    pose proof (si_cur _ (sc_inv _ _ _ _ _ Hsc)) as Hcur0;
    assert (Hcur0' : 0 <= cur_len st1 < 256) by exact Hcur0;
    subst len len0; unfold MIN_LEN in *;
    rewrite Hlog, Hlog1; cbn [separated last_run precedes_repeat precedes_break];
    rewrite ?Hl', ?Hp'.
  (* literal runs *)
  1, 4: (split; [exact Hsep|]; rewrite length_slice by lia;
         split; [done|split; lia]).
  (* repeat runs without a break literal *)
  1, 3: (rewrite length_slice by lia;
         split; [|split; [done|lia]]; split; [|exact Hsep];
         destruct (last_run (log w)) as [[]|]; simpl in *; try done;
         [destruct Hrs as (? & ? & ?); split; [done|lia]
         |destruct Hrs; congruence]).
  (* break literal and repeat run *)
  all: pose proof (wr_length _ _ _ _ _ (proj1 Hwr)) as Hml1.
  all: assert (Hpp : p st1 = ptr + i st1) by lia.
  all: assert (Hmin : 0 <= (3 + cur_len st1) `min` (size - (i st1 + 1))
                      <= size - (i st1 + 1)) by lia.
  all: assert (Hmz : Z.of_nat (length (mem st')) = Z.of_nat (length m0)) by lia.
  all: rewrite length_slice by lia.
  all: split; [|split; [done|reflexivity]].
  all: split; [split; [|done]|split; [|exact Hsep]].
  1, 3: (apply Nat2Z.inj; apply length_slice; lia).
  all: destruct (last_run (log w)) as [[]|]; simpl in *; try done;
       repeat match goal with H : _ /\ _ |- _ => destruct H end;
       first [lia | congruence].
Qed.

Lemma generate_data_internal_separated (m : array byte) ptr size samples g :
  0 <= size <= SIZE_MAX -> 0 <= ptr -> ptr + size <= Z.of_nat (length m) ->
  samples_ok samples ->
  wp sampling_fault
     (generate_data_internal pcg32_random powf m ptr size ratio len_exp lit_exp samples)
     (fun _ w' => separated (log w')) (World g []).
Proof.
  intros Hsize Hptr Hlen Hs. unfold generate_data_internal. apply wp_bind.
  eapply wp_mono.
  { apply (generate_data_run_spec _ _ _ _ _ _ _ source
             (fun st w' => separated (log w') /\ run_state st (log w')));
      try done.
    intros st0 w0 st' w' HI _ Hmi Hi Hit.
    eapply iterated_separated; eauto. }
  intros st' w' ((HI & _) & _). apply wp_ret. exact HI.
Qed.

Lemma lzdg_generate_data_bulk_separated (m : array byte) size g :
  0 <= size <= SIZE_MAX -> size <= Z.of_nat (length m) ->
  wp sampling_fault
     (lzdg_generate_data_bulk pcg32_random powf m size ratio len_exp lit_exp)
     (fun _ w' => separated (log w')) (World g []).
Proof.
  intros Hsize Hlen. unfold lzdg_generate_data_bulk.
  eapply wp_mono.
  { apply (bulk_loop_spec _ _ _ _ _ _ _ source
             (fun m' offs w' => separated (log w') /\ length m' = length m)
             (fun m' offs _ st w' => (separated (log w') /\ run_state st (log w')) /\
                                     0 <= offs < size /\ length m' = length m) m);
      try done; try lia.
    - intros m1 offs w1 smp w2 (HJ & Hl) Hoffs _ Hlog.
      rewrite Hlog. done.
    - intros m1 offs smp st0 w0 st' w' (HI & Hoffs & Hl) _ Hmi Hi Hit.
      split; [|done].
      assert (Hnr : 1 <= block_size size offs <= size - offs).
      { unfold block_size, BLOCK_SIZE. lia. }
      eapply (iterated_separated _ _ m1 offs (block_size size offs));
        try exact Hit; try done; lia.
    - intros m1 offs w1 smp st' w' (HJ & Hl) Hoffs ((HI & _) & _) Hmi Hi.
      split; [done|].
      rewrite (wr_length _ _ _ _ _ (mi_written _ _ _ _ Hmi)). done. }
  intros m' w' ((HJ & _) & _). exact HJ.
Qed.
End Separation.

(** ** Repeat runs across the blocks of bulk mode *)

(** A run that returns with [Q1] does not return with a property that
    [Q1] excludes. *)
Lemma wp_exclusive {rng A} (c : M rng A) (Q1 Q2 : A -> world rng -> Prop) w :
  wp no_fault c Q1 w -> (forall a w', Q1 a w' -> ~ Q2 a w') ->
  ~ wp sampling_fault c Q2 w.
Proof.
  unfold wp. destruct (c w) as [[a w']|f]; [|done].
  intros H1 Hex H2. by eapply Hex.
Qed.

Lemma length_fresh_array A n : 0 <= n -> Z.of_nat (length (fresh_array A n)) = n.
Proof. intros Hn. unfold fresh_array. rewrite length_replicate. lia. Qed.

Lemma touching_cons e l : touching l -> touching (e :: l).
Proof.
  intros (l1 & off1 & d1 & off2 & d2 & l2 & -> & H).
  by exists (e :: l1), off1, d1, off2, d2, l2.
Qed.

Lemma touching_not_separated l : touching l -> ~ separated_output l.
Proof.
  intros (l1 & off1 & d1 & off2 & d2 & l2 & -> & Hprev & _) Hsep.
  induction l1 as [|e l1 IH].
  - simpl in Hsep. rewrite Hprev in Hsep. by destruct Hsep as [[] _].
  - apply IH. destruct e; simpl in Hsep; try done; apply Hsep.
Qed.

(** The source stuck on [mid_draw] makes no sample fail: every length is
    of class 128 and every pass takes the repeat branch at ratio 1000. *)
Lemma fixed_source_safe :
  safe_source fixed_random powf_exp1 no_fault
    (fun g => g = mid_draw) (fun d => d = mid_draw) d_one d_one.
Proof.
  split.
  - by intros g ->.
  - by intros g ->.
  - intros k ->. by vm_compute.
  - intros k ->. by vm_compute.
  - intros k ->. by vm_compute.
Qed.

Lemma class_of_mid_draw c :
  sampled_class powf_exp1 (fun d => d = mid_draw) d_one c -> c = 128.
Proof. intros (k & -> & H). vm_compute in H. congruence. Qed.

Lemma mid_draw_not_literal :
  d_ltb (uniform mid_draw) (d_div d_one d_thousand) = false.
Proof. by vm_compute. Qed.

(** One pass of the stuck run keeps [stuck_run_inv]: the first pass of a
    block copies a repeat run right at the start of the block, every other
    pass a break literal and a repeat run of at least one byte. *)
Lemma iterated_stuck_run L (m0 : array byte) offs bs st (w : world Z) st' w' :
  0 <= offs -> offs + bs <= Z.of_nat (length m0) -> bs mod 132 <> 0 ->
  mem_inv m0 offs bs st -> i st < bs ->
  iterated (fun d => d = mid_draw)
           (sampled_class powf_exp1 (fun d => d = mid_draw) d_one) L bs d_thousand
           st w st' w' ->
  stuck_run_inv offs bs st (log w) -> stuck_run_inv offs bs st' (log w').
Proof.
  intros Hoffs Hlen Hmod Hmi Hi Hit Hinv.
  destruct (iterated_mem_inv _ _ _ _ _ _ _ _ _ _ Hmi Hi Hit) as [Hmi' _].
  pose proof (wr_length _ _ _ _ _ (mi_written _ _ _ _ Hmi')) as Hml.
  destruct Hmi as [Hi0 Hp0 _].
  destruct Hit as (st1 & w1 & Hsc & Hrun).
  assert (Hcls1 : only_class 128 (len_freq st1)).
  { destruct (sc_case _ _ _ _ _ Hsc) as [(_ & Hfr & _)|(_ & _ & _ & _ & Hcl)].
    - rewrite Hfr. destruct Hinv as [(_ & _ & Hz & _)|(_ & Hoc & _)]; [|done].
      intros k v Hv Hnz. by apply Hz in Hv.
    - intros k v Hv Hnz. apply Hcl in Hv; [|done].
      apply class_of_mid_draw in Hv. lia. }
  destruct (sc_found _ _ _ _ _ Hsc) as (f0 & Hf0 & Hf0r).
  assert (Hcur : cur_len st1 = 128).
  { pose proof (si_cur _ (sc_inv _ _ _ _ _ Hsc)) as Hc.
    apply Hcls1 in Hf0; lia. }
  pose proof (sc_p _ _ _ _ _ Hsc) as Hp1. pose proof (sc_i _ _ _ _ _ Hsc) as Hi1.
  pose proof (sc_last _ _ _ _ _ Hsc) as Hl1.
  assert (Hlog1 : log w1 = log w \/
                  log w1 = EvRefill (len_freq st1) (buffer st1) :: log w).
  { destruct (sc_case _ _ _ _ _ Hsc) as [(? & _)|(? & _)]; [by left|by right]. }
  assert (Hcls' : len_freq st' = <[Z.to_nat (cur_len st1) := Some (f0 - 1)]> (len_freq st1) ->
                  only_class 128 (len_freq st')).
  { intros ->. intros k v Hv Hnz.
    destruct (decide (k = Z.to_nat (cur_len st1))) as [->|Hne]; [lia|].
    rewrite list_lookup_insert_ne in Hv by done. by eapply Hcls1. }
  destruct Hrun as [f k len0 len Hf Hlf Hb Hc Hk Hber Hwr Hlog Hp' Hi' Hl'
                   |f k len0 len Hf Hlf Hb Hc Hk Hber Hl Hwr Hlog Hp' Hi' Hl'
                   |f k m1 len0 len Hf Hlf Hb Hc Hk Hber Hl Hw1 Hwr Hlog Hp' Hi' Hl'].
  - subst k. rewrite mid_draw_not_literal in Hber. discriminate.
  - destruct Hinv as [(Hlw & Hi00 & Hz & Hprev)|(Hlw & _)]; [|congruence].
    assert (f = f0) as -> by congruence.
    assert (Hlen1 : len = Z.min 131 bs) by (subst len len0; unfold MIN_LEN; lia).
    clearbody len len0. subst len.
    assert (Hsl : Z.of_nat (length (slice (mem st') (p st1) (Z.min 131 bs)))
                  = Z.min 131 bs) by (apply length_slice; lia).
    right. split; [done|]. split; [by apply Hcls'|]. split; [|split].
    + destruct (Z.le_gt_cases 131 bs); [right|left; lia].
      replace (i st') with 131 by lia. reflexivity.
    + eexists _, _, _. split; [exact Hlog|]. split; lia.
    + intros Hpos. destruct (Hprev Hpos) as (smp & off & d & rest & Hlw0 & Hd & Hoff).
      rewrite Hlog. eexists [], off, d, _, _, _. split; [reflexivity|].
      split; [|split; [done|split; lia]].
      destruct Hlog1 as [->| ->]; rewrite Hlw0; reflexivity.
  - destruct Hinv as [(Hlw & _)|(Hlw & Hoc & Hpos & (off & d & rest & Hlw0 & Hd & Hoff) & Ht)];
      [congruence|].
    assert (f = f0) as -> by congruence.
    assert (Hlen1 : len = Z.min 131 (bs - (i st + 1)))
      by (subst len len0; unfold MIN_LEN; rewrite Hi1; lia).
    clearbody len len0. subst len.
    assert (Hmod' : i st mod 132 = 131) by lia.
    assert (Hroom : i st + 1 < bs).
    { revert Hmod Hmod' Hi. clear. intros. Z.div_mod_to_equations. lia. }
    pose proof (wr_length _ _ _ _ _ (proj1 Hwr)) as Hml1.
    pose proof (wr_length _ _ _ _ _ Hw1) as Hml2.
    assert (Hsl : Z.of_nat (length (slice (mem st') (p st1 + 1)
                                          (Z.min 131 (bs - (i st + 1)))))
                  = Z.min 131 (bs - (i st + 1))) by (apply length_slice; lia).
    right. split; [done|]. split; [by apply Hcls'|]. split; [|split].
    + destruct (Z.le_gt_cases 131 (bs - (i st + 1))); [right|left; lia].
      replace (i st') with (i st + 132) by lia.
      revert Hmod'. clear. intros. Z.div_mod_to_equations. lia.
    + eexists _, _, _. split; [exact Hlog|]. split; lia.
    + intros Hp. rewrite Hlog. do 3 apply touching_cons.
      destruct Hlog1 as [->| ->]; [|apply touching_cons]; by apply Ht.
Qed.

(** Bulk mode over one full block and three more bytes, on the stuck
    source at ratio 1000: the first block ends with a repeat run of at
    least one byte, and the second block starts with a repeat run. *)
Lemma stuck_bulk_touching (m : array byte) size :
  size = BLOCK_SIZE + 3 -> size <= Z.of_nat (length m) ->
  wp no_fault
     (lzdg_generate_data_bulk fixed_random powf_exp1 m size d_thousand d_one d_one)
     (fun _ w' => touching (log w')) (World mid_draw []).
Proof.
  intros Hsize Hlen. unfold lzdg_generate_data_bulk.
  assert (Hbs0 : block_size size 0 = BLOCK_SIZE)
    by (unfold block_size, BLOCK_SIZE in *; lia).
  assert (Hbs1 : block_size size BLOCK_SIZE = 3)
    by (unfold block_size, BLOCK_SIZE in *; lia).
  eapply wp_mono.
  { apply (bulk_loop_spec _ _ _ _ _ _ _ fixed_source_safe
       (fun m' offs w' =>
          length m' = length m /\
          ((offs = 0 /\ log w' = []) \/
           (offs = BLOCK_SIZE /\ exists off d rest,
              log w' = EvRepeatRun off d :: rest /\
              (1 <= length d)%nat /\ off + Z.of_nat (length d) = offs) \/
           (offs = size /\ touching (log w'))))
       (fun m' offs smp st w' =>
          length m' = length m /\ (offs = 0 \/ offs = BLOCK_SIZE) /\
          stuck_run_inv offs (block_size size offs) st (log w')) m).
    - intros m1 offs w1 smp w2 (Hl & HJ) Hoffs _ Hlog.
      split; [done|]. split.
      { destruct HJ as [[? _]|[[? _]|[? _]]]; [by left|by right|lia]. }
      left. split; [done|]. split; [done|]. split.
      + intros k v Hv. unfold entry_locals in Hv. cbn [len_freq] in Hv.
        destruct (decide (k = 0%nat)) as [->|Hne].
        * rewrite list_lookup_insert_eq in Hv; [congruence|].
          unfold fresh_array. rewrite length_replicate.
          unfold NUM_LEN, MAX_LEN, MIN_LEN. lia.
        * rewrite list_lookup_insert_ne in Hv by done.
          unfold fresh_array in Hv. apply lookup_replicate in Hv as [? _]. done.
      + intros Hpos. destruct HJ as [[? _]|[[-> (off & d & rest & Hw & Hd & Ho)]|[? _]]];
          [lia| |lia].
        exists smp, off, d, rest. rewrite Hlog, Hw. done.
    - intros m1 offs smp st0 w0 st' w' (Hl & Hoffs & HI) _ Hmi Hi Hit.
      split; [done|]. split; [done|].
      eapply (iterated_stuck_run _ m1 offs (block_size size offs));
        try exact Hit; try done.
      + unfold BLOCK_SIZE in *. lia.
      + destruct Hoffs as [-> | ->]; [rewrite Hbs0|rewrite Hbs1];
          unfold BLOCK_SIZE in *; lia.
      + destruct Hoffs as [-> | ->]; [rewrite Hbs0|rewrite Hbs1]; done.
    - intros m1 offs w1 smp st' w' (Hl & HJ) Hoffs (_ & Ho & HI) Hmi Hi.
      split.
      { rewrite (wr_length _ _ _ _ _ (mi_written _ _ _ _ Hmi)). done. }
      destruct HI as [(_ & Hi0 & _)|(_ & _ & _ & (off & d & rest & Hw & Hd & Hp) & Ht)].
      { destruct Ho as [-> | ->]; [rewrite Hbs0 in Hi|rewrite Hbs1 in Hi];
          unfold BLOCK_SIZE in *; lia. }
      pose proof (mi_p _ _ _ _ Hmi) as Hpp.
      destruct Ho as [-> | ->].
      + right. left. rewrite Hbs0 in *. split; [done|].
        exists off, d, rest. split; [done|]. split; [done|]. lia.
      + right. right. rewrite Hbs1 in *. split; [lia|].
        apply Ht. unfold BLOCK_SIZE. lia.
    - split; [done|]. by left.
    - unfold BLOCK_SIZE in *. lia.
    - unfold BLOCK_SIZE, SIZE_MAX in *. lia.
    - done.
    - done.
    - done.
    - done.
    - unfold BLOCK_SIZE in *. lia. }
  intros m' w' ((_ & [[? _]|[[? _]|[_ Ht]]]) & _);
    [unfold BLOCK_SIZE in *; lia|unfold BLOCK_SIZE in *; lia|exact Ht].
Qed.

(** C2, as stated for both entry points, fails in bulk mode: the flag
    [last_was_match] is a local of [generate_data_internal] and starts at 0
    in every block, so the first run of a block can be a repeat run that
    directly follows the repeat run ending the block before.  Here the
    source returns [0x80000000] at every draw: [rand_double] is 0.5, every
    length is 131 and, at ratio 1000, every pass takes the repeat branch.
    The first block of [BLOCK_SIZE] bytes ends with a repeat run of at
    least one byte, and the second block starts with a repeat run at
    offset [BLOCK_SIZE], with no literal byte between the two. *)
Lemma repeat_runs_touch_across_blocks :
  ~ wp sampling_fault
      (lzdg_generate_data_bulk fixed_random powf_exp1
         (fresh_array byte (BLOCK_SIZE + 3)) (BLOCK_SIZE + 3)
         d_thousand d_one d_one)
      (fun _ w' => separated_output (log w')) (World mid_draw []).
Proof.
  assert (Hlen : BLOCK_SIZE + 3
                 <= Z.of_nat (length (fresh_array byte (BLOCK_SIZE + 3)))).
  { rewrite length_fresh_array; [apply Z.le_refl|]. unfold BLOCK_SIZE. lia. }
  apply (wp_exclusive _ _ _ _ (stuck_bulk_touching _ _ eq_refl Hlen)).
  intros _ w'. apply touching_not_separated.
Qed.

(** C2, amended.  Within one call of [generate_data_internal] no two
    repeat runs follow one another.  The run that precedes a repeat run is
    a literal run of at least one byte or a break literal of exactly one
    byte, and it ends where the repeat run starts; a break literal is
    emitted exactly after a repeat run, at the byte where that run ended,
    so the repeat run that follows it starts one byte further.  This holds
    for the whole output of [lzdg_generate_data] and, in bulk mode, within
    each block ([separated] reads [EvBlock] as the start of a call). *)
Theorem repeat_runs_separated {rng} (pcg32_random : rng -> Z * rng)
    (powf : float -> float -> float) (m : array byte) (size : Z)
    (ratio len_exp lit_exp : double) (g : rng) :
  0 <= size <= SIZE_MAX -> size <= Z.of_nat (length m) ->
  wp sampling_fault
     (lzdg_generate_data pcg32_random powf m size ratio len_exp lit_exp)
     (fun _ w' => separated (log w')) (World g []) /\
  wp sampling_fault
     (lzdg_generate_data_bulk pcg32_random powf m size ratio len_exp lit_exp)
     (fun _ w' => separated (log w')) (World g []) /\
  (forall ptr samples, 0 <= ptr -> ptr + size <= Z.of_nat (length m) ->
     samples_ok samples ->
     wp sampling_fault
        (generate_data_internal pcg32_random powf m ptr size ratio len_exp lit_exp
           samples)
        (fun _ w' => separated (log w')) (World g [])).
Proof.
  intros Hsize Hlen. split; [|split].
  - apply (generate_data_internal_separated pcg32_random powf ratio len_exp lit_exp
             m 0 size None g); done.
  - by apply lzdg_generate_data_bulk_separated.
  - intros ptr samples Hptr Hplen Hs.
    by apply generate_data_internal_separated.
Qed.

(** ** Repeat runs copy the scratch buffer *)

Lemma copied_slice {A} (dst a' : array A) d (src : array A) n :
  copied dst a' d src n -> 0 <= d -> 0 <= n ->
  d + n <= Z.of_nat (length dst) -> n <= Z.of_nat (length src) ->
  slice a' d n = take (Z.to_nat n) src.
Proof.
  intros [Hw Hc] Hd Hn Hdst Hsrc. unfold slice. apply list_eq. intros k.
  destruct (decide (k < Z.to_nat n)%nat) as [Hk|Hk].
  - rewrite !lookup_take_lt by done. rewrite lookup_drop. apply Hc. lia.
  - rewrite !lookup_take_ge by lia. done.
Qed.

Lemma scratch_of_app l1 l2 :
  Forall same_cycle l1 -> scratch_of (l1 ++ l2) = scratch_of l2.
Proof.
  induction l1 as [|e l1 IH]; intros Hall; [done|].
  apply Forall_cons in Hall as [He Hall]. destruct e; simpl in *; try done; auto.
Qed.

Lemma repeats_from_scratch_app l1 l2 :
  repeats_from_scratch (l1 ++ l2) -> repeats_from_scratch l2.
Proof.
  induction l1 as [|e l1 IH]; [done|]. destruct e; simpl; try done; intros []; auto.
Qed.

Lemma repeats_cycle_prefixes l : repeats_from_scratch l -> cycle_prefixes l.
Proof.
  intros Hrep l1 l2 l3 off1 d1 off2 d2 -> Hall.
  apply repeats_from_scratch_app in Hrep. simpl in Hrep. destruct Hrep as [H1 Hrep].
  apply repeats_from_scratch_app in Hrep. simpl in Hrep. destruct Hrep as [H2 _].
  rewrite scratch_of_app in H1 by done. simpl in H1.
  destruct (scratch_of l3) as [s|]; [|done].
  destruct H1 as (_ & _ & ->), H2 as (_ & _ & ->).
  destruct (decide (length d1 <= length d2)%nat).
  - left. exists (drop (length d1) (take (length d2) s)).
    rewrite <- (take_drop (length d1) (take (length d2) s)) at 1.
    f_equal. rewrite take_take. f_equal. lia.
  - right. exists (drop (length d2) (take (length d1) s)).
    rewrite <- (take_drop (length d2) (take (length d1) s)) at 1.
    f_equal. rewrite take_take. f_equal. lia.
Qed.

Section Scratch.
Context {rng : Type}.
Variable pcg32_random : rng -> Z * rng.
Variable powf : float -> float -> float.
Variables ratio len_exp lit_exp : double.

Let source := safe_source_any pcg32_random powf len_exp lit_exp.

Lemma iterated_from_scratch D {C} L (m0 : array byte) ptr size st (w : world rng) st' w' :
  0 <= ptr -> ptr + size <= Z.of_nat (length m0) ->
  mem_inv m0 ptr size st -> i st < size ->
  iterated D C L size ratio st w st' w' ->
  repeats_from_scratch (log w) /\ scratch_state st (log w) ->
  repeats_from_scratch (log w') /\ scratch_state st' (log w').
Proof.
  intros Hptr Hlen Hmi Hi Hit [Hrep Hss].
  pose proof (wr_length _ _ _ _ _ (mi_written _ _ _ _ Hmi)) as Hml.
  destruct Hmi as [Hi0 Hp0 _].
  destruct Hit as (st1 & w1 & Hsc & Hrun).
  pose proof Hsc as [Hinv1 Hbuf1 (f1 & Hf1 & Hfr1) Hm1 Hp1 Hi1 _ Hcase].
  pose proof Hinv1 as [_ Hbl1 Hcur1 _ _ _].
  assert (Hcur1' : 0 <= cur_len st1 < 256) by exact Hcur1.
  (* after the scan the log shows the scratch buffer of the locals *)
  assert (Hs1 : scratch_of (log w1) = Some (buffer st1) /\
                repeats_from_scratch (log w1)).
  { destruct Hcase as [(Hlog1 & Hlf & Hb & Hc)|(Hlog1 & _)].
    - rewrite Hlog1. split; [|done]. unfold scratch_state in Hss.
      destruct (scratch_of (log w)) as [s|]; [congruence|].
      destruct Hss as [Hc0 Hz]. exfalso.
      assert (Hc1 : cur_len st1 = 0) by lia.
      rewrite Hc1, Hlf in Hf1. change (Z.to_nat 0) with 0%nat in Hf1.
      assert (f1 = 0) by congruence. lia.
    - rewrite Hlog1. done. }
  destruct Hs1 as [Hs1 Hrep1].
  assert (Hcopy : forall m a' d n,
            copied m a' d (buffer st1) n -> length m = length m0 ->
            ptr <= d -> 0 <= n -> n <= MIN_LEN + cur_len st1 ->
            d + n <= ptr + size ->
            copies_scratch (slice a' d n) (Some (buffer st1))).
  { intros m a' d n Hcp Hm Hd Hn0 Hn1 Hn2.
    split; [done|]. split; [done|].
    pose proof (wr_length _ _ _ _ _ (proj1 Hcp)) as Hla.
    assert (Hln : length (slice a' d n) = Z.to_nat n).
    { apply Nat2Z.inj. rewrite length_slice by lia. lia. }
    rewrite Hln. apply (copied_slice m); try done; try lia.
    unfold MAX_LEN, MIN_LEN in *. lia. }
  unfold scratch_state.
  destruct Hrun as [f k len0 len Hf Hlf Hb Hc Hk Hber Hwr Hlog Hp' Hi' Hl'
                   |f k len0 len Hf Hlf Hb Hc Hk Hber Hl Hwr Hlog Hp' Hi' Hl'
                   |f k m1 len0 len Hf Hlf Hb Hc Hk Hber Hl Hw1 Hwr Hlog Hp' Hi' Hl'];
    rewrite Hlog; cbn [repeats_from_scratch scratch_of]; rewrite Hs1.
  - done.
  - split; [|done]. split; [|done].
    apply (Hcopy (mem st1)); try done; try congruence;
      subst len len0; unfold MIN_LEN; lia.
  - split; [|done]. split; [|done].
    pose proof (wr_length _ _ _ _ _ Hw1) as Hml1.
    apply (Hcopy m1); try done; try congruence;
      subst len len0; unfold MIN_LEN; lia.
Qed.

Lemma generate_data_internal_from_scratch (m : array byte) ptr size samples g :
  0 <= size <= SIZE_MAX -> 0 <= ptr -> ptr + size <= Z.of_nat (length m) ->
  samples_ok samples ->
  wp sampling_fault
     (generate_data_internal pcg32_random powf m ptr size ratio len_exp lit_exp samples)
     (fun _ w' => repeats_from_scratch (log w')) (World g []).
Proof.
  intros Hsize Hptr Hlen Hs. unfold generate_data_internal. apply wp_bind.
  eapply wp_mono.
  { apply (generate_data_run_spec _ _ _ _ _ _ _ source
             (fun st w' => repeats_from_scratch (log w') /\
                           scratch_state st (log w')));
      try done.
    intros st0 w0 st' w' HI _ Hmi Hi Hit.
    eapply iterated_from_scratch; eauto. }
  intros st' w' ((HI & _) & _). apply wp_ret. exact HI.
Qed.

Lemma lzdg_generate_data_bulk_from_scratch (m : array byte) size g :
  0 <= size <= SIZE_MAX -> size <= Z.of_nat (length m) ->
  wp sampling_fault
     (lzdg_generate_data_bulk pcg32_random powf m size ratio len_exp lit_exp)
     (fun _ w' => repeats_from_scratch (log w')) (World g []).
Proof.
  intros Hsize Hlen. unfold lzdg_generate_data_bulk.
  eapply wp_mono.
  { apply (bulk_loop_spec _ _ _ _ _ _ _ source
             (fun m' offs w' => repeats_from_scratch (log w') /\ length m' = length m)
             (fun m' offs _ st w' =>
                (repeats_from_scratch (log w') /\ scratch_state st (log w')) /\
                0 <= offs < size /\ length m' = length m) m);
      try done; try lia.
    - intros m1 offs w1 smp w2 (HJ & Hl) Hoffs _ Hlog.
      rewrite Hlog. done.
    - intros m1 offs smp st0 w0 st' w' (HI & Hoffs & Hl) _ Hmi Hi Hit.
      split; [|done].
      assert (Hnr : 1 <= block_size size offs <= size - offs).
      { unfold block_size, BLOCK_SIZE. lia. }
      eapply (iterated_from_scratch _ _ m1 offs (block_size size offs));
        try exact Hit; try done; lia.
    - intros m1 offs w1 smp st' w' (HJ & Hl) Hoffs ((HI & _) & _) Hmi Hi.
      split; [done|].
      rewrite (wr_length _ _ _ _ _ (mi_written _ _ _ _ Hmi)). done. }
  intros m' w' ((HJ & _) & _). exact HJ.
Qed.
End Scratch.

(** C10. Every repeat run is copied from offset 0 of the scratch buffer:
    a repeat run of [n] bytes is the first [n] bytes of the scratch buffer
    of the most recent refill, which has 258 assigned bytes.  The scratch
    buffer changes only at a refill, so of two repeat runs with no refill
    between them one is a prefix of the other. *)
Theorem repeat_runs_scratch_prefixes {rng} (pcg32_random : rng -> Z * rng)
    (powf : float -> float -> float) (m : array byte) (size : Z)
    (ratio len_exp lit_exp : double) (g : rng) :
  0 <= size <= SIZE_MAX -> size <= Z.of_nat (length m) ->
  wp sampling_fault
     (lzdg_generate_data pcg32_random powf m size ratio len_exp lit_exp)
     (fun _ w' => repeats_from_scratch (log w') /\ cycle_prefixes (log w'))
     (World g []) /\
  wp sampling_fault
     (lzdg_generate_data_bulk pcg32_random powf m size ratio len_exp lit_exp)
     (fun _ w' => repeats_from_scratch (log w') /\ cycle_prefixes (log w'))
     (World g []).
Proof.
  intros Hsize Hlen. split.
  - eapply wp_mono.
    + apply (generate_data_internal_from_scratch pcg32_random powf ratio len_exp
               lit_exp m 0 size None g); done.
    + intros m' w' H. split; [done|]. by apply repeats_cycle_prefixes.
  - eapply wp_mono.
    + by apply lzdg_generate_data_bulk_from_scratch.
    + intros m' w' H. split; [done|]. by apply repeats_cycle_prefixes.
Qed.

(** ** The order in which lengths are issued *)

Lemma expand_from_zero c (f : array Z) :
  (forall (k : nat) (v : Z), f !! k = Some (Some v) -> v = 0) -> expand_from c f = [].
Proof.
  revert c. induction f as [|cell f IH]; intros c Hz; [done|].
  simpl. rewrite IH.
  - destruct cell as [v|]; [|done]. rewrite (Hz 0%nat v eq_refl). done.
  - intros k v Hk. apply (Hz (Datatypes.S k)). exact Hk.
Qed.

(** Taking one length out of the highest non-empty bucket removes the
    first length of the expansion. *)
Lemma expand_from_consume c (f : array Z) (k : nat) (v : Z) :
  f !! k = Some (Some v) -> 0 < v ->
  (forall (j : nat) (v' : Z), (k < j)%nat -> f !! j = Some (Some v') -> v' = 0) ->
  expand_from c f =
    (MIN_LEN + c + Z.of_nat k) :: expand_from c (<[k := Some (v - 1)]> f).
Proof.
  revert c k. induction f as [|cell f IH]; intros c k Hk Hv Hz; [done|].
  destruct k as [|k]; simpl in *.
  - injection Hk as ->. rewrite expand_from_zero.
    + simpl. replace (Z.to_nat v) with (Datatypes.S (Z.to_nat (v - 1))) by lia.
      simpl. f_equal. lia.
    + intros j v' Hj. apply (Hz (Datatypes.S j)); [lia|exact Hj].
  - rewrite (IH (c + 1) k Hk Hv).
    + simpl. f_equal. lia.
    + intros j v' Hj Hv'. apply (Hz (Datatypes.S j)); [lia|exact Hv'].
Qed.

Lemma nonincreasing_app l1 l2 :
  nonincreasing l1 -> nonincreasing l2 ->
  (forall x y, x ∈ l1 -> y ∈ l2 -> y <= x) ->
  nonincreasing (l1 ++ l2).
Proof.
  induction l1 as [|x l1 IH]; intros H1 H2 Hle; [done|].
  destruct l1 as [|y l1].
  - simpl. destruct l2 as [|z l2]; [done|]. split; [|done].
    apply Hle; apply list_elem_of_here.
  - destruct H1 as [Hyx H1]. simpl. split; [done|].
    apply IH; [done|done|].
    intros a b Ha Hb. apply Hle; [|done]. by apply list_elem_of_further.
Qed.

Lemma nonincreasing_prefix l1 l2 : nonincreasing (l1 ++ l2) -> nonincreasing l1.
Proof.
  induction l1 as [|x l1 IH]; [done|].
  destruct l1 as [|y l1]; [done|]. simpl. intros [Hyx H]. split; [done|].
  apply IH. exact H.
Qed.

Lemma nonincreasing_replicate n x : nonincreasing (replicate n x).
Proof.
  induction n as [|n IH]; [done|]. simpl. destruct n; [done|]. simpl in *.
  split; [lia|done].
Qed.

Lemma expand_from_lower c (f : array Z) x : x ∈ expand_from c f -> MIN_LEN + c <= x.
Proof.
  revert c. induction f as [|cell f IH]; intros c Hx; simpl in Hx.
  - by apply elem_of_nil in Hx.
  - apply elem_of_app in Hx as [Hx|Hx].
    + apply IH in Hx. lia.
    + apply elem_of_replicate in Hx as [-> _]. lia.
Qed.

Lemma expand_from_upper c (f : array Z) x :
  x ∈ expand_from c f -> x < MIN_LEN + c + Z.of_nat (length f).
Proof.
  revert c. induction f as [|cell f IH]; intros c Hx; simpl in Hx.
  - by apply elem_of_nil in Hx.
  - apply elem_of_app in Hx as [Hx|Hx].
    + apply IH in Hx. simpl. lia.
    + apply elem_of_replicate in Hx as [-> _]. simpl. lia.
Qed.

Lemma nonincreasing_expand c (f : array Z) : nonincreasing (expand_from c f).
Proof.
  revert c. induction f as [|cell f IH]; intros c; [done|].
  simpl. apply nonincreasing_app; [apply IH|apply nonincreasing_replicate|].
  intros x y Hx Hy. apply expand_from_lower in Hx.
  apply elem_of_replicate in Hy as [-> _]. lia.
Qed.

Lemma nonincreasing_cycle_of l : nonincreasing (cycle_of l).
Proof.
  induction l as [|e l IH]; [done|]. destruct e; simpl; try done.
  apply nonincreasing_expand.
Qed.

Lemma cycles_ok_app l1 l2 : cycles_ok (l1 ++ l2) -> cycles_ok l2.
Proof.
  induction l1 as [|e l1 IH]; [done|]. destruct e; simpl; try done; intros []; auto.
Qed.

Lemma cycles_ok_nonincreasing l : cycles_ok l -> issued_nonincreasing l.
Proof.
  intros Hok l1 l2 ->. apply cycles_ok_app in Hok. clear l1.
  induction l2 as [|e l IH]; [done|]. destruct e; simpl in *; try done; auto.
  destruct Hok as [[t Ht] _]. eapply nonincreasing_prefix.
  rewrite <- Ht. apply nonincreasing_cycle_of.
Qed.

Section Cycles.
Context {rng : Type}.
Variable pcg32_random : rng -> Z * rng.
Variable powf : float -> float -> float.
Variables ratio len_exp lit_exp : double.

Let source := safe_source_any pcg32_random powf len_exp lit_exp.

Lemma iterated_cycles D {C} L size st (w : world rng) st' w' :
  iterated D C L size ratio st w st' w' ->
  cycles_ok (log w) /\ cycle_state st (log w) ->
  cycles_ok (log w') /\ cycle_state st' (log w').
Proof.
  intros Hit [Hok Hcs]. unfold cycle_state in *.
  destruct Hit as (st1 & w1 & Hsc & Hrun).
  pose proof Hsc as [Hinv1 _ (f1 & Hf1 & Hfr1) _ _ _ _ Hcase].
  pose proof Hinv1 as [_ _ Hcur1 _ Hhigh1 _].
  (* the state of the cycle after the scan *)
  assert (Hs1 : cycles_ok (log w1) /\
                cycle_issued (log w1) ++ expand (len_freq st1) = cycle_of (log w1)).
  { destruct Hcase as [(Hlog1 & Hlf & _)|(Hlog1 & _ & _ & Hzero & _)].
    - rewrite Hlog1, Hlf. done.
    - rewrite Hlog1. simpl. split; [|done]. split; [|done].
      unfold expand in Hcs. rewrite (expand_from_zero 0 _ Hzero), app_nil_r in Hcs.
      exact Hcs. }
  destruct Hs1 as [Hok1 Hcs1].
  (* issuing a length takes the first one of what the histogram holds *)
  assert (Hissue : forall lf', 
            lf' = <[Z.to_nat (cur_len st1) := Some (f1 - 1)]> (len_freq st1) ->
            (cycle_issued (log w1) ++ [MIN_LEN + cur_len st1]) `prefix_of`
              cycle_of (log w1) /\
            (cycle_issued (log w1) ++ [MIN_LEN + cur_len st1]) ++ expand lf' =
              cycle_of (log w1)).
  { intros lf' ->. unfold expand in *.
    rewrite (expand_from_consume 0 _ (Z.to_nat (cur_len st1)) f1) in Hcs1;
      [|done|lia|].
    - replace (MIN_LEN + 0 + Z.of_nat (Z.to_nat (cur_len st1)))
        with (MIN_LEN + cur_len st1) in Hcs1 by lia.
      rewrite <- app_assoc. simpl. split; [|exact Hcs1].
      rewrite <- Hcs1. eexists. rewrite <- app_assoc. reflexivity.
    - intros j v' Hj Hv'. apply (Hhigh1 j v'); [lia|exact Hv']. }
  destruct Hrun as [f k len0 len Hf Hlf Hb Hc Hk Hber Hwr Hlog Hp' Hi' Hl'
                   |f k len0 len Hf Hlf Hb Hc Hk Hber Hl Hwr Hlog Hp' Hi' Hl'
                   |f k m1 len0 len Hf Hlf Hb Hc Hk Hber Hl Hw1 Hwr Hlog Hp' Hi' Hl'];
    assert (f = f1) as -> by congruence;
    destruct (Hissue _ Hlf) as [Hpre Hst];
    rewrite Hlog; cbn [cycles_ok cycle_issued cycle_of]; done.
Qed.

Lemma entry_cycle_state m ptr l :
  cycle_of l = [] -> cycle_issued l = [] -> cycle_state (entry_locals m ptr) l.
Proof.
  intros H1 H2. unfold cycle_state, expand. rewrite H1, H2.
  rewrite app_nil_l. apply expand_from_zero. intros k v Hk.
  destruct k as [|k]; cbn [entry_locals len_freq] in Hk.
  - rewrite list_lookup_insert_eq in Hk; [congruence|].
    unfold fresh_array. rewrite length_replicate. unfold NUM_LEN, MAX_LEN, MIN_LEN. lia.
  - rewrite list_lookup_insert_ne in Hk by lia.
    unfold fresh_array in Hk. apply lookup_replicate in Hk as [? _]. done.
Qed.

Lemma generate_data_internal_cycles (m : array byte) ptr size samples g :
  0 <= size <= SIZE_MAX -> 0 <= ptr -> ptr + size <= Z.of_nat (length m) ->
  samples_ok samples ->
  wp sampling_fault
     (generate_data_internal pcg32_random powf m ptr size ratio len_exp lit_exp samples)
     (fun _ w' => cycles_ok (log w')) (World g []).
Proof.
  intros Hsize Hptr Hlen Hs. unfold generate_data_internal. apply wp_bind.
  eapply wp_mono.
  { apply (generate_data_run_spec _ _ _ _ _ _ _ source
             (fun st w' => cycles_ok (log w') /\ cycle_state st (log w')));
      try done.
    intros st0 w0 st' w' HI _ _ _ Hit. eapply iterated_cycles; eauto. }
  intros st' w' ((HI & _) & _). apply wp_ret. exact HI.
Qed.

Lemma lzdg_generate_data_bulk_cycles (m : array byte) size g :
  0 <= size <= SIZE_MAX -> size <= Z.of_nat (length m) ->
  wp sampling_fault
     (lzdg_generate_data_bulk pcg32_random powf m size ratio len_exp lit_exp)
     (fun _ w' => cycles_ok (log w')) (World g []).
Proof.
  intros Hsize Hlen. unfold lzdg_generate_data_bulk.
  eapply wp_mono.
  { apply (bulk_loop_spec _ _ _ _ _ _ _ source
             (fun _ _ w' => cycles_ok (log w'))
             (fun _ _ _ st w' => cycles_ok (log w') /\ cycle_state st (log w')) m);
      try done; try lia.
    - intros m1 offs w1 smp w2 HJ Hoffs _ Hlog.
      rewrite Hlog. split; [done|]. by apply entry_cycle_state.
    - intros m1 offs smp st0 w0 st' w' HI _ _ _ Hit.
      eapply iterated_cycles; eauto.
    - intros m1 offs w1 smp st' w' _ _ [HI _] _ _. exact HI. }
  intros m' w' (HJ & _). exact HJ.
Qed.
End Cycles.

(** C7. Within one refill cycle the run lengths issued, before clamping,
    are the lengths the refilled histogram holds, read from the top bucket
    down, each bucket giving as many lengths as its count: the lengths
    issued are in non-increasing order at every moment, and when the next
    refill of the call takes place every length of the cycle has been
    issued, once. *)
Theorem lengths_issued_top_down {rng} (pcg32_random : rng -> Z * rng)
    (powf : float -> float -> float) (m : array byte) (size : Z)
    (ratio len_exp lit_exp : double) (g : rng) :
  0 <= size <= SIZE_MAX -> size <= Z.of_nat (length m) ->
  wp sampling_fault
     (lzdg_generate_data pcg32_random powf m size ratio len_exp lit_exp)
     (fun _ w' => cycles_ok (log w') /\ issued_nonincreasing (log w'))
     (World g []) /\
  wp sampling_fault
     (lzdg_generate_data_bulk pcg32_random powf m size ratio len_exp lit_exp)
     (fun _ w' => cycles_ok (log w') /\ issued_nonincreasing (log w'))
     (World g []).
Proof.
  intros Hsize Hlen. split.
  - eapply wp_mono.
    + apply (generate_data_internal_cycles pcg32_random powf ratio len_exp
               lit_exp m 0 size None g); done.
    + intros m' w' H. split; [done|]. by apply cycles_ok_nonincreasing.
  - eapply wp_mono.
    + by apply lzdg_generate_data_bulk_cycles.
    + intros m' w' H. split; [done|]. by apply cycles_ok_nonincreasing.
Qed.

(** ** Bulk mode: blocks and their corpus *)

Lemma written_slice {A} (P : A -> Prop) (a a' : array A) off n cell :
  written P a a' off n -> 0 <= off -> 0 <= n ->
  cell ∈ slice a' off n -> exists v, cell = Some v /\ P v.
Proof.
  intros [_ _ Hc] Hoff Hn Hin. unfold slice in Hin.
  apply list_elem_of_lookup in Hin as [k Hk].
  apply lookup_take_Some in Hk as [Hk Hlt]. rewrite lookup_drop in Hk.
  destruct (Hc (Z.to_nat off + k)%nat) as (v & Hv & HP); [lia|].
  exists v. split; [congruence|done].
Qed.

(** Cells below [bound] that two arrays share give equal slices. *)
Lemma slice_frame {A} (a a' : array A) off n bound :
  (forall k : nat, Z.of_nat k < bound -> a' !! k = a !! k) ->
  0 <= off -> 0 <= n -> off + n <= bound ->
  slice a' off n = slice a off n.
Proof.
  intros Hf Hoff Hn Hb. unfold slice. apply list_eq. intros k.
  destruct (decide (k < Z.to_nat n)%nat) as [Hk|Hk].
  - rewrite !lookup_take_lt by done. rewrite !lookup_drop. apply Hf. lia.
  - rewrite !lookup_take_ge by lia. done.
Qed.

Lemma run_in_frame (m m' : array byte) pcur pcur' e :
  (forall k : nat, Z.of_nat k < pcur -> m' !! k = m !! k) ->
  pcur <= pcur' -> run_in m pcur e -> run_in m' pcur' e.
Proof.
  intros Hf Hle. destruct e; simpl; try done.
  all: intros (H0 & H1 & H2); split; [done|]; split; [lia|];
       rewrite <- H2 at 2; eapply slice_frame; eauto; lia.
Qed.

Lemma run_in_slice (m : array byte) off len pcur :
  0 <= off -> 0 <= len -> off + len <= pcur -> off + len <= Z.of_nat (length m) ->
  let d := slice m off len in
  0 <= off /\ off + Z.of_nat (length d) <= pcur /\
  slice m off (Z.of_nat (length d)) = d.
Proof.
  intros Hoff Hlen Hp Hm d. unfold d. rewrite length_slice by lia. done.
Qed.

Lemma pool_of_app l1 l2 : Forall in_block l1 -> pool_of (l1 ++ l2) = pool_of l2.
Proof.
  induction l1 as [|e l1 IH]; intros Hall; [done|].
  apply Forall_cons in Hall as [He Hall]. destruct e; simpl in *; try done; auto.
Qed.

Lemma next_offset_app l1 l2 :
  Forall in_block l1 -> next_offset (l1 ++ l2) = next_offset l2.
Proof.
  induction l1 as [|e l1 IH]; intros Hall; [done|].
  apply Forall_cons in Hall as [He Hall]. destruct e; simpl in *; try done; auto.
Qed.

Lemma blocks_ok_app powf lit_exp size l1 l2 :
  Forall in_block l1 -> blocks_ok powf lit_exp size l2 ->
  blocks_ok powf lit_exp size (l1 ++ l2).
Proof.
  induction l1 as [|e l1 IH]; intros Hall Hok; [done|].
  apply Forall_cons in Hall as [He Hall]. destruct e; simpl in *; try done; auto.
Qed.

(** One pass adds events of the current block only. *)
Lemma iterated_log_ext {rng} D {C} L size ratio st (w : world rng) st' w' :
  iterated D C L size ratio st w st' w' ->
  exists new, log w' = new ++ log w /\ Forall in_block new.
Proof.
  intros Hit. iterated_cases Hit; rewrite Hlog, Hlog1.
  - by exists [EvLiteralRun (p st1) (slice (mem st') (p st1) len); EvIssue len0];
      split; [|repeat constructor].
  - by exists [EvRepeatRun (p st1) (slice (mem st') (p st1) len); EvIssue len0];
      split; [|repeat constructor].
  - by exists [EvRepeatRun (p st1 + 1) (slice (mem st') (p st1 + 1) len);
               EvBreakLiteral (p st1) (slice m1 (p st1) 1); EvIssue len0];
      split; [|repeat constructor].
  - by exists [EvLiteralRun (p st1) (slice (mem st') (p st1) len); EvIssue len0;
               EvRefill (len_freq st1) (buffer st1)];
      split; [|repeat constructor].
  - by exists [EvRepeatRun (p st1) (slice (mem st') (p st1) len); EvIssue len0;
               EvRefill (len_freq st1) (buffer st1)];
      split; [|repeat constructor].
  - by exists [EvRepeatRun (p st1 + 1) (slice (mem st') (p st1 + 1) len);
               EvBreakLiteral (p st1) (slice m1 (p st1) 1); EvIssue len0;
               EvRefill (len_freq st1) (buffer st1)];
      split; [|repeat constructor].
Qed.

(** The runs of the log stay where they were written. *)
Lemma iterated_run_in {rng} D {C} L (m0 : array byte) ptr size ratio st (w : world rng)
    st' w' :
  0 <= ptr -> ptr + size <= Z.of_nat (length m0) ->
  mem_inv m0 ptr size st -> i st < size ->
  iterated D C L size ratio st w st' w' ->
  Forall (run_in (mem st) (p st)) (log w) ->
  Forall (run_in (mem st') (p st')) (log w').
Proof.
  intros Hptr Hlen Hmi Hi Hit Hall.
  destruct (iterated_mem_inv _ _ _ _ _ _ _ _ _ _ Hmi Hi Hit) as [Hmi' Hprog].
  pose proof (wr_length _ _ _ _ _ (mi_written _ _ _ _ Hmi')) as Hml.
  destruct Hmi as [Hi0 Hp0 _]. destruct Hmi' as [Hi0' Hp0' _].
  assert (Hold : (forall k : nat, Z.of_nat k < p st -> mem st' !! k = mem st !! k) ->
                 Forall (run_in (mem st') (p st')) (log w)).
  { intros Hf. eapply Forall_impl; [exact Hall|].
    intros e He. eapply run_in_frame; eauto. lia. }
  iterated_cases Hit;
    pose proof (sc_p _ _ _ _ _ Hsc) as Hp1; pose proof (sc_i _ _ _ _ _ Hsc) as Hi1;
    pose proof (sc_mem _ _ _ _ _ Hsc) as Hm1;
    pose proof (si_cur _ (sc_inv _ _ _ _ _ Hsc)) as Hcur0;
    assert (Hcur0' : 0 <= cur_len st1 < 256) by exact Hcur0;
    assert (Hpp : p st1 = ptr + i st1) by lia;
    assert (Hii : i st1 < size) by lia;
    assert (Hmz : Z.of_nat (length (mem st')) = Z.of_nat (length m0)) by lia;
    subst len len0; unfold MIN_LEN in *;
    rewrite Hlog, Hlog1.
  (* literal and plain repeat runs *)
  1, 2, 4, 5:
    (repeat (apply Forall_cons; split); try done;
     [apply run_in_slice; lia
     |apply Hold; intros j Hj; rewrite <- Hm1;
      first [apply (wr_frame _ _ _ _ _ Hwr)
            |apply (wr_frame _ _ _ _ _ (proj1 Hwr))]; lia]).
  (* break literal and repeat run *)
  all: pose proof (wr_length _ _ _ _ _ (proj1 Hwr)) as Hml1.
  all: assert (Hmin : 0 <= (3 + cur_len st1) `min` (size - (i st1 + 1))
                      <= size - (i st1 + 1)) by lia.
  all: repeat (apply Forall_cons; split); try done.
  1, 4: (apply run_in_slice; lia).
  1, 3: (simpl; rewrite length_slice by lia; split; [lia|]; split; [lia|];
         apply (slice_frame _ _ _ _ (p st1 + 1)); try lia;
         intros j Hj; apply (wr_frame _ _ _ _ _ (proj1 Hwr)); lia).
  all: apply Hold; intros j Hj; rewrite <- Hm1;
       rewrite (wr_frame _ _ _ _ _ (proj1 Hwr)) by lia;
       apply (wr_frame _ _ _ _ _ Hw1); lia.
Qed.

(** The literals of a pass come from the corpus of the block. *)
Lemma iterated_pool {rng} D {C} L (smp : array byte) (m0 : array byte) ptr size ratio
    st (w : world rng) st' w' :
  (forall v, L v -> Some v ∈ smp) -> Z.of_nat (length smp) = SAMPLE_SIZE ->
  0 <= ptr -> mem_inv m0 ptr size st -> i st < size ->
  iterated D C L size ratio st w st' w' ->
  literals_from_pool (log w) /\ pool_of (log w) = Some smp ->
  literals_from_pool (log w') /\ pool_of (log w') = Some smp.
Proof.
  intros HL Hsl Hptr Hmi Hi Hit [Hlit Hpool].
  destruct Hmi as [Hi0 Hp0 _].
  assert (Hfrom : forall (a a' : array byte) off n,
            written L a a' off n -> 0 <= off -> 0 <= n ->
            from_samples (slice a' off n) (Some smp)).
  { intros a a' off n Hw Hoff Hn cell Hin.
    destruct (written_slice _ _ _ _ _ _ Hw Hoff Hn Hin) as (v & -> & Hv).
    apply HL, list_elem_of_lookup in Hv as [k Hk].
    exists v, k. split; [done|]. split; [|done].
    apply lookup_lt_Some in Hk. lia. }
  iterated_cases Hit;
    pose proof (sc_p _ _ _ _ _ Hsc) as Hp1; pose proof (sc_i _ _ _ _ _ Hsc) as Hi1;
    pose proof (si_cur _ (sc_inv _ _ _ _ _ Hsc)) as Hcur0;
    assert (Hcur0' : 0 <= cur_len st1 < 256) by exact Hcur0;
    subst len len0; unfold MIN_LEN in *;
    rewrite Hlog, Hlog1; cbn [literals_from_pool pool_of]; rewrite ?Hpool;
    repeat split; try done;
    eapply Hfrom; eauto; lia.
Qed.

Section Bulk.
Context {rng : Type}.
Variable pcg32_random : rng -> Z * rng.
Variable powf : float -> float -> float.
Variables ratio len_exp lit_exp : double.

Let source := safe_source_any pcg32_random powf len_exp lit_exp.

Lemma lzdg_generate_data_bulk_blocks (m : array byte) size g :
  0 <= size <= SIZE_MAX -> size <= Z.of_nat (length m) ->
  wp sampling_fault
     (lzdg_generate_data_bulk pcg32_random powf m size ratio len_exp lit_exp)
     (fun m' w' => blocks_ok powf lit_exp size (log w') /\
                   next_offset (log w') = size /\
                   literals_from_pool (log w') /\
                   Forall (run_in m' size) (log w')) (World g []).
Proof.
  intros Hsize Hlen. unfold lzdg_generate_data_bulk.
  eapply wp_mono.
  { apply (bulk_loop_spec _ _ _ _ _ _ _ source
             (fun m' offs w' =>
                literals_from_pool (log w') /\
                blocks_ok powf lit_exp size (log w') /\
                next_offset (log w') = offs /\
                Forall (run_in m' offs) (log w') /\ length m' = length m)
             (fun m' offs smp st w' =>
                (literals_from_pool (log w') /\ pool_of (log w') = Some smp) /\
                Forall (run_in (mem st) (p st)) (log w') /\
                blocks_ok powf lit_exp size (log w') /\
                next_offset (log w') = offs + block_size size offs /\
                Z.of_nat (length smp) = SAMPLE_SIZE /\
                0 <= offs < size /\ length m' = length m) m);
      try done; try lia.
    - (* a block starts *)
      intros m1 offs w1 smp w2 (Hlit & Hblk & Hnext & Hrun & Hl) Hoffs Hcorp Hlog.
      assert (Hnr : 1 <= block_size size offs <= BLOCK_SIZE).
      { unfold block_size, BLOCK_SIZE. lia. }
      rewrite Hlog. cbn [literals_from_pool pool_of blocks_ok next_offset].
      split; [done|]. split.
      { apply Forall_cons. split; [done|]. exact Hrun. }
      split.
      { split; [lia|]. split; [lia|]. split; [done|]. split; [lia|].
        split; [exact Hcorp|exact Hblk]. }
      split; [done|]. split; [apply Hcorp|done].
    - (* a pass within the block *)
      intros m1 offs smp st0 w0 st' w'
        (Hlp & Hrun & Hblk & Hnext & Hsl & Hoffs & Hl) _ Hmi Hi Hit.
      assert (Hnr : 1 <= block_size size offs <= size - offs).
      { unfold block_size, BLOCK_SIZE. lia. }
      destruct (iterated_log_ext _ _ _ _ _ _ _ _ Hit) as (new & Hnew & Hin).
      split.
      { eapply (iterated_pool _ _ smp m1 offs); try exact Hit; try done; try lia. }
      split.
      { eapply (iterated_run_in _ _ m1 offs); try exact Hit; try done; lia. }
      rewrite Hnew. split; [by apply blocks_ok_app|].
      split; [by rewrite next_offset_app|done].
    - (* the block is complete *)
      intros m1 offs w1 smp st' w' _ Hoffs
        ((Hlit & _) & Hrun & Hblk & Hnext & _ & _ & Hl) Hmi Hi.
      split; [done|]. split; [done|]. split; [done|].
      split.
      + replace (offs + block_size size offs) with (p st'); [done|].
        rewrite (mi_p _ _ _ _ Hmi). lia.
      + rewrite (wr_length _ _ _ _ _ (mi_written _ _ _ _ Hmi)). done. }
  intros m' w' ((Hlit & Hblk & Hnext & Hrun & _) & _). done.
Qed.
End Bulk.


(** ** Determinism *)

Section Relational.
Context {rng : Type}.
Implicit Types (w : world rng).

Lemma wp2_ret {A} (R : A -> A -> Prop) a1 a2 w :
  R a1 a2 -> wp2 (ret a1) (ret a2) R w.
Proof. intros H. split; [exact H|reflexivity]. Qed.

Lemma wp2_bind {A B} (c1 c2 : M rng A) (k1 k2 : A -> M rng B)
    (R' : A -> A -> Prop) (R : B -> B -> Prop) w :
  wp2 c1 c2 R' w ->
  (forall a1 a2 w', R' a1 a2 -> wp2 (k1 a1) (k2 a2) R w') ->
  wp2 (bind c1 k1) (bind c2 k2) R w.
Proof.
  unfold wp2, bind. intros H Hk.
  destruct (c1 w) as [[a1 w1]|f1], (c2 w) as [[a2 w2]|f2]; try done.
  destruct H as [HR <-]. apply Hk. exact HR.
Qed.

Lemma wp2_refl {A} (c : M rng A) w : wp2 c c eq w.
Proof. unfold wp2. destruct (c w) as [[a w']|f]; done. Qed.

Lemma wp2_mono {A} (c1 c2 : M rng A) (R R' : A -> A -> Prop) w :
  wp2 c1 c2 R w -> (forall a1 a2, R a1 a2 -> R' a1 a2) -> wp2 c1 c2 R' w.
Proof.
  unfold wp2. intros H HR.
  destruct (c1 w) as [[a1 w1]|f1], (c2 w) as [[a2 w2]|f2]; try done.
  destruct H as [H <-]. split; [by apply HR|done].
Qed.

(** What a run is known to return can be added to the relation. *)
Lemma wp2_with {A} E (c1 c2 : M rng A) (Q : A -> world rng -> Prop)
    (R : A -> A -> Prop) w :
  wp E c1 Q w -> wp2 c1 c2 R w ->
  wp2 c1 c2 (fun a1 a2 => R a1 a2 /\ exists w', Q a1 w') w.
Proof.
  unfold wp, wp2. intros HQ H.
  destruct (c1 w) as [[a1 w1]|f1], (c2 w) as [[a2 w2]|f2]; try done.
  destruct H as [H <-]. split; [|done]. split; [done|]. by exists w1.
Qed.

Lemma wp2_for_loop {S} (R : Z -> S -> S -> Prop) (body1 body2 : Z -> S -> M rng S)
    (count : nat) (j : Z) (s1 s2 : S) w :
  R j s1 s2 ->
  (forall j' s1' s2' w', j <= j' < j + Z.of_nat count -> R j' s1' s2' ->
      wp2 (body1 j' s1') (body2 j' s2') (R (j' + 1)) w') ->
  wp2 (for_loop count j body1 s1) (for_loop count j body2 s2)
      (R (j + Z.of_nat count)) w.
Proof.
  revert j s1 s2 w. induction count as [|n IH]; intros j s1 s2 w HR Hbody.
  - simpl. apply wp2_ret. replace (j + Z.of_nat 0) with j by lia. exact HR.
  - simpl. eapply wp2_bind; [apply Hbody; [lia|exact HR]|].
    intros a1 a2 w' HR'.
    replace (j + Z.of_nat (Datatypes.S n)) with (j + 1 + Z.of_nat n) by lia.
    apply IH; [exact HR'|].
    intros j' s1' s2' w'' Hj. apply Hbody. lia.
Qed.

(** The same store into two buffers that agree up to the cell stored. *)
Lemma wp2_store lo (m1 m2 : array byte) k v w :
  agree lo k m1 m2 -> 0 <= lo <= k ->
  wp2 (lift (store m1 k v)) (lift (store m2 k v)) (agree lo (k + 1)) w.
Proof.
  intros [Hl Ha] Hk. unfold wp2, lift, store. rewrite Hl.
  destruct (_ && _) eqn:Hb; [|done]. split; [|done]. split.
  - rewrite !length_insert. done.
  - intros j Hj. destruct (decide (j = Z.to_nat k)) as [->|Hne].
    + apply andb_prop in Hb as [_ Hb]. apply Z.ltb_lt in Hb.
      rewrite !list_lookup_insert_eq by lia. done.
    + rewrite !list_lookup_insert_ne by lia. apply Ha. lia.
Qed.

Lemma agree_slice lo hi (m1 m2 : array byte) off n :
  agree lo hi m1 m2 -> 0 <= lo <= off -> off + Z.of_nat (Z.to_nat n) <= hi ->
  slice m1 off n = slice m2 off n.
Proof.
  intros [Hl Ha] Hoff Hn. unfold slice. apply list_eq. intros k.
  destruct (decide (k < Z.to_nat n)%nat) as [Hk|Hk].
  - rewrite !lookup_take_lt by done. rewrite !lookup_drop. apply Ha. lia.
  - rewrite !lookup_take_ge by lia. done.
Qed.

Lemma agree_weaken lo hi hi' (m1 m2 : array byte) :
  agree lo hi m1 m2 -> hi' <= hi -> agree lo hi' m1 m2.
Proof. intros [Hl Ha] Hle. split; [done|]. intros k Hk. apply Ha. lia. Qed.
End Relational.

(** A step that both runs make alike. *)
Ltac wp2_same :=
  eapply wp2_bind; [apply wp2_refl|]; intros ? ? ? <-.

Section RelationalSpecs.
Context {rng : Type}.
Variable pcg32_random : rng -> Z * rng.
Variable powf : float -> float -> float.
Variables ratio len_exp lit_exp : double.
Implicit Types (w : world rng).

Lemma wp2_fail {A} f (R : A -> A -> Prop) w : wp2 (rng := rng) (fail f) (fail f) R w.
Proof. reflexivity. Qed.

Lemma generate_literals_rel lo (m1 m2 : array byte) ptr size samples w :
  agree lo ptr m1 m2 -> 0 <= lo <= ptr ->
  wp2 (generate_literals pcg32_random powf m1 ptr size lit_exp samples)
      (generate_literals pcg32_random powf m2 ptr size lit_exp samples)
      (agree lo (ptr + Z.of_nat (Z.to_nat size))) w.
Proof.
  intros Ha Hlo.
  destruct samples as [s|]; simpl;
    [unfold generate_literals_from_samples
    |unfold generate_literals_from_distribution].
  all: apply (wp2_for_loop (fun j a1 a2 => agree lo (ptr + j) a1 a2));
    [by rewrite Z.add_0_r|].
  all: intros j a1 a2 w' Hj Hag; wp2_same; wp2_same.
  all: replace (ptr + (j + 1)) with (ptr + j + 1) by lia.
  all: apply wp2_store; [done|lia].
Qed.

Lemma memcpy_rel lo (m1 m2 : array byte) d (src : array byte) n w :
  agree lo d m1 m2 -> 0 <= lo <= d ->
  wp2 (memcpy (rng := rng) m1 d src n) (memcpy m2 d src n)
      (agree lo (d + Z.of_nat (Z.to_nat n))) w.
Proof.
  intros Ha Hlo. unfold memcpy.
  apply (wp2_for_loop (fun j a1 a2 => agree lo (d + j) a1 a2));
    [by rewrite Z.add_0_r|].
  intros j a1 a2 w' Hj Hag. wp2_same.
  replace (d + (j + 1)) with (d + j + 1) by lia.
  apply wp2_store; [done|lia].
Qed.

Lemma find_length_rel lo fuel samples st1 st2 w :
  locals_rel lo st1 st2 ->
  wp2 (find_length pcg32_random powf fuel len_exp lit_exp samples st1)
      (find_length pcg32_random powf fuel len_exp lit_exp samples st2)
      (locals_rel lo) w.
Proof.
  revert st1 st2 w. induction fuel as [|fuel IH]; intros st1 st2 w Hrel.
  all: pose proof Hrel as (Hlf & Hb & Hp & Hc & Hi & Hl & Hlo & Ha).
  all: simpl; rewrite <- Hlf, <- Hc; wp2_same.
  all: destruct (_ =? 0); [|by apply wp2_ret].
  - apply wp2_fail.
  - eapply wp2_bind.
    + destruct (cur_len st1 =? 0).
      * rewrite <- Hb. wp2_same. wp2_same. wp2_same.
        apply (wp2_ret (locals_rel lo)). rewrite <- Hp, <- Hi, <- Hl.
        split; [done|]. split; [done|]. split; [done|]. split; [done|].
        split; [done|]. split; [done|]. split; [done|]. exact Ha.
      * apply (wp2_ret (locals_rel lo)). exact Hrel.
    + intros st1' st2' w1 (Hlf' & Hb' & Hp' & Hc' & Hi' & Hl' & Hlo' & Ha').
      apply IH. rewrite <- Hlf', <- Hb', <- Hp', <- Hc', <- Hi', <- Hl'.
      split; [done|]. split; [done|]. split; [done|]. split; [done|].
      split; [done|]. split; [done|]. split; [done|]. exact Ha'.
Qed.

Lemma size_wrap_nonneg z : 0 <= size_wrap z.
Proof. unfold size_wrap. apply Z.mod_pos_bound. reflexivity. Qed.

Lemma clamp_nonneg size pos len : 0 <= len -> 0 <= clamp size pos len.
Proof.
  intros H. unfold clamp. destruct (_ <? _); [apply size_wrap_nonneg|exact H].
Qed.

Lemma iteration_rel lo size samples st1 st2 w :
  locals_rel lo st1 st2 ->
  wp2 (iteration pcg32_random powf size ratio len_exp lit_exp samples st1)
      (iteration pcg32_random powf size ratio len_exp lit_exp samples st2)
      (locals_rel lo) w.
Proof.
  intros Hrel. unfold iteration.
  eapply wp2_bind; [apply find_length_rel; exact Hrel|].
  intros s1 s2 w1 (Hlf & Hb & Hp & Hc & Hi & Hl & Hlo & Ha).
  rewrite <- Hlf, <- Hb, <- Hp, <- Hc, <- Hi, <- Hl.
  set (len0 := size_wrap (MIN_LEN + cur_len s1)).
  assert (Hlen0 : 0 <= len0) by apply size_wrap_nonneg.
  set (len := clamp size (i s1) len0).
  assert (Hlen : 0 <= len) by (apply clamp_nonneg; exact Hlen0).
  wp2_same. wp2_same. wp2_same. wp2_same.
  destruct (d_ltb _ _).
  - (* literal run *)
    eapply wp2_bind; [apply (generate_literals_rel lo); [exact Ha|exact Hlo]|].
    intros m1 m2 w2 Hag.
    rewrite (agree_slice _ _ _ _ _ _ Hag) by lia.
    wp2_same. apply (wp2_ret (locals_rel lo)). unfold locals_rel. simpl.
    split; [done|]. split; [done|]. split; [done|]. split; [done|].
    split; [done|]. split; [done|]. split; [lia|].
    replace (p s1 + len) with (p s1 + Z.of_nat (Z.to_nat len)) by lia. exact Hag.
  - (* repeat run, after a break literal if the last run was one *)
    eapply (wp2_bind _ _ _ _
              (fun b1 b2 =>
                 let '(m1, p1, i1, l1) := b1 in
                 let '(m2, p2, i2, l2) := b2 in
                 p1 = p2 /\ i1 = i2 /\ l1 = l2 /\ 0 <= lo <= p1 /\ 0 <= l1 /\
                 agree lo p1 m1 m2)).
    + destruct (last_was_match s1).
      * eapply wp2_bind; [apply (generate_literals_rel lo); [exact Ha|exact Hlo]|].
        intros m1 m2 w2 Hag.
        rewrite (agree_slice _ _ _ _ _ _ Hag) by lia.
        wp2_same. apply wp2_ret.
        split; [done|]. split; [done|]. split; [done|]. split; [lia|].
        split; [by apply clamp_nonneg|exact Hag].
      * apply wp2_ret. done.
    + intros [[[m1 p1] i1] l1] [[[m2 p2] i2] l2] w2 (<- & <- & <- & Hlo1 & Hl1 & Hag).
      eapply wp2_bind; [apply (memcpy_rel lo); [exact Hag|exact Hlo1]|].
      intros m1' m2' w3 Hag'.
      rewrite (agree_slice _ _ _ _ _ _ Hag') by lia.
      wp2_same. apply (wp2_ret (locals_rel lo)). unfold locals_rel. simpl.
      split; [done|]. split; [done|]. split; [done|]. split; [done|].
      split; [done|]. split; [done|]. split; [lia|].
      replace (p1 + l1) with (p1 + Z.of_nat (Z.to_nat l1)) by lia. exact Hag'.
Qed.

Lemma main_loop_rel lo fuel size samples st1 st2 w :
  locals_rel lo st1 st2 ->
  wp2 (main_loop pcg32_random powf fuel size ratio len_exp lit_exp samples st1)
      (main_loop pcg32_random powf fuel size ratio len_exp lit_exp samples st2)
      (locals_rel lo) w.
Proof.
  revert st1 st2 w. induction fuel as [|fuel IH]; intros st1 st2 w Hrel.
  all: pose proof Hrel as (_ & _ & _ & _ & Hi & _); simpl; rewrite <- Hi.
  all: destruct (_ <? _); [|by apply wp2_ret].
  - apply wp2_fail.
  - eapply wp2_bind; [apply iteration_rel; exact Hrel|].
    intros s1 s2 w' Hrel'. by apply IH.
Qed.

Lemma generate_data_run_rel lo (m1 m2 : array byte) ptr size samples w :
  agree lo ptr m1 m2 -> 0 <= lo <= ptr ->
  wp2 (generate_data_run pcg32_random powf m1 ptr size ratio len_exp lit_exp samples)
      (generate_data_run pcg32_random powf m2 ptr size ratio len_exp lit_exp samples)
      (locals_rel lo) w.
Proof.
  intros Ha Hlo. unfold generate_data_run.
  eapply (wp2_bind _ _ _ _ (locals_rel lo)).
  - unfold initial_locals. destruct (store _ _ _) as [lf|f]; [|reflexivity].
    apply (wp2_ret (locals_rel lo)). unfold locals_rel. simpl.
    split; [done|]. split; [done|]. split; [done|]. split; [done|].
    split; [done|]. split; [done|]. split; [done|]. exact Ha.
  - intros s1 s2 w' Hrel. by apply main_loop_rel.
Qed.

Lemma generate_data_internal_rel lo (m1 m2 : array byte) ptr size samples w :
  agree lo ptr m1 m2 -> 0 <= lo <= ptr ->
  0 <= size <= SIZE_MAX -> ptr + size <= Z.of_nat (length m1) ->
  samples_ok samples ->
  wp2 (generate_data_internal pcg32_random powf m1 ptr size ratio len_exp lit_exp
         samples)
      (generate_data_internal pcg32_random powf m2 ptr size ratio len_exp lit_exp
         samples)
      (fun m1' m2' => agree lo (ptr + size) m1' m2' /\ length m1' = length m1) w.
Proof.
  intros Ha Hlo Hsize Hlen Hs. unfold generate_data_internal.
  eapply wp2_bind.
  - eapply (wp2_with sampling_fault).
    + apply (generate_data_run_spec _ _ _ _ _ _ _
               (safe_source_any pcg32_random powf len_exp lit_exp)
               (fun _ _ => True) m1 ptr size ratio samples); try done. lia.
    + apply (generate_data_run_rel lo); [exact Ha|exact Hlo].
  - intros s1 s2 w' [Hrel (w1 & _ & _ & Hmi & Hi & _)]. apply wp2_ret.
    destruct Hrel as (_ & _ & _ & _ & _ & _ & _ & Hag).
    rewrite (mi_p _ _ _ _ Hmi), Hi in Hag. split; [exact Hag|].
    apply (wr_length _ _ _ _ _ (mi_written _ _ _ _ Hmi)).
Qed.

Lemma bulk_loop_rel fuel (m1 m2 : array byte) size (samples : array byte) offs w :
  agree 0 offs m1 m2 -> 0 <= offs <= size -> size <= SIZE_MAX ->
  size <= Z.of_nat (length m1) -> Z.of_nat (length samples) = SAMPLE_SIZE ->
  wp2 (bulk_loop pcg32_random powf fuel m1 size ratio len_exp lit_exp samples offs)
      (bulk_loop pcg32_random powf fuel m2 size ratio len_exp lit_exp samples offs)
      (agree 0 size) w.
Proof.
  revert m1 m2 samples offs w.
  induction fuel as [|fuel IH]; intros m1 m2 samples offs w Ha Hoffs Hsize Hlen Hsl.
  all: cbn [bulk_loop]; destruct (Z.ltb_spec offs size) as [Hlt|Hge];
    [|apply wp2_ret; assert (offs = size) as <- by lia; exact Ha].
  - apply wp2_fail.
  - rewrite (size_wrap_small (size - offs)) by lia.
    assert (Hnum : (if BLOCK_SIZE <? size - offs then BLOCK_SIZE else size - offs)
                   = block_size size offs).
    { unfold block_size. destruct (Z.ltb_spec BLOCK_SIZE (size - offs)); lia. }
    rewrite Hnum.
    assert (Hnr : 1 <= block_size size offs <= size - offs).
    { unfold block_size, BLOCK_SIZE. lia. }
    eapply wp2_bind.
    { eapply (wp2_with sampling_fault).
      - apply (generate_literals_spec _ _ _ _ _ _ _
                 (safe_source_any pcg32_random powf len_exp lit_exp)
                 samples 0 SAMPLE_SIZE None);
          [lia|unfold SAMPLE_SIZE; lia|lia|exact Logic.I|exact Logic.I].
      - apply wp2_refl. }
    intros smp ? w1 [<- (w1' & Hsmp & _)].
    assert (Hsok : samples_ok (Some smp)).
    { split; [rewrite (wr_length _ _ _ _ _ Hsmp); done|].
      intros k Hk. destruct (wr_cells _ _ _ _ _ Hsmp k) as (v & Hv & _); [|by exists v].
      rewrite (wr_length _ _ _ _ _ Hsmp) in Hk. lia. }
    wp2_same.
    eapply wp2_bind.
    { apply (generate_data_internal_rel 0 m1 m2 offs (block_size size offs));
        try done; lia. }
    intros m1' m2' w2 [Hag Hl'].
    rewrite (size_wrap_small (offs + block_size size offs)) by lia.
    apply IH; try done; try lia.
    rewrite (wr_length _ _ _ _ _ Hsmp). done.
Qed.
End RelationalSpecs.

(** C9. Generation is deterministic in the random source.  Two runs of an
    entry point that start from the same state of the source with the same
    parameters, on any two buffers of one length, end alike: with the same
    fault, or with the same state of the source, the same log and the same
    [size] bytes of output.  The output does not depend on what the buffer
    held before the call, nor on anything else the source of randomness
    does not determine. *)
Theorem generation_deterministic {rng} (pcg32_random : rng -> Z * rng)
    (powf : float -> float -> float) (m1 m2 : array byte) (size : Z)
    (ratio len_exp lit_exp : double) (w : world rng) :
  length m1 = length m2 ->
  0 <= size <= SIZE_MAX -> size <= Z.of_nat (length m1) ->
  wp2 (lzdg_generate_data pcg32_random powf m1 size ratio len_exp lit_exp)
      (lzdg_generate_data pcg32_random powf m2 size ratio len_exp lit_exp)
      (fun m1' m2' => slice m1' 0 size = slice m2' 0 size) w /\
  wp2 (lzdg_generate_data_bulk pcg32_random powf m1 size ratio len_exp lit_exp)
      (lzdg_generate_data_bulk pcg32_random powf m2 size ratio len_exp lit_exp)
      (fun m1' m2' => slice m1' 0 size = slice m2' 0 size) w.
Proof.
  intros Hl Hsize Hlen.
  assert (Ha : agree 0 0 m1 m2) by (split; [exact Hl|intros k Hk; lia]).
  split.
  - eapply wp2_mono.
    + apply (generate_data_internal_rel pcg32_random powf ratio len_exp lit_exp
               0 m1 m2 0 size None w); try done.
    + intros m1' m2' [Hag _]. eapply agree_slice; [exact Hag|lia|lia].
  - eapply wp2_mono.
    + unfold lzdg_generate_data_bulk. apply bulk_loop_rel; try done; lia.
    + intros m1' m2' Hag. eapply agree_slice; [exact Hag|lia|lia].
Qed.

(** ** Runs that return *)

Section Returns.
Context {rng : Type}.
Implicit Types (w : world rng).

(** What holds of a run if it returns holds of a run that returns. *)
Lemma wp_returns {A} E (c : M rng A) (Q1 Q2 : A -> world rng -> Prop) w :
  wp E c Q1 w -> wp no_fault c Q2 w ->
  wp no_fault c (fun a w' => Q1 a w' /\ Q2 a w') w.
Proof. unfold wp. destruct (c w) as [[a w']|f]; done. Qed.

Lemma wp_of_ok {A} E (c : M rng A) (Q : A -> world rng -> Prop) w a w' :
  c w = Ok (a, w') -> Q a w' -> wp E c Q w.
Proof. unfold wp. by intros ->. Qed.

Lemma wp_of_fault {A} E (c : M rng A) (Q : A -> world rng -> Prop) w f :
  c w = Fault f -> E f -> wp E c Q w.
Proof. unfold wp. by intros ->. Qed.
End Returns.

(** * Instances

    The theorems above at concrete calls: unless said otherwise 8 bytes,
    ratio 3.0, both exponents 1.0, the linear congruential source started
    at 1.  Where a property speaks of several runs, lengths or refills the
    call is one whose log has them, and the instance says so. *)

Lemma size_8_in_range : 0 <= 8 <= SIZE_MAX.
Proof. unfold SIZE_MAX. split; discriminate. Defined.

Lemma buffer_8_holds_8 : 8 <= Z.of_nat (length (fresh_array byte 8)).
Proof. discriminate. Defined.

Lemma generate_writes_exactly_size_witness :
  0 <= 8 <= SIZE_MAX /\ 8 <= Z.of_nat (length (fresh_array byte 8)) /\
  wp no_fault
     (lzdg_generate_data lcg_random powf_exp1 (fresh_array byte 8) 8
        d_three d_one d_one)
     (fun m' _ => written (fun _ => True) (fresh_array byte 8) m' 0 8 /\
                  slice m' 0 8 <> slice (fresh_array byte 8) 0 8)
     (World 1 []).
Proof.
  split; [exact size_8_in_range|]. split; [exact buffer_8_holds_8|].
  apply (wp_returns _ _ _ _ _
           (proj1 (generate_writes_exactly_size lcg_random powf_exp1
                     (fresh_array byte 8) 8 d_three d_one d_one (World 1 [])
                     size_8_in_range buffer_8_holds_8))).
  vm_compute. discriminate.
Defined.

(** A call of 1200 bytes from the seed 7: a literal run, then three repeat
    runs with a break literal before the second and the third, then a
    literal run. *)
Lemma repeat_runs_separated_witness :
  0 <= 1200 <= SIZE_MAX /\ 1200 <= Z.of_nat (length (fresh_array byte 1200)) /\
  wp no_fault
     (lzdg_generate_data lcg_random powf_exp1 (fresh_array byte 1200) 1200
        d_three d_one d_one)
     (fun _ w' => separated (log w') /\
                  count_events is_repeat (log w') = 3%nat /\
                  count_events is_break (log w') = 2%nat /\
                  count_events is_literal_run (log w') = 2%nat) (World 7 []).
Proof.
  assert (H1 : 0 <= 1200 <= SIZE_MAX) by (split; discriminate).
  assert (H2 : 1200 <= Z.of_nat (length (fresh_array byte 1200))) by discriminate.
  split; [exact H1|]. split; [exact H2|].
  apply (wp_returns _ _ _ _ _
           (proj1 (repeat_runs_separated lcg_random powf_exp1
                     (fresh_array byte 1200) 1200 d_three d_one d_one 7 H1 H2))).
  vm_compute. repeat split.
Defined.

Lemma ratio_one_only_literals_witness :
  0 <= 8 <= SIZE_MAX /\ 8 <= Z.of_nat (length (fresh_array byte 8)) /\
  Forall literal_only (log (World 1 [])) /\
  wp sampling_fault
     (lzdg_generate_data lcg_random powf_exp1 (fresh_array byte 8) 8
        d_one d_one d_one)
     (fun _ w' => Forall literal_only (log w')) (World 1 []).
Proof.
  split; [exact size_8_in_range|]. split; [exact buffer_8_holds_8|].
  split; [apply Forall_nil_2|].
  exact (proj1 (proj2 (ratio_one_only_literals lcg_random powf_exp1
                  (fresh_array byte 8) 8 d_one d_one (World 1 [])
                  size_8_in_range buffer_8_holds_8 (Forall_nil_2 _)))).
Defined.

Lemma generation_terminates_witness :
  0 <= 8 <= SIZE_MAX /\ 8 <= Z.of_nat (length (fresh_array byte 8)) /\
  Forall refill_full (log (World 1 [])) /\
  lzdg_generate_data lcg_random powf_exp1 (fresh_array byte 8) 8
    d_three d_one d_one (World 1 []) <> Fault OutOfFuel.
Proof.
  split; [exact size_8_in_range|]. split; [exact buffer_8_holds_8|].
  split; [apply Forall_nil_2|].
  exact (proj1 (generation_terminates lcg_random powf_exp1
                  (fresh_array byte 8) 8 d_three d_one d_one (World 1 [])
                  size_8_in_range buffer_8_holds_8 (Forall_nil_2 _))).
Defined.


(** A call of 2800 bytes at ratio 1000 with the source [low_random]: the
    lengths of the first refill are issued from 6 down to 3, all 512 of
    them, before the second refill, whose first lengths follow. *)
Lemma lengths_issued_top_down_witness :
  0 <= 2800 <= SIZE_MAX /\ 2800 <= Z.of_nat (length (fresh_array byte 2800)) /\
  wp no_fault
     (lzdg_generate_data low_random powf_exp1 (fresh_array byte 2800) 2800
        d_thousand d_one d_one)
     (fun _ w' => (cycles_ok (log w') /\ issued_nonincreasing (log w')) /\
                  count_events is_refill (log w') = 2%nat /\
                  count_events (is_issue_of 6) (log w') = 128%nat /\
                  count_events (is_issue_of 5) (log w') = 123%nat /\
                  count_events (is_issue_of 4) (log w') = 134%nat /\
                  count_events (is_issue_of 3) (log w') = 143%nat) (World 7 []).
Proof.
  assert (H1 : 0 <= 2800 <= SIZE_MAX) by (split; discriminate).
  assert (H2 : 2800 <= Z.of_nat (length (fresh_array byte 2800))) by discriminate.
  split; [exact H1|]. split; [exact H2|].
  apply (wp_returns _ _ _ _ _
           (proj1 (lengths_issued_top_down low_random powf_exp1
                     (fresh_array byte 2800) 2800 d_thousand d_one d_one 7 H1 H2))).
  vm_compute. repeat split.
Defined.

Lemma run_lengths_in_range_witness :
  0 <= 8 <= SIZE_MAX /\ 8 <= Z.of_nat (length (fresh_array byte 8)) /\
  wp sampling_fault
     (lzdg_generate_data lcg_random powf_exp1 (fresh_array byte 8) 8
        d_three d_one d_one)
     (fun _ w' => Forall issue_in_range (log w') /\
                  Forall (repeat_clamped 8) (log w')) (World 1 []).
Proof.
  split; [exact size_8_in_range|]. split; [exact buffer_8_holds_8|].
  exact (proj1 (run_lengths_in_range lcg_random powf_exp1
                  (fresh_array byte 8) 8 d_three d_one d_one 1
                  size_8_in_range buffer_8_holds_8)).
Defined.

Lemma generation_deterministic_witness :
  length (fresh_array byte 8) = length (replicate 8 (Some "000"%byte)) /\
  0 <= 8 <= SIZE_MAX /\ 8 <= Z.of_nat (length (fresh_array byte 8)) /\
  wp2 (lzdg_generate_data lcg_random powf_exp1 (fresh_array byte 8) 8
         d_three d_one d_one)
      (lzdg_generate_data lcg_random powf_exp1 (replicate 8 (Some "000"%byte)) 8
         d_three d_one d_one)
      (fun m1' m2' => slice m1' 0 8 = slice m2' 0 8) (World 1 []).
Proof.
  split; [reflexivity|].
  split; [exact size_8_in_range|]. split; [exact buffer_8_holds_8|].
  exact (proj1 (generation_deterministic lcg_random powf_exp1
                  (fresh_array byte 8) (replicate 8 (Some "000"%byte)) 8
                  d_three d_one d_one (World 1 [])
                  eq_refl size_8_in_range buffer_8_holds_8)).
Defined.

Lemma repeat_runs_scratch_prefixes_witness :
  0 <= 8 <= SIZE_MAX /\ 8 <= Z.of_nat (length (fresh_array byte 8)) /\
  wp sampling_fault
     (lzdg_generate_data lcg_random powf_exp1 (fresh_array byte 8) 8
        d_three d_one d_one)
     (fun _ w' => repeats_from_scratch (log w') /\ cycle_prefixes (log w'))
     (World 1 []).
Proof.
  split; [exact size_8_in_range|]. split; [exact buffer_8_holds_8|].
  exact (proj1 (repeat_runs_scratch_prefixes lcg_random powf_exp1
                  (fresh_array byte 8) 8 d_three d_one d_one 1
                  size_8_in_range buffer_8_holds_8)).
Defined.

(** * Further properties of the code *)

(** ** [rand_double] *)

Lemma iter_xO_pow2 p n : Z.pos (Pos.iter xO p n) = Z.pos p * 2 ^ Z.pos n.
Proof.
  induction n using Pos.peano_ind.
  - simpl. lia.
  - rewrite Pos.iter_succ, Pos2Z.inj_xO, IHn, Pos2Z.inj_succ, Z.pow_succ_r by lia.
    lia.
Qed.

Lemma uniform_is_quotient k : is_uint32 k -> is_quotient k (uniform k).
Proof.
  intros [H0 H1]. destruct k as [|p|p]; [reflexivity| |lia].
  rewrite uniform_pos by lia. pose proof (digits2_uint32 p H1) as Hd.
  cbn [is_quotient]. split; [lia|].
  rewrite iter_xO_pow2, Z2Pos.id by lia.
  rewrite <- Z.mul_assoc, <- Z.pow_add_r by lia. do 2 f_equal. lia.
Qed.

Lemma is_quotient_inj k1 k2 x : is_quotient k1 x -> is_quotient k2 x -> k1 = k2.
Proof.
  destruct x as [[]| | |[] m e]; simpl; try done; try congruence.
  intros [He H1] [_ H2].
  assert (0 < 2 ^ (- e)) by (apply Z.pow_pos_nonneg; lia). nia.
Qed.

Lemma uniform_nonneg k : is_uint32 k -> d_leb (S754_zero false) (uniform k) = true.
Proof.
  intros Hk. pose proof (uniform_is_quotient k Hk) as Hq.
  destruct (uniform k) as [[]| | |[] m e]; simpl in Hq; done.
Qed.

(** [rand_double] takes one draw [k] of the source and returns the double
    [k / 2^32] exactly: no rounding takes place, the value is at least 0
    and below 1, and two different draws give two different values. *)
Theorem rand_double_exact {rng} (pcg32_random : rng -> Z * rng) (w : world rng) :
  let k := uint_wrap (fst (pcg32_random (gen w))) in
  rand_double pcg32_random w
    = Ok (uniform k, World (snd (pcg32_random (gen w))) (log w)) /\
  is_quotient k (uniform k) /\
  d_leb (S754_zero false) (uniform k) = true /\
  d_ltb (uniform k) d_one = true /\
  (forall k', is_uint32 k' -> uniform k' = uniform k -> k' = k).
Proof.
  intros k. pose proof (uint_wrap_range (fst (pcg32_random (gen w)))) as Hk.
  fold k in Hk. split; [|split; [|split; [|split]]].
  - unfold rand_double, bind, pcg32, ret. subst k.
    destruct (pcg32_random (gen w)) as [d g]. reflexivity.
  - by apply uniform_is_quotient.
  - by apply uniform_nonneg.
  - by apply uniform_lt_one.
  - intros k' Hk' Heq. apply (is_quotient_inj k' k (uniform k)).
    + rewrite <- Heq. by apply uniform_is_quotient.
    + by apply uniform_is_quotient.
Qed.

(** ** The cast of a literal sample *)

(** The operand of the cast
    [(unsigned char) (256 * powf((float) u, (float) lit_exp))] of
    [generate_literals_from_distribution].  For a draw within 128 of
    [2^32] the narrowing [(float) u] gives 1.0f and, [powf(1.0f, y)] being
    1.0f, the product is exactly 256.0f: its integral part 256 is not a
    value of [unsigned char], so C leaves the conversion undefined (C11
    6.3.1.4).  What a build makes of the conversion is not part of this
    statement.  The draw [2^32 - 129] still narrows below 1.0f. *)
Theorem literal_cast_undefined (powf : float -> float -> float)
    (lit_exp : double) (k : Z) :
  (forall y, powf f_one y = f_one) -> 2 ^ 32 - 128 <= k < 2 ^ 32 ->
  double_to_float (uniform k) = f_one /\
  power_sample powf 256 (uniform k) lit_exp = int_to_float 256 /\
  trunc (power_sample powf 256 (uniform k) lit_exp) = Some 256 /\
  Byte.of_N (Z.to_N 256) = None /\
  double_to_float (uniform (2 ^ 32 - 129)) <> f_one.
Proof.
  intros Hpow Hk.
  assert (Hs : power_sample powf 256 (uniform k) lit_exp = int_to_float 256).
  { unfold power_sample. rewrite (narrowing_rounds_up k Hk), Hpow.
    vm_compute. reflexivity. }
  split; [by apply narrowing_rounds_up|]. split; [exact Hs|].
  rewrite Hs. split; [vm_compute; reflexivity|]. split; [reflexivity|].
  vm_compute. discriminate.
Qed.

Lemma literal_cast_undefined_witness :
  (forall y, powf_exp1 f_one y = f_one) /\
  2 ^ 32 - 128 <= 4294967295 < 2 ^ 32 /\
  trunc (power_sample powf_exp1 256 (uniform 4294967295) d_three) = Some 256 /\
  Byte.of_N (Z.to_N 256) = None.
Proof.
  assert (H1 : forall y, powf_exp1 f_one y = f_one) by reflexivity.
  assert (H2 : 2 ^ 32 - 128 <= 4294967295 < 2 ^ 32) by (split; [discriminate|reflexivity]).
  split; [exact H1|]. split; [exact H2|].
  destruct (literal_cast_undefined powf_exp1 d_three 4294967295 H1 H2)
    as (_ & _ & Ht & Hb & _).
  split; [exact Ht|exact Hb].
Defined.

(** ** Ratios that never select the literal branch *)

(** What [1.0 / ratio] is for such a ratio: NaN, a zero, or negative. *)
Lemma unreachable_threshold ratio :
  threshold_unreachable ratio ->
  match d_div d_one ratio with
  | S754_nan | S754_zero _ => True
  | S754_infinity s | S754_finite s _ _ => s = true
  end.
Proof.
  unfold d_div, d_one, SFdiv. destruct ratio as [s|s| |s m e].
  - intros ->. reflexivity.
  - done.
  - done.
  - simpl. intros ->.
    destruct (SFdiv_core_binary _ _ _ _ _ _) as [[mz ez] lz].
    unfold binary_round_aux.
    destruct (shr_fexp _ _ _ _ _) as [mrs e1].
    destruct (shr_fexp _ _ _ _ _) as [mrs' e2].
    destruct (shr_m mrs') as [|q|q]; try done.
    by destruct (e2 <=? 1024 - 53).
Qed.

Lemma never_below_threshold ratio k :
  threshold_unreachable ratio -> is_uint32 k ->
  d_ltb (uniform k) (d_div d_one ratio) = false.
Proof.
  intros Hr Hk. apply unreachable_threshold in Hr.
  pose proof (uniform_is_quotient k Hk) as Hq.
  unfold d_ltb, SFltb, SFcompare.
  destruct (uniform k) as [[]| | |[] m e]; simpl in Hq; try done;
    destruct (d_div d_one ratio) as [[]|[]| |[] m' e']; done.
Qed.

Section NoLiteral.
Context {rng : Type}.
Variable pcg32_random : rng -> Z * rng.
Variable powf : float -> float -> float.
Variables ratio len_exp lit_exp : double.
Hypothesis unreachable : threshold_unreachable ratio.

Let source := safe_source_any pcg32_random powf len_exp lit_exp.

Lemma iterated_no_literal {C} L size st (w : world rng) st' w' :
  Forall no_literal_run (log w) ->
  iterated is_uint32 C L size ratio st w st' w' ->
  Forall no_literal_run (log w').
Proof.
  intros Hall Hit.
  iterated_cases Hit;
    try (rewrite never_below_threshold in Hber by done; discriminate);
    rewrite Hlog, Hlog1;
    repeat (apply Forall_cons; split; [done|]); exact Hall.
Qed.

Lemma generate_data_internal_no_literal (m : array byte) ptr size samples w :
  0 <= size <= SIZE_MAX -> 0 <= ptr -> ptr + size <= Z.of_nat (length m) ->
  samples_ok samples -> Forall no_literal_run (log w) ->
  wp sampling_fault
     (generate_data_internal pcg32_random powf m ptr size ratio len_exp lit_exp samples)
     (fun _ w' => Forall no_literal_run (log w')) w.
Proof.
  intros Hsize Hptr Hlen Hs Hall. unfold generate_data_internal. apply wp_bind.
  eapply wp_mono.
  { apply (generate_data_run_spec _ _ _ _ _ _ _ source
             (fun _ w' => Forall no_literal_run (log w'))); try done.
    intros st0 w0 st' w' HI _ _ _ Hit. eapply iterated_no_literal; eauto. }
  intros st' w' (HI & _). apply wp_ret. exact HI.
Qed.

Lemma lzdg_generate_data_bulk_no_literal (m : array byte) size w :
  0 <= size <= SIZE_MAX -> size <= Z.of_nat (length m) ->
  Forall no_literal_run (log w) ->
  wp sampling_fault
     (lzdg_generate_data_bulk pcg32_random powf m size ratio len_exp lit_exp)
     (fun _ w' => Forall no_literal_run (log w')) w.
Proof.
  intros Hsize Hlen Hall. unfold lzdg_generate_data_bulk.
  eapply wp_mono.
  { apply (bulk_loop_spec _ _ _ _ _ _ _ source
             (fun _ _ w' => Forall no_literal_run (log w'))
             (fun _ _ _ _ w' => Forall no_literal_run (log w')) m);
      try done; try lia.
    - intros m1 offs w1 smp w2 HJ _ _ Hlog. rewrite Hlog.
      apply Forall_cons. done.
    - intros m1 offs smp st0 w0 st' w' HI _ _ _ Hit.
      eapply iterated_no_literal; eauto. }
  intros m' w' (HJ & _ & _). exact HJ.
Qed.
End NoLiteral.

(** The test [rand_double() < 1.0 / ratio] of [generate_data_internal]
    fails for every draw when [ratio] is NaN, an infinity, or has its sign
    bit set (the threshold is then NaN, a zero or negative).  With such a
    ratio neither entry point emits a literal run: the output consists of
    repeat runs and the one-byte literals that break them up. *)
Theorem unreachable_ratio_no_literal_run {rng} (pcg32_random : rng -> Z * rng)
    (powf : float -> float -> float) (m : array byte) (size : Z)
    (ratio len_exp lit_exp : double) (w : world rng) :
  threshold_unreachable ratio ->
  0 <= size <= SIZE_MAX -> size <= Z.of_nat (length m) ->
  Forall no_literal_run (log w) ->
  (forall k, is_uint32 k -> d_ltb (uniform k) (d_div d_one ratio) = false) /\
  wp sampling_fault
     (lzdg_generate_data pcg32_random powf m size ratio len_exp lit_exp)
     (fun _ w' => Forall no_literal_run (log w')) w /\
  wp sampling_fault
     (lzdg_generate_data_bulk pcg32_random powf m size ratio len_exp lit_exp)
     (fun _ w' => Forall no_literal_run (log w')) w.
Proof.
  intros Hr Hsize Hlen Hall. split; [|split].
  - intros k Hk. by apply never_below_threshold.
  - apply (generate_data_internal_no_literal pcg32_random powf ratio len_exp lit_exp
             Hr m 0 size None w); done.
  - by apply lzdg_generate_data_bulk_no_literal.
Qed.

Lemma unreachable_ratio_no_literal_run_witness :
  threshold_unreachable S754_nan /\
  0 <= 8 <= SIZE_MAX /\ 8 <= Z.of_nat (length (fresh_array byte 8)) /\
  Forall no_literal_run (log (World 1 [])) /\
  wp sampling_fault
     (lzdg_generate_data lcg_random powf_exp1 (fresh_array byte 8) 8
        S754_nan d_one d_one)
     (fun _ w' => Forall no_literal_run (log w')) (World 1 []).
Proof.
  split; [exact Logic.I|].
  split; [exact size_8_in_range|]. split; [exact buffer_8_holds_8|].
  split; [apply Forall_nil_2|].
  exact (proj1 (proj2 (unreachable_ratio_no_literal_run lcg_random powf_exp1
                  (fresh_array byte 8) 8 S754_nan d_one d_one (World 1 [])
                  Logic.I size_8_in_range buffer_8_holds_8 (Forall_nil_2 _)))).
Defined.

(** ** The draws a loop consumes *)

Lemma draw_state_shift {rng} (pcg32_random : rng -> Z * rng) n g :
  draw_state pcg32_random n (snd (pcg32_random g))
  = snd (pcg32_random (draw_state pcg32_random n g)).
Proof.
  induction n as [|n IH]; [done|]. unfold draw_state in *. simpl. by rewrite IH.
Qed.

Lemma draws_snoc {rng} (pcg32_random : rng -> Z * rng) n g :
  draws pcg32_random (Datatypes.S n) g
  = draws pcg32_random n g
    ++ [uint_wrap (fst (pcg32_random (draw_state pcg32_random n g)))].
Proof.
  revert g. induction n as [|n IH]; intros g; [done|].
  change (draws pcg32_random (Datatypes.S (Datatypes.S n)) g)
    with (uint_wrap (fst (pcg32_random g))
          :: draws pcg32_random (Datatypes.S n) (snd (pcg32_random g))).
  rewrite IH, draw_state_shift. reflexivity.
Qed.

Lemma length_draws {rng} (pcg32_random : rng -> Z * rng) n g :
  length (draws pcg32_random n g) = n.
Proof. revert g. induction n as [|n IH]; intros g; simpl; [done|]. by rewrite IH. Qed.

Lemma count_if_app f l1 l2 : count_if f (l1 ++ l2) = count_if f l1 + count_if f l2.
Proof. induction l1 as [|x l1 IH]; simpl; [done|]. rewrite IH. lia. Qed.

Lemma count_if_bound f l : 0 <= count_if f l <= Z.of_nat (length l).
Proof. induction l as [|x l IH]; simpl; [lia|]. destruct (f x); lia. Qed.

(** ** Literals from the corpus *)

(** In corpus mode no draw can make literal generation fail: the index
    [pcg32_random() % SAMPLE_SIZE] is always inside the corpus.  With a
    corpus of [SAMPLE_SIZE] assigned bytes and room for [size] bytes at
    [ptr], [generate_literals_from_samples] returns for every source; it
    consumes exactly [size] draws, the byte at [ptr + j] is the sample at
    index [d mod SAMPLE_SIZE] for the [j]-th draw [d], and no cell outside
    [ptr, ptr + size) changes. *)
Theorem corpus_literals_never_fail {rng} (pcg32_random : rng -> Z * rng)
    (a samples : array byte) (ptr size : Z) (w : world rng) :
  0 <= ptr -> 0 <= size -> ptr + size <= Z.of_nat (length a) ->
  Z.of_nat (length samples) = SAMPLE_SIZE -> initialised samples ->
  wp no_fault (generate_literals_from_samples pcg32_random a ptr size samples)
     (fun a' w' =>
        length a' = length a /\
        (forall k : nat, Z.of_nat k < ptr \/ ptr + size <= Z.of_nat k ->
           a' !! k = a !! k) /\
        (forall (j : nat) (d : Z),
           draws pcg32_random (Z.to_nat size) (gen w) !! j = Some d ->
           exists b, samples !! Z.to_nat (d mod SAMPLE_SIZE) = Some (Some b) /\
                     a' !! (Z.to_nat ptr + j)%nat = Some (Some b)) /\
        w' = World (draw_state pcg32_random (Z.to_nat size) (gen w)) (log w)) w.
Proof.
  intros Hptr Hsize Hlen Hsl Hinit. unfold generate_literals_from_samples.
  eapply wp_mono.
  - apply (wp_for_loop no_fault (fun j a' w' =>
       length a' = length a /\
       (forall k : nat, Z.of_nat k < ptr \/ ptr + j <= Z.of_nat k -> a' !! k = a !! k) /\
       (forall (i : nat) (d : Z),
          draws pcg32_random (Z.to_nat j) (gen w) !! i = Some d ->
          exists b, samples !! Z.to_nat (d mod SAMPLE_SIZE) = Some (Some b) /\
                    a' !! (Z.to_nat ptr + i)%nat = Some (Some b)) /\
       w' = World (draw_state pcg32_random (Z.to_nat j) (gen w)) (log w))).
    + split; [done|]. split; [done|]. split; [done|]. by destruct w.
    + intros j a' w' Hj (Hl & Hfr & Hcells & ->).
      apply wp_bind, wp_pcg32_next. cbn [gen log].
      set (g := draw_state pcg32_random (Z.to_nat j) (gen w)).
      set (d := uint_wrap (fst (pcg32_random g))).
      assert (Hd : 0 <= d mod SAMPLE_SIZE < SAMPLE_SIZE).
      { apply Z.mod_pos_bound. reflexivity. }
      destruct (Hinit (Z.to_nat (d mod SAMPLE_SIZE)) ltac:(lia)) as [v Hv].
      apply wp_bind. eapply wp_load; [lia|exact Hv|].
      apply wp_store; [lia|].
      replace (Z.to_nat (j + 1)) with (Datatypes.S (Z.to_nat j)) by lia.
      split; [by rewrite length_insert|]. split; [|split].
      * intros k Hk. rewrite list_lookup_insert_ne by lia. apply Hfr. lia.
      * intros i0 d0 Hi0. rewrite draws_snoc in Hi0. fold g d in Hi0.
        apply lookup_app_Some in Hi0 as [Hi0|[Hge Hi0]].
        -- destruct (Hcells i0 d0 Hi0) as (b & Hb & Ha). exists b. split; [done|].
           apply lookup_lt_Some in Hi0. rewrite length_draws in Hi0.
           rewrite list_lookup_insert_ne by lia. exact Ha.
        -- rewrite length_draws in Hge, Hi0.
           apply list_lookup_singleton_Some in Hi0 as [Hi0 <-].
           exists v. split; [exact Hv|].
           replace (Z.to_nat ptr + i0)%nat with (Z.to_nat (ptr + j)) by lia.
           apply list_lookup_insert_eq. lia.
      * reflexivity.
  - intros a' w' H. replace (0 + Z.of_nat (Z.to_nat size)) with size in H by lia.
    exact H.
Qed.

Lemma corpus_literals_never_fail_witness :
  0 <= 0 /\ 0 <= 4 /\ 0 + 4 <= Z.of_nat (length (fresh_array byte 4)) /\
  Z.of_nat (length (replicate (Z.to_nat SAMPLE_SIZE) (Some "a"%byte))) = SAMPLE_SIZE /\
  initialised (replicate (Z.to_nat SAMPLE_SIZE) (Some "a"%byte)) /\
  wp no_fault
     (generate_literals_from_samples lcg_random (fresh_array byte 4) 0 4
        (replicate (Z.to_nat SAMPLE_SIZE) (Some "a"%byte)))
     (fun a' w' => length a' = length (fresh_array byte 4) /\
                   w' = World (draw_state lcg_random 4 1) []) (World 1 []).
Proof.
  assert (H1 : 0 <= 0) by reflexivity.
  assert (H2 : 0 <= 4) by discriminate.
  assert (H3 : 0 + 4 <= Z.of_nat (length (fresh_array byte 4))) by discriminate.
  assert (H4 : Z.of_nat (length (replicate (Z.to_nat SAMPLE_SIZE) (Some "a"%byte)))
               = SAMPLE_SIZE) by (rewrite length_replicate; reflexivity).
  assert (H5 : initialised (replicate (Z.to_nat SAMPLE_SIZE) (Some "a"%byte))).
  { intros k Hk. rewrite length_replicate in Hk. exists "a"%byte.
    by apply lookup_replicate_2. }
  split; [exact H1|]. split; [exact H2|]. split; [exact H3|].
  split; [exact H4|]. split; [exact H5|].
  eapply wp_mono.
  - exact (corpus_literals_never_fail lcg_random (fresh_array byte 4)
             (replicate (Z.to_nat SAMPLE_SIZE) (Some "a"%byte)) 0 4 (World 1 [])
             H1 H2 H3 H4 H5).
  - intros a' w' (Hl & _ & _ & Hw). split; [exact Hl|exact Hw].
Defined.

(** ** Literals from the distribution *)

(** [generate_literals_from_distribution] consumes exactly one draw for
    each byte, in order: when it returns, the byte at [ptr + j] is the
    cast to [unsigned char] of [256 * powf((float) u, (float) lit_exp)]
    for the uniform variate [u] of the [j]-th draw, the source has
    advanced by [size] draws and no cell outside [ptr, ptr + size) has
    changed.  It stops early only on a draw whose sample has no
    [unsigned char] value. *)
Theorem distribution_literals_follow_draws {rng} (pcg32_random : rng -> Z * rng)
    (powf : float -> float -> float) (a : array byte) (ptr size : Z)
    (lit_exp : double) (w : world rng) :
  0 <= ptr -> 0 <= size -> ptr + size <= Z.of_nat (length a) ->
  wp sampling_fault
     (generate_literals_from_distribution pcg32_random powf a ptr size lit_exp)
     (fun a' w' =>
        length a' = length a /\
        (forall k : nat, Z.of_nat k < ptr \/ ptr + size <= Z.of_nat k ->
           a' !! k = a !! k) /\
        (forall (j : nat) (d : Z),
           draws pcg32_random (Z.to_nat size) (gen w) !! j = Some d ->
           exists b, float_to_uchar (power_sample powf 256 (uniform d) lit_exp) = Ok b /\
                     a' !! (Z.to_nat ptr + j)%nat = Some (Some b)) /\
        w' = World (draw_state pcg32_random (Z.to_nat size) (gen w)) (log w)) w.
Proof.
  intros Hptr Hsize Hlen. unfold generate_literals_from_distribution.
  eapply wp_mono.
  - apply (wp_for_loop sampling_fault (fun j a' w' =>
       length a' = length a /\
       (forall k : nat, Z.of_nat k < ptr \/ ptr + j <= Z.of_nat k -> a' !! k = a !! k) /\
       (forall (i : nat) (d : Z),
          draws pcg32_random (Z.to_nat j) (gen w) !! i = Some d ->
          exists b, float_to_uchar (power_sample powf 256 (uniform d) lit_exp) = Ok b /\
                    a' !! (Z.to_nat ptr + i)%nat = Some (Some b)) /\
       w' = World (draw_state pcg32_random (Z.to_nat j) (gen w)) (log w))).
    + split; [done|]. split; [done|]. split; [done|]. by destruct w.
    + intros j a' w' Hj (Hl & Hfr & Hcells & ->).
      apply wp_bind. unfold rand_double. apply wp_bind, wp_pcg32_next, wp_ret.
      cbn [gen log].
      set (g := draw_state pcg32_random (Z.to_nat j) (gen w)).
      set (d := uint_wrap (fst (pcg32_random g))).
      apply wp_bind, wp_lift.
      destruct (float_to_uchar _) as [v|f] eqn:Hconv.
      2: { unfold float_to_uchar in Hconv. right.
           destruct (trunc _) as [z|]; [|congruence].
           destruct (0 <=? z); [|congruence].
           destruct (Byte.of_N _); congruence. }
      apply wp_store; [lia|].
      replace (Z.to_nat (j + 1)) with (Datatypes.S (Z.to_nat j)) by lia.
      split; [by rewrite length_insert|]. split; [|split].
      * intros k Hk. rewrite list_lookup_insert_ne by lia. apply Hfr. lia.
      * intros i0 d0 Hi0. rewrite draws_snoc in Hi0. fold g d in Hi0.
        apply lookup_app_Some in Hi0 as [Hi0|[Hge Hi0]].
        -- destruct (Hcells i0 d0 Hi0) as (b & Hb & Ha). exists b. split; [done|].
           apply lookup_lt_Some in Hi0. rewrite length_draws in Hi0.
           rewrite list_lookup_insert_ne by lia. exact Ha.
        -- rewrite length_draws in Hge, Hi0.
           apply list_lookup_singleton_Some in Hi0 as [Hi0 <-].
           exists v. split; [exact Hconv|].
           replace (Z.to_nat ptr + i0)%nat with (Z.to_nat (ptr + j)) by lia.
           apply list_lookup_insert_eq. lia.
      * reflexivity.
  - intros a' w' H. replace (0 + Z.of_nat (Z.to_nat size)) with size in H by lia.
    exact H.
Qed.

Lemma distribution_literals_follow_draws_witness :
  0 <= 0 /\ 0 <= 4 /\ 0 + 4 <= Z.of_nat (length (fresh_array byte 4)) /\
  wp sampling_fault
     (generate_literals_from_distribution lcg_random powf_exp1
        (fresh_array byte 4) 0 4 d_one)
     (fun a' w' => length a' = length (fresh_array byte 4) /\
                   w' = World (draw_state lcg_random 4 1) []) (World 1 []).
Proof.
  assert (H1 : 0 <= 0) by reflexivity.
  assert (H2 : 0 <= 4) by discriminate.
  assert (H3 : 0 + 4 <= Z.of_nat (length (fresh_array byte 4))) by discriminate.
  split; [exact H1|]. split; [exact H2|]. split; [exact H3|].
  eapply wp_mono.
  - exact (distribution_literals_follow_draws lcg_random powf_exp1
             (fresh_array byte 4) 0 4 d_one (World 1 []) H1 H2 H3).
  - intros a' w' (Hl & _ & _ & Hw). split; [exact Hl|exact Hw].
Defined.

(** ** The histogram of [generate_lengths] *)

(** [generate_lengths] clears the table before it counts, so what the
    table held before (indeterminate cells included) does not matter: when
    it returns, bucket [c] holds the number of draws, among the [num] it
    consumed, whose length class is [c], and the source has advanced by
    exactly [num] draws.  It stops early only on a draw whose class is not
    below [NUM_LEN] or has no [size_t] value. *)
Theorem generate_lengths_counts_classes {rng} (pcg32_random : rng -> Z * rng)
    (powf : float -> float -> float) (freq : array Z) (num : Z)
    (len_exp : double) (w : world rng) :
  Z.of_nat (length freq) = NUM_LEN -> 0 <= num < 2 ^ 32 ->
  wp sampling_fault (generate_lengths pcg32_random powf freq num len_exp)
     (fun f' w' =>
        Z.of_nat (length f') = NUM_LEN /\
        (forall c : nat, Z.of_nat c < NUM_LEN ->
           f' !! c = Some (Some (count_if (class_is powf len_exp (Z.of_nat c))
                                   (draws pcg32_random (Z.to_nat num) (gen w))))) /\
        w' = World (draw_state pcg32_random (Z.to_nat num) (gen w)) (log w)) w.
Proof.
  intros Hlen Hnum. unfold generate_lengths. apply wp_bind.
  eapply wp_mono.
  { apply (wp_for_loop sampling_fault (fun j f' w' =>
       length f' = length freq /\ w' = w /\
       forall k : nat, Z.of_nat k < j -> f' !! k = Some (Some 0))).
    - split; [done|]. split; [done|]. intros k Hk. lia.
    - intros j f' w' Hj (Hl & -> & Hz). apply wp_store; [lia|].
      split; [by rewrite length_insert|]. split; [done|].
      intros k Hk. destruct (decide (k = Z.to_nat j)) as [->|Hne].
      + apply list_lookup_insert_eq. lia.
      + rewrite list_lookup_insert_ne by lia. apply Hz. lia. }
  intros f0 w0 (Hl0 & -> & Hz0). simpl in Hz0.
  eapply wp_mono.
  { apply (wp_for_loop sampling_fault (fun j f' w' =>
       Z.of_nat (length f') = NUM_LEN /\
       (forall c : nat, Z.of_nat c < NUM_LEN ->
          f' !! c = Some (Some (count_if (class_is powf len_exp (Z.of_nat c))
                                  (draws pcg32_random (Z.to_nat j) (gen w))))) /\
       w' = World (draw_state pcg32_random (Z.to_nat j) (gen w)) (log w))).
    - split; [lia|]. split; [|by destruct w].
      intros c Hc. apply Hz0. lia.
    - intros j f' w' Hj (Hl & Hcells & ->).
      apply wp_bind. unfold rand_double. apply wp_bind, wp_pcg32_next, wp_ret.
      cbn [gen log].
      set (g := draw_state pcg32_random (Z.to_nat j) (gen w)).
      set (d := uint_wrap (fst (pcg32_random g))).
      apply wp_bind, wp_lift.
      destruct (float_to_size_t _) as [len|f] eqn:Hconv.
      2: { unfold float_to_size_t in Hconv. destruct (trunc _) as [z|]; [|by injection Hconv as <-; right].
           destruct (_ && _); [done|]. injection Hconv as <-. by right. }
      apply wp_bind, wp_assert.
      destruct (Z.ltb_spec len NUM_LEN) as [Hlt|]; [|by left].
      assert (Hge : 0 <= len).
      { unfold float_to_size_t in Hconv. destruct (trunc _) as [z|]; [|done].
        destruct (Z.leb_spec 0 z); simpl in Hconv; [|done].
        destruct (z <=? SIZE_MAX); [|done]. injection Hconv as <-. done. }
      pose proof (Hcells (Z.to_nat len) ltac:(lia)) as Hv.
      set (v := count_if _ _) in Hv.
      assert (Hvb : 0 <= v <= j).
      { pose proof (count_if_bound (class_is powf len_exp (Z.of_nat (Z.to_nat len)))
                      (draws pcg32_random (Z.to_nat j) (gen w))) as Hb.
        rewrite length_draws in Hb. fold v in Hb. lia. }
      apply wp_bind. eapply wp_load; [lia|exact Hv|].
      apply wp_store; [lia|].
      rewrite uint_wrap_small by lia.
      replace (Z.to_nat (j + 1)) with (Datatypes.S (Z.to_nat j)) by lia.
      split; [by rewrite length_insert|]. split; [|reflexivity].
      intros c Hc. rewrite draws_snoc, count_if_app. fold g d. cbn [count_if].
      unfold class_is at 2, class_of. rewrite Hconv.
      destruct (decide (c = Z.to_nat len)) as [->|Hne].
      + rewrite list_lookup_insert_eq by lia.
        destruct (Z.eqb_spec len (Z.of_nat (Z.to_nat len))); [|lia].
        subst v. repeat f_equal; lia.
      + rewrite list_lookup_insert_ne by lia.
        destruct (Z.eqb_spec len (Z.of_nat c)); [lia|].
        rewrite Hcells by done. repeat f_equal; lia. }
  intros f' w' H.
  replace (0 + Z.of_nat (Z.to_nat num)) with num in H by lia. exact H.
Qed.

Lemma generate_lengths_counts_classes_witness :
  Z.of_nat (length (fresh_array Z NUM_LEN)) = NUM_LEN /\ 0 <= 4 < 2 ^ 32 /\
  wp sampling_fault
     (generate_lengths lcg_random powf_exp1 (fresh_array Z NUM_LEN) 4 d_one)
     (fun f' w' => Z.of_nat (length f') = NUM_LEN /\
                   w' = World (draw_state lcg_random 4 1) []) (World 1 []).
Proof.
  assert (H1 : Z.of_nat (length (fresh_array Z NUM_LEN)) = NUM_LEN) by reflexivity.
  assert (H2 : 0 <= 4 < 2 ^ 32) by (split; [discriminate|reflexivity]).
  split; [exact H1|]. split; [exact H2|].
  eapply wp_mono.
  - exact (generate_lengths_counts_classes lcg_random powf_exp1
             (fresh_array Z NUM_LEN) 4 d_one (World 1 []) H1 H2).
  - intros f' w' (Hl & _ & Hw). split; [exact Hl|exact Hw].
Defined.

(** ** The output is the runs laid end to end *)

Lemma slice_app {A} (a : array A) off x y :
  0 <= off -> 0 <= x -> 0 <= y ->
  slice a off (x + y) = slice a off x ++ slice a (off + x) y.
Proof.
  intros Hoff Hx Hy. unfold slice.
  rewrite (Z2Nat.inj_add x y), <- take_take_drop, drop_drop by lia.
  rewrite <- Z2Nat.inj_add by lia. reflexivity.
Qed.

(** One pass appends its runs to the output and leaves the rest alone. *)
Lemma iterated_output {rng} D {C} L (m0 : array byte) ptr size ratio st (w : world rng)
    st' w' :
  0 <= ptr -> ptr + size <= Z.of_nat (length m0) ->
  mem_inv m0 ptr size st -> i st < size ->
  iterated D C L size ratio st w st' w' ->
  output_of (log w) = slice (mem st) 0 (p st) ->
  output_of (log w') = slice (mem st') 0 (p st').
Proof.
  intros Hptr Hlen Hmi Hi Hit Hout.
  destruct (iterated_mem_inv _ _ _ _ _ _ _ _ _ _ Hmi Hi Hit) as [Hmi' Hprog].
  destruct Hmi as [Hi0 Hp0 _]. destruct Hmi' as [Hi0' Hp0' _].
  iterated_cases Hit;
    pose proof (sc_p _ _ _ _ _ Hsc) as Hp1; pose proof (sc_i _ _ _ _ _ Hsc) as Hi1;
    pose proof (sc_mem _ _ _ _ _ Hsc) as Hm1;
    pose proof (si_cur _ (sc_inv _ _ _ _ _ Hsc)) as Hcur0;
    assert (Hcur0' : 0 <= cur_len st1 < 256) by exact Hcur0;
    subst len len0; unfold MIN_LEN in *;
    rewrite Hlog, Hlog1; cbn [output_of run_data]; rewrite ?app_nil_r, Hout, Hp'.
  (* a literal run or a repeat run *)
  1, 2, 4, 5:
    (rewrite (slice_app (mem st') 0) by lia; f_equal; rewrite <- Hp1;
     symmetry; apply (slice_frame _ _ _ _ (p st1)); try lia;
     intros j Hj; rewrite <- Hm1;
     first [apply (wr_frame _ _ _ _ _ Hwr)
           |apply (wr_frame _ _ _ _ _ (proj1 Hwr))]; lia).
  (* a break literal and a repeat run *)
  all: rewrite <- Z.add_assoc, (slice_app (mem st') 0 (p st1)) by lia.
  all: rewrite (slice_app (mem st') (0 + p st1) 1) by lia.
  all: rewrite <- app_assoc; f_equal; [|f_equal].
  1, 3: (rewrite <- Hp1; symmetry; apply (slice_frame _ _ _ _ (p st1)); try lia;
         intros j Hj; rewrite <- Hm1;
         rewrite (wr_frame _ _ _ _ _ (proj1 Hwr)) by lia;
         apply (wr_frame _ _ _ _ _ Hw1); lia).
  all: symmetry; apply (slice_frame _ _ _ _ (p st1 + 1)); try lia;
       intros j Hj; apply (wr_frame _ _ _ _ _ (proj1 Hwr)); lia.
Qed.

Section Output.
Context {rng : Type}.
Variable pcg32_random : rng -> Z * rng.
Variable powf : float -> float -> float.
Variables ratio len_exp lit_exp : double.

Let source := safe_source_any pcg32_random powf len_exp lit_exp.

Lemma generate_data_internal_output (m : array byte) ptr size samples w :
  0 <= size <= SIZE_MAX -> 0 <= ptr -> ptr + size <= Z.of_nat (length m) ->
  samples_ok samples -> output_of (log w) = slice m 0 ptr ->
  wp sampling_fault
     (generate_data_internal pcg32_random powf m ptr size ratio len_exp lit_exp samples)
     (fun m' w' => output_of (log w') = slice m' 0 (ptr + size)) w.
Proof.
  intros Hsize Hptr Hlen Hs Hout. unfold generate_data_internal. apply wp_bind.
  eapply wp_mono.
  { apply (generate_data_run_spec _ _ _ _ _ _ _ source
             (fun st w' => output_of (log w') = slice (mem st) 0 (p st)));
      try done.
    intros st0 w0 st' w' HI _ Hmi Hi Hit. eapply iterated_output; eauto. }
  intros st' w' (HI & _ & [_ Hp _] & Hi & _). apply wp_ret.
  rewrite HI, Hp, Hi. reflexivity.
Qed.

Lemma lzdg_generate_data_bulk_output (m : array byte) size w :
  0 <= size <= SIZE_MAX -> size <= Z.of_nat (length m) ->
  output_of (log w) = [] ->
  wp sampling_fault
     (lzdg_generate_data_bulk pcg32_random powf m size ratio len_exp lit_exp)
     (fun m' w' => output_of (log w') = slice m' 0 size) w.
Proof.
  intros Hsize Hlen Hout. unfold lzdg_generate_data_bulk.
  eapply wp_mono.
  { apply (bulk_loop_spec _ _ _ _ _ _ _ source
             (fun m' offs w' => output_of (log w') = slice m' 0 offs /\
                                length m' = length m)
             (fun m' offs _ st w' => output_of (log w') = slice (mem st) 0 (p st) /\
                                     0 <= offs < size /\ length m' = length m) m);
      try done; try lia.
    - intros m1 offs w1 smp w2 (HJ & Hl) Hoffs _ Hlog. rewrite Hlog. simpl.
      rewrite app_nil_r. done.
    - intros m1 offs smp st0 w0 st' w' (HI & Hoffs & Hl) _ Hmi Hi Hit.
      split; [|done].
      assert (Hnr : 1 <= block_size size offs <= size - offs).
      { unfold block_size, BLOCK_SIZE. lia. }
      eapply (iterated_output _ _ m1 offs (block_size size offs));
        try exact Hit; try done; lia.
    - intros m1 offs w1 smp st' w' (HJ & Hl) Hoffs (HI & _) Hmi Hi.
      pose proof (mi_p _ _ _ _ Hmi) as Hp.
      split; [rewrite HI, Hp, Hi; reflexivity|].
      rewrite (wr_length _ _ _ _ _ (mi_written _ _ _ _ Hmi)). done. }
  intros m' w' ((HJ & _) & _). exact HJ.
Qed.
End Output.

(** The runs an entry point emits, laid end to end in the order of their
    emission, are the [size] bytes it leaves in the buffer: the runs tile
    the output without gap or overlap, and no later run writes over an
    earlier one.  In bulk mode this holds across the blocks. *)
Theorem output_is_runs_in_order {rng} (pcg32_random : rng -> Z * rng)
    (powf : float -> float -> float) (m : array byte) (size : Z)
    (ratio len_exp lit_exp : double) (g : rng) :
  0 <= size <= SIZE_MAX -> size <= Z.of_nat (length m) ->
  wp sampling_fault
     (lzdg_generate_data pcg32_random powf m size ratio len_exp lit_exp)
     (fun m' w' => output_of (log w') = slice m' 0 size) (World g []) /\
  wp sampling_fault
     (lzdg_generate_data_bulk pcg32_random powf m size ratio len_exp lit_exp)
     (fun m' w' => output_of (log w') = slice m' 0 size) (World g []).
Proof.
  intros Hsize Hlen. split.
  - apply (generate_data_internal_output pcg32_random powf ratio len_exp lit_exp
             m 0 size None (World g [])); done.
  - by apply lzdg_generate_data_bulk_output.
Qed.

Lemma output_is_runs_in_order_witness :
  0 <= 8 <= SIZE_MAX /\ 8 <= Z.of_nat (length (fresh_array byte 8)) /\
  wp sampling_fault
     (lzdg_generate_data lcg_random powf_exp1 (fresh_array byte 8) 8
        d_three d_one d_one)
     (fun m' w' => output_of (log w') = slice m' 0 8) (World 1 []).
Proof.
  split; [exact size_8_in_range|]. split; [exact buffer_8_holds_8|].
  exact (proj1 (output_is_runs_in_order lcg_random powf_exp1
                  (fresh_array byte 8) 8 d_three d_one d_one 1
                  size_8_in_range buffer_8_holds_8)).
Defined.

(** ** Where the bytes of the output come from *)

Section Returning.
Context {rng : Type}.
Implicit Types (w : world rng).

Lemma wp_any_lift {A} (r : result A) (Q : A -> world rng -> Prop) w :
  (forall a, r = Ok a -> Q a w) -> wp any_fault (lift r) Q w.
Proof. intros H. apply wp_lift. destruct r; [by apply H|done]. Qed.

(** What a run that returns says with a run that may stop. *)
Lemma wp_conj {A} E (c : M rng A) (Q1 Q2 : A -> world rng -> Prop) w :
  wp E c Q1 w -> wp any_fault c Q2 w -> wp E c (fun a w' => Q1 a w' /\ Q2 a w') w.
Proof. unfold wp. destruct (c w) as [[a w']|f]; done. Qed.
End Returning.

Lemma store_ok {A} (a a' : array A) k v :
  store a k v = Ok a' -> 0 <= k < Z.of_nat (length a) /\ a' = <[Z.to_nat k := Some v]> a.
Proof.
  unfold store. destruct (Z.leb_spec 0 k); [|done].
  destruct (Z.ltb_spec k (Z.of_nat (length a))); [|done].
  simpl. intros [= <-]. split; [lia|done].
Qed.

Lemma load_ok {A} (a : array A) k v :
  load a k = Ok v -> 0 <= k /\ a !! Z.to_nat k = Some (Some v).
Proof.
  unfold load. destruct (Z.ltb_spec k 0); [done|].
  destruct (a !! Z.to_nat k) as [[x|]|]; try done. intros [= <-]. done.
Qed.

Lemma fill_inv_refl S a base : fill_inv S a base 0 a.
Proof.
  split; [done|]. split; [by left|]. intros k Hk. lia.
Qed.

Lemma fill_inv_step S a base j a' a'' v :
  fill_inv S a base j a' -> 0 <= j -> S v ->
  store a' (base + j) v = Ok a'' -> fill_inv S a base (j + 1) a''.
Proof.
  intros (Hfr & Hmono & Hfill) Hj HS Hst.
  apply store_ok in Hst as [Hk ->]. split; [|split].
  - intros k Hlt. rewrite list_lookup_insert_ne by lia. by apply Hfr.
  - intros k x Hx. destruct (decide (k = Z.to_nat (base + j))) as [->|Hne].
    + rewrite list_lookup_insert_eq in Hx by lia. right. congruence.
    + rewrite list_lookup_insert_ne in Hx by lia. by apply Hmono.
  - intros k Hr. destruct (decide (k = Z.to_nat (base + j))) as [->|Hne].
    + exists v. split; [|done]. apply list_lookup_insert_eq. lia.
    + rewrite list_lookup_insert_ne by lia. apply Hfill. lia.
Qed.

Lemma fill_inv_filled S L a base j a' lo :
  fill_inv S a base j a' -> filled L a lo base -> (forall v, S v -> L v) ->
  filled L a' lo (base + j).
Proof.
  intros (Hfr & _ & Hfill) Hold HSL k Hk.
  destruct (decide (Z.of_nat k < base)) as [Hlt|Hge].
  - rewrite Hfr by done. apply Hold. lia.
  - destruct (Hfill k) as (v & Hv & HS); [lia|]. exists v. auto.
Qed.

Lemma fill_inv_cells_in S L a base j a' :
  fill_inv S a base j a' -> cells_in L a -> (forall v, S v -> L v) -> cells_in L a'.
Proof.
  intros (_ & Hmono & _) Hc HSL k v Hv.
  destruct (Hmono k v Hv) as [Hold|HS]; [by eapply Hc|by apply HSL].
Qed.

Lemma filled_slice L (a : array byte) lo hi off n cell :
  filled L a lo hi -> 0 <= off -> lo <= off -> off + n <= hi ->
  cell ∈ slice a off n -> exists b, cell = Some b /\ L b.
Proof.
  intros Hf Hoff Hlo Hhi Hin. unfold slice in Hin.
  apply list_elem_of_lookup in Hin as [k Hk].
  apply lookup_take_Some in Hk as [Hk Hlt]. rewrite lookup_drop in Hk.
  destruct (Hf (Z.to_nat off + k)%nat) as (v & Hv & HL); [lia|].
  exists v. split; [congruence|done].
Qed.

Section Alphabet.
Context {rng : Type}.
Variable pcg32_random : rng -> Z * rng.
Variable powf : float -> float -> float.
Variables ratio len_exp lit_exp : double.
Implicit Types (w : world rng).

Lemma generate_literals_fill (a : array byte) ptr size samples w :
  wp any_fault (generate_literals pcg32_random powf a ptr size lit_exp samples)
     (fun a' w' =>
        fill_inv (literal_value powf is_uint32 lit_exp samples) a ptr
                 (Z.of_nat (Z.to_nat size)) a' /\ log w' = log w) w.
Proof.
  destruct samples as [s|]; cbn [generate_literals].
  - unfold generate_literals_from_samples. eapply wp_mono.
    { apply (wp_for_loop any_fault (fun j a' w' =>
         fill_inv (literal_value powf is_uint32 lit_exp (Some s)) a ptr j a' /\
         log w' = log w)).
      - split; [apply fill_inv_refl|done].
      - intros j a' w' Hj (Hinv & Hlog).
        apply wp_bind, wp_pcg32_next. apply wp_bind, wp_any_lift.
        intros v Hv. apply load_ok in Hv as [_ Hv]. apply wp_any_lift.
        intros a'' Hst. split; [|exact Hlog].
        eapply fill_inv_step; [exact Hinv|lia| |exact Hst].
        simpl. eapply list_elem_of_lookup_2. exact Hv. }
    intros a' w' H. exact H.
  - unfold generate_literals_from_distribution. eapply wp_mono.
    { apply (wp_for_loop any_fault (fun j a' w' =>
         fill_inv (literal_value powf is_uint32 lit_exp None) a ptr j a' /\
         log w' = log w)).
      - split; [apply fill_inv_refl|done].
      - intros j a' w' Hj (Hinv & Hlog).
        apply wp_bind. unfold rand_double. apply wp_bind, wp_pcg32_next, wp_ret.
        apply wp_bind, wp_any_lift. intros v Hv. apply wp_any_lift.
        intros a'' Hst. split; [|exact Hlog].
        eapply fill_inv_step; [exact Hinv|lia| |exact Hst].
        simpl. eexists. split; [|exact Hv]. apply uint_wrap_range. }
    intros a' w' H. exact H.
Qed.

Lemma memcpy_fill (dst : array byte) d (src : array byte) n w :
  wp any_fault (memcpy (rng := rng) dst d src n)
     (fun a' w' =>
        fill_inv (fun v => Some v ∈ src) dst d (Z.of_nat (Z.to_nat n)) a' /\ w' = w) w.
Proof.
  unfold memcpy. eapply wp_mono.
  { apply (wp_for_loop any_fault (fun j a' w' =>
       fill_inv (fun v => Some v ∈ src) dst d j a' /\ w' = w)).
    - split; [apply fill_inv_refl|done].
    - intros j a' w' Hj (Hinv & ->).
      apply wp_bind, wp_any_lift. intros v Hv. apply load_ok in Hv as [_ Hv].
      apply wp_any_lift. intros a'' Hst. split; [|done].
      eapply fill_inv_step; [exact Hinv|lia| |exact Hst].
      eapply list_elem_of_lookup_2. exact Hv. }
  intros a' w' H. exact H.
Qed.

Lemma generate_lengths_log (freq : array Z) num w :
  wp any_fault (generate_lengths pcg32_random powf freq num len_exp)
     (fun _ w' => log w' = log w) w.
Proof.
  unfold generate_lengths. apply wp_bind. eapply wp_mono.
  { apply (wp_for_loop any_fault (fun _ _ w' => w' = w)); [done|].
    intros j f' w' _ ->. by apply wp_any_lift. }
  intros f0 w0 ->. simpl. eapply wp_mono.
  { apply (wp_for_loop any_fault (fun _ _ w' => log w' = log w)); [done|].
    intros j f' w' _ Hlog.
    apply wp_bind. unfold rand_double. apply wp_bind, wp_pcg32_next, wp_ret.
    apply wp_bind, wp_any_lift. intros len _.
    apply wp_bind, wp_assert. destruct (len <? NUM_LEN); [|done].
    apply wp_bind, wp_any_lift. intros v _. apply wp_any_lift. intros f'' _.
    exact Hlog. }
  intros f' w' H. exact H.
Qed.
Section Cells.
Variable L : byte -> Prop.
Variable samples : option (array byte).
Hypothesis literals_in : forall v, literal_value powf is_uint32 lit_exp samples v -> L v.

(** The scan changes the scratch buffer only by a refill, whose bytes
    are literals; it emits no run. *)
Lemma find_length_cells fuel st w :
  cells_in L (buffer st) ->
  wp any_fault (find_length pcg32_random powf fuel len_exp lit_exp samples st)
     (fun st1 w1 =>
        cells_in L (buffer st1) /\ mem st1 = mem st /\ p st1 = p st /\
        exists new, log w1 = new ++ log w /\ Forall (run_of L) new) w.
Proof.
  revert st w. induction fuel as [|fuel IH]; intros st w Hbuf.
  - simpl. apply wp_bind, wp_any_lift. intros f _.
    destruct (f =? 0); [done|]. apply wp_ret.
    split; [done|]. split; [done|]. split; [done|]. by exists [].
  - simpl. apply wp_bind, wp_any_lift. intros f _.
    destruct (f =? 0).
    2: { apply wp_ret. split; [done|]. split; [done|]. split; [done|]. by exists []. }
    apply wp_bind. destruct (cur_len st =? 0).
    + apply wp_bind. eapply wp_mono; [apply generate_literals_fill|].
      intros b w1 (Hb & Hlog1). simpl.
      apply wp_bind. eapply wp_mono; [apply generate_lengths_log|].
      intros lf w2 Hlog2. simpl. apply wp_bind, wp_emit, wp_ret. simpl.
      eapply wp_mono.
      { apply IH. simpl. eapply fill_inv_cells_in; eauto. }
      intros st1 w3 (Hb1 & Hm1 & Hp1 & new & Hlog3 & Hnew). simpl in *.
      split; [done|]. split; [done|]. split; [done|].
      exists (new ++ [EvRefill lf b]). rewrite <- app_assoc. simpl.
      rewrite Hlog3, Hlog2, Hlog1. split; [done|].
      apply Forall_app. split; [done|]. by repeat constructor.
    + apply wp_ret. simpl. eapply wp_mono; [by apply IH|].
      intros st1 w3 (Hb1 & Hm1 & Hp1 & Hnew). done.
Qed.

(** One pass keeps the destination filled with literals up to the cursor,
    and the scratch buffer made of literals. *)
Lemma iteration_cells lo size st w :
  0 <= lo ->
  cells_in L (buffer st) /\ lo <= p st /\ filled L (mem st) lo (p st) ->
  wp any_fault (iteration pcg32_random powf size ratio len_exp lit_exp samples st)
     (fun st' w' =>
        (cells_in L (buffer st') /\ lo <= p st' /\ filled L (mem st') lo (p st')) /\
        exists new, log w' = new ++ log w /\ Forall (run_of L) new) w.
Proof.
  intros Hlo (Hbuf & Hp & Hfill). unfold iteration.
  apply wp_bind. eapply wp_mono; [by apply find_length_cells|].
  intros st1 w1 (Hb1 & Hm1 & Hp1 & new1 & Hlog1 & Hnew1).
  rewrite <- Hm1, <- Hp1 in Hfill. rewrite <- Hp1 in Hp. clear Hm1 Hp1.
  apply wp_bind, wp_emit. apply wp_bind, wp_any_lift. intros f _.
  apply wp_bind, wp_any_lift. intros lf _.
  apply wp_bind. unfold rand_double. apply wp_bind, wp_pcg32_next, wp_ret.
  cbn [log gen].
  set (len := clamp size (i st1) (size_wrap (MIN_LEN + cur_len st1))).
  assert (Hlen : 0 <= len) by apply clamp_nonneg, size_wrap_nonneg.
  assert (Hbufsrc : forall v, Some v ∈ buffer st1 -> L v).
  { intros v Hv. apply list_elem_of_lookup in Hv as [k Hk]. by eapply Hb1. }
  destruct (d_ltb _ _).
  - apply wp_bind. eapply wp_mono; [apply generate_literals_fill|].
    intros m w2 (Hm & Hlog2). cbn [log] in Hlog2.
    rewrite Z2Nat.id in Hm by lia.
    assert (Hfill' : filled L m lo (p st1 + len))
      by (eapply fill_inv_filled; eauto).
    apply wp_bind, wp_emit, wp_ret. simpl.
    split; [split; [done|split; [lia|done]]|].
    exists (EvLiteralRun (p st1) (slice m (p st1) len)
            :: EvIssue (size_wrap (MIN_LEN + cur_len st1)) :: new1).
    rewrite Hlog2, Hlog1. split; [done|].
    apply Forall_cons. split; [|apply Forall_cons; done].
    intros cell Hin. apply (filled_slice L m lo (p st1 + len) (p st1) len); [done|lia|lia|lia|done].
  - apply wp_bind. destruct (last_was_match st1).
    + apply wp_bind. eapply wp_mono; [apply generate_literals_fill|].
      intros m1 w2 (Hm1 & Hlog2). cbn [log] in Hlog2.
      change (Z.of_nat (Z.to_nat 1)) with 1 in Hm1.
      assert (Hfill1 : filled L m1 lo (p st1 + 1))
        by (eapply fill_inv_filled; eauto).
      apply wp_bind, wp_emit, wp_ret. simpl.
      set (len1 := clamp size (size_wrap (i st1 + 1)) len).
      assert (Hlen1 : 0 <= len1) by (apply clamp_nonneg; exact Hlen).
      apply wp_bind. eapply wp_mono; [apply memcpy_fill|].
      intros m2 w3 (Hm2 & ->). rewrite Z2Nat.id in Hm2 by lia.
      assert (Hfill2 : filled L m2 lo (p st1 + 1 + len1))
        by (eapply fill_inv_filled; eauto).
      apply wp_bind, wp_emit, wp_ret. simpl.
      split; [split; [done|split; [lia|done]]|].
      exists (EvRepeatRun (p st1 + 1) (slice m2 (p st1 + 1) len1)
              :: EvBreakLiteral (p st1) (slice m1 (p st1) 1)
              :: EvIssue (size_wrap (MIN_LEN + cur_len st1)) :: new1).
      rewrite Hlog2, Hlog1. split; [done|].
      apply Forall_cons. split; [|apply Forall_cons; split; [|apply Forall_cons; done]].
      * intros cell Hin. apply (filled_slice L m2 lo (p st1 + 1 + len1) (p st1 + 1) len1);
          [done|lia|lia|lia|done].
      * intros cell Hin. apply (filled_slice L m1 lo (p st1 + 1) (p st1) 1); [done|lia|lia|lia|done].
    + apply wp_ret. simpl.
      apply wp_bind. eapply wp_mono; [apply memcpy_fill|].
      intros m2 w3 (Hm2 & ->). rewrite Z2Nat.id in Hm2 by lia.
      assert (Hfill2 : filled L m2 lo (p st1 + len))
        by (eapply fill_inv_filled; eauto).
      apply wp_bind, wp_emit, wp_ret. simpl.
      split; [split; [done|split; [lia|done]]|].
      exists (EvRepeatRun (p st1) (slice m2 (p st1) len)
              :: EvIssue (size_wrap (MIN_LEN + cur_len st1)) :: new1).
      rewrite Hlog1. split; [done|].
      apply Forall_cons. split; [|apply Forall_cons; done].
      intros cell Hin. apply (filled_slice L m2 lo (p st1 + len) (p st1) len); [done|lia|lia|lia|done].
Qed.

Lemma main_loop_cells lo size fuel st w :
  0 <= lo ->
  cells_in L (buffer st) /\ lo <= p st /\ filled L (mem st) lo (p st) ->
  wp any_fault (main_loop pcg32_random powf fuel size ratio len_exp lit_exp samples st)
     (fun st' w' =>
        filled L (mem st') lo (p st') /\
        exists new, log w' = new ++ log w /\ Forall (run_of L) new) w.
Proof.
  intros Hlo. revert st w. induction fuel as [|fuel IH]; intros st w Hinv.
  - simpl. destruct (i st <? size); [done|]. apply wp_ret.
    split; [apply Hinv|]. by exists [].
  - simpl. destruct (i st <? size).
    2: { apply wp_ret. split; [apply Hinv|]. by exists []. }
    apply wp_bind. eapply wp_mono; [by apply iteration_cells|].
    intros st1 w1 (Hinv1 & new1 & Hlog1 & Hnew1).
    eapply wp_mono; [by apply IH|].
    intros st2 w2 (Hfill & new2 & Hlog2 & Hnew2). split; [done|].
    exists (new2 ++ new1). rewrite <- app_assoc, Hlog2, Hlog1. split; [done|].
    by apply Forall_app.
Qed.

Lemma generate_data_run_cells (m : array byte) ptr size w :
  0 <= ptr ->
  wp any_fault
     (generate_data_run pcg32_random powf m ptr size ratio len_exp lit_exp samples)
     (fun st' w' =>
        filled L (mem st') ptr (p st') /\
        exists new, log w' = new ++ log w /\ Forall (run_of L) new) w.
Proof.
  intros Hptr. unfold generate_data_run. apply wp_bind, wp_lift.
  rewrite initial_locals_eq. apply main_loop_cells; [done|].
  unfold entry_locals. cbn [buffer p mem]. split; [|split; [lia|]].
  - intros k v Hv. unfold fresh_array in Hv.
    apply lookup_replicate in Hv as [? _]. done.
  - intros k Hk. lia.
Qed.
End Cells.
End Alphabet.

Lemma run_of_in_block L e : run_of L e -> in_block e.
Proof. by destruct e. Qed.

Lemma runs_from_pool_block L new off num smp rest :
  Forall (run_of L) new ->
  (forall v, L v -> exists k : nat, Z.of_nat k < SAMPLE_SIZE /\ smp !! k = Some (Some v)) ->
  runs_from_pool rest ->
  runs_from_pool (new ++ EvBlock off num smp :: rest).
Proof.
  intros Hnew HL Hrest. induction new as [|e new IH]; [done|].
  apply Forall_cons in Hnew as [He Hnew]. specialize (IH Hnew).
  assert (Hpool : pool_of (new ++ EvBlock off num smp :: rest) = Some smp).
  { rewrite pool_of_app; [done|]. eapply Forall_impl; [exact Hnew|].
    apply run_of_in_block. }
  assert (Hfrom : forall d, (forall cell, cell ∈ d -> exists b, cell = Some b /\ L b) ->
                            from_samples d (Some smp)).
  { intros d Hd cell Hin. destruct (Hd cell Hin) as (b & -> & Hb).
    destruct (HL b Hb) as (k & Hk & Hs). by exists b, k. }
  destruct e; cbn [app runs_from_pool run_of] in *; try done;
    rewrite Hpool; (split; [by apply Hfrom|exact IH]).
Qed.

Section Provenance.
Context {rng : Type}.
Variable pcg32_random : rng -> Z * rng.
Variable powf : float -> float -> float.
Variables ratio len_exp lit_exp : double.

Let source := safe_source_any pcg32_random powf len_exp lit_exp.

Lemma generate_data_internal_alphabet (L : byte -> Prop) (m : array byte) ptr size
    samples w :
  0 <= size <= SIZE_MAX -> 0 <= ptr -> ptr + size <= Z.of_nat (length m) ->
  samples_ok samples ->
  (forall v, literal_value powf is_uint32 lit_exp samples v -> L v) ->
  wp sampling_fault
     (generate_data_internal pcg32_random powf m ptr size ratio len_exp lit_exp samples)
     (fun m' w' => written L m m' ptr size /\
                   exists new, log w' = new ++ log w /\ Forall (run_of L) new) w.
Proof.
  intros Hsize Hptr Hlen Hs HL. unfold generate_data_internal. apply wp_bind.
  eapply wp_mono.
  { apply wp_conj.
    - apply (generate_data_run_spec _ _ _ _ _ _ _ source (fun _ _ => True)); done.
    - apply (generate_data_run_cells pcg32_random powf ratio len_exp lit_exp
               L samples HL m ptr size w Hptr). }
  intros st' w' ((_ & _ & [_ Hp Hw] & Hi & _) & Hfill & Hnew). apply wp_ret.
  split; [|exact Hnew]. rewrite Hi in *. split.
  - apply (wr_length _ _ _ _ _ Hw).
  - apply (wr_frame _ _ _ _ _ Hw).
  - intros k Hk. apply Hfill. lia.
Qed.

Lemma bulk_loop_alphabet (m0 : array byte) size fuel (m samples : array byte) offs w :
  0 <= offs <= size -> size <= SIZE_MAX ->
  length m = length m0 -> size <= Z.of_nat (length m0) ->
  Z.of_nat (length samples) = SAMPLE_SIZE -> size - offs <= Z.of_nat fuel ->
  written (sampled_literal powf is_uint32 lit_exp) m0 m 0 offs ->
  runs_from_pool (log w) ->
  wp sampling_fault
     (bulk_loop pcg32_random powf fuel m size ratio len_exp lit_exp samples offs)
     (fun m' w' => written (sampled_literal powf is_uint32 lit_exp) m0 m' 0 size /\
                   runs_from_pool (log w')) w.
Proof.
  revert m samples offs w.
  induction fuel as [|fuel IH];
    intros m samples offs w Hoffs Hsize Hml Hm0 Hsl Hfuel Hw Hruns.
  - cbn [bulk_loop]. destruct (Z.ltb_spec offs size); [lia|]. apply wp_ret.
    assert (offs = size) as -> by lia. done.
  - cbn [bulk_loop]. destruct (Z.ltb_spec offs size) as [Hlt|Hge].
    2: { apply wp_ret. assert (offs = size) as -> by lia. done. }
    rewrite (size_wrap_small (size - offs)) by lia.
    assert (Hnum : (if BLOCK_SIZE <? size - offs then BLOCK_SIZE else size - offs)
                   = block_size size offs).
    { unfold block_size. destruct (Z.ltb_spec BLOCK_SIZE (size - offs)); lia. }
    rewrite Hnum.
    assert (Hnr : 1 <= block_size size offs <= size - offs).
    { unfold block_size, BLOCK_SIZE. lia. }
    apply wp_bind. eapply wp_mono.
    { apply (generate_literals_spec _ _ _ _ _ _ _ source samples 0 SAMPLE_SIZE None);
        [lia|unfold SAMPLE_SIZE; lia|lia|exact Logic.I|exact Logic.I]. }
    intros smp w1 (Hsmp & Hlog1 & _).
    assert (Hsmpl : Z.of_nat (length smp) = SAMPLE_SIZE).
    { rewrite (wr_length _ _ _ _ _ Hsmp). done. }
    assert (Hpool : forall v, Some v ∈ smp ->
              exists k : nat, Z.of_nat k < SAMPLE_SIZE /\ smp !! k = Some (Some v)).
    { intros v Hv. apply list_elem_of_lookup in Hv as [k Hk]. exists k.
      split; [|done]. apply lookup_lt_Some in Hk. lia. }
    assert (Hsok : samples_ok (Some smp)).
    { split; [done|]. intros k Hk.
      destruct (wr_cells _ _ _ _ _ Hsmp k) as (v & Hv & _); [lia|by exists v]. }
    apply wp_bind, wp_emit. apply wp_bind. eapply wp_mono.
    { apply (generate_data_internal_alphabet (fun v => Some v ∈ smp) m offs
               (block_size size offs) (Some smp)); try done; lia. }
    intros m1 w2 (Hw1 & new & Hlog2 & Hnew). cbn [log] in Hlog2.
    rewrite (size_wrap_small (offs + block_size size offs)) by lia.
    apply IH; try lia.
    + rewrite (wr_length _ _ _ _ _ Hw1). done.
    + eapply written_app; [lia|lia|exact Hw|].
      eapply written_weaken; [exact Hw1|].
      intros v Hv. destruct (Hpool v Hv) as (k & Hk & Hsk).
      destruct (wr_cells _ _ _ _ _ Hsmp k) as (v' & Hv' & HL); [lia|].
      assert (v' = v) as -> by congruence. exact HL.
    + rewrite Hlog2, Hlog1.
      by apply (runs_from_pool_block (fun v => Some v ∈ smp)).
Qed.
End Provenance.

(** Every byte an entry point leaves in [buffer[0..size)], in a repeat
    run as well as in a literal run, is a literal sample: the value
    [(unsigned char) (256 * powf((float) u, (float) lit_exp))] of the
    uniform variate [u] of some draw.  Repeat runs copy the scratch
    buffer and bulk mode resamples the corpus, both of which hold such
    samples only; the cells outside [buffer[0..size)] are unchanged. *)
Theorem output_bytes_are_literal_samples {rng} (pcg32_random : rng -> Z * rng)
    (powf : float -> float -> float) (m : array byte) (size : Z)
    (ratio len_exp lit_exp : double) (g : rng) :
  0 <= size <= SIZE_MAX -> size <= Z.of_nat (length m) ->
  wp sampling_fault
     (lzdg_generate_data pcg32_random powf m size ratio len_exp lit_exp)
     (fun m' _ => written (sampled_literal powf is_uint32 lit_exp) m m' 0 size)
     (World g []) /\
  wp sampling_fault
     (lzdg_generate_data_bulk pcg32_random powf m size ratio len_exp lit_exp)
     (fun m' _ => written (sampled_literal powf is_uint32 lit_exp) m m' 0 size)
     (World g []).
Proof.
  intros Hsize Hlen. split.
  - eapply wp_mono.
    { apply (generate_data_internal_alphabet pcg32_random powf ratio len_exp lit_exp
               (sampled_literal powf is_uint32 lit_exp) m 0 size None (World g []));
        done. }
    intros m' w' [Hw _]. exact Hw.
  - unfold lzdg_generate_data_bulk. eapply wp_mono.
    { apply (bulk_loop_alphabet pcg32_random powf ratio len_exp lit_exp m size
               (Z.to_nat size) m (fresh_array byte SAMPLE_SIZE) 0
               (World g [])); try done; try lia.
      apply written_refl. }
    intros m' w' [Hw _]. exact Hw.
Qed.

Lemma output_bytes_are_literal_samples_witness :
  0 <= 8 <= SIZE_MAX /\ 8 <= Z.of_nat (length (fresh_array byte 8)) /\
  wp sampling_fault
     (lzdg_generate_data lcg_random powf_exp1 (fresh_array byte 8) 8
        d_three d_one d_one)
     (fun m' _ => written (sampled_literal powf_exp1 is_uint32 d_one)
                          (fresh_array byte 8) m' 0 8) (World 1 []).
Proof.
  split; [exact size_8_in_range|]. split; [exact buffer_8_holds_8|].
  exact (proj1 (output_bytes_are_literal_samples lcg_random powf_exp1
                  (fresh_array byte 8) 8 d_three d_one d_one 1
                  size_8_in_range buffer_8_holds_8)).
Defined.

(** In bulk mode every run of a block consists of bytes found in the
    corpus of that block: the literal runs and break literals, which
    resample the corpus, and the repeat runs as well, because the scratch
    buffer they copy is itself filled from the corpus of the block. *)
Theorem bulk_runs_from_block_corpus {rng} (pcg32_random : rng -> Z * rng)
    (powf : float -> float -> float) (m : array byte) (size : Z)
    (ratio len_exp lit_exp : double) (g : rng) :
  0 <= size <= SIZE_MAX -> size <= Z.of_nat (length m) ->
  wp sampling_fault
     (lzdg_generate_data_bulk pcg32_random powf m size ratio len_exp lit_exp)
     (fun _ w' => runs_from_pool (log w')) (World g []).
Proof.
  intros Hsize Hlen. unfold lzdg_generate_data_bulk. eapply wp_mono.
  { apply (bulk_loop_alphabet pcg32_random powf ratio len_exp lit_exp m size
             (Z.to_nat size) m (fresh_array byte SAMPLE_SIZE) 0
             (World g [])); try done; try lia.
    apply written_refl. }
  intros m' w' [_ Hr]. exact Hr.
Qed.

Lemma bulk_runs_from_block_corpus_witness :
  0 <= 8 <= SIZE_MAX /\ 8 <= Z.of_nat (length (fresh_array byte 8)) /\
  wp sampling_fault
     (lzdg_generate_data_bulk lcg_random powf_exp1 (fresh_array byte 8) 8
        d_three d_one d_one)
     (fun _ w' => runs_from_pool (log w')) (World 1 []).
Proof.
  split; [exact size_8_in_range|]. split; [exact buffer_8_holds_8|].
  exact (bulk_runs_from_block_corpus lcg_random powf_exp1
           (fresh_array byte 8) 8 d_three d_one d_one 1
           size_8_in_range buffer_8_holds_8).
Defined.

(** ** The size argument: [strtosize] *)

Lemma char_at_range s n : 0 <= char_at s n < 256.
Proof.
  unfold char_at. pose proof (Byte.to_N_bounded (default "000"%byte (s !! n))). lia.
Qed.

(** [tolower] maps to a suffix letter exactly the letter in either case. *)
Lemma tolower_suffix c :
  0 <= c < 256 ->
  suffix_scale c =
    (if tolower c =? 107 then Some (2 ^ 10)
     else if tolower c =? 109 then Some (2 ^ 20)
     else if tolower c =? 103 then Some (2 ^ 30)
     else if tolower c =? 116 then Some (2 ^ 40)
     else None).
Proof.
  intros Hc. unfold suffix_scale, tolower.
  destruct (Z.leb_spec 65 c), (Z.leb_spec c 90); cbn [andb];
    repeat match goal with
           | |- context [?a =? ?b] => destruct (Z.eqb_spec a b); try lia
           end; reflexivity.
Qed.

Lemma scaled_fits v f :
  0 <= v -> 0 < f -> v < ULLONG_MAX / f ->
  ullong_wrap (v * f) = v * f /\ v * f < ULLONG_MAX.
Proof.
  intros Hv Hf Hlt. pose proof (Z.mul_div_le ULLONG_MAX f Hf) as Hd.
  assert (Hlt' : v * f < ULLONG_MAX) by nia.
  split; [|exact Hlt']. unfold ullong_wrap. apply Z.mod_small.
  unfold ULLONG_MAX in *. nia.
Qed.

Lemma strtosize_branch v (ep : nat) f :
  0 <= v -> 0 < f ->
  let r := if ULLONG_MAX / f <=? v then (ULLONG_MAX, 0%nat)
           else (ullong_wrap (v * f), Datatypes.S ep) in
  if v <? ULLONG_MAX / f
  then r = (v * f, Datatypes.S ep) /\ v * f < ULLONG_MAX
  else r = (ULLONG_MAX, 0%nat).
Proof.
  intros Hv Hf r. subst r.
  destruct (Z.ltb_spec v (ULLONG_MAX / f)) as [Hlt|Hge];
    destruct (Z.leb_spec (ULLONG_MAX / f) v) as [Hle|Hgt]; try lia.
  - destruct (scaled_fits v f Hv Hf Hlt) as [-> ?]. done.
  - reflexivity.
Qed.

(** [strtosize] never returns a product that has wrapped around.  When
    [strtoull] has read [v] without overflow and stopped at [ep], the
    character at [ep] decides: a suffix letter [k m g t], in either case,
    with [v] below [ULLONG_MAX / scale] gives the exact product
    [v * scale] and [*endptr] one past the letter; the same letter with a
    larger [v] gives [ULLONG_MAX] and leaves [*endptr] at the start of the
    string, so that nothing counts as parsed; any other character gives
    [v] and [ep] as [strtoull] left them. *)
Theorem strtosize_never_wraps (strtoull : list byte -> Z -> Z * nat * bool)
    (s : list byte) (base v : Z) (ep : nat) (erange : bool) :
  strtoull s base = (v, ep, erange) -> 0 <= v <= ULLONG_MAX ->
  (v = ULLONG_MAX -> erange = false) ->
  match suffix_scale (char_at s ep) with
  | Some scale =>
      if v <? ULLONG_MAX / scale
      then strtosize strtoull s base = (v * scale, Datatypes.S ep) /\
           v * scale < ULLONG_MAX
      else strtosize strtoull s base = (ULLONG_MAX, 0%nat)
  | None => strtosize strtoull s base = (v, ep)
  end.
Proof.
  intros Hs Hv Her. unfold strtosize. rewrite Hs.
  assert (Hep : (if (v =? ULLONG_MAX) && erange then 0%nat else ep) = ep).
  { destruct (Z.eqb_spec v ULLONG_MAX) as [Heq|]; [|done]. by rewrite (Her Heq). }
  rewrite Hep, (tolower_suffix _ (char_at_range s ep)).
  set (c := tolower (char_at s ep)).
  destruct (c =? 107); [exact (strtosize_branch v ep 1024 (proj1 Hv) eq_refl)|].
  destruct (c =? 109);
    [exact (strtosize_branch v ep (1024 * 1024) (proj1 Hv) eq_refl)|].
  destruct (c =? 103);
    [exact (strtosize_branch v ep (1024 * 1024 * 1024) (proj1 Hv) eq_refl)|].
  destruct (c =? 116);
    [exact (strtosize_branch v ep (1024 * 1024 * 1024 * 1024) (proj1 Hv) eq_refl)|].
  reflexivity.
Qed.

Lemma strtosize_never_wraps_witness :
  strtoull_reads 16 2 ["1"; "6"; "k"]%byte 0 = (16, 2%nat, false) /\
  0 <= 16 <= ULLONG_MAX /\ (16 = ULLONG_MAX -> false = false) /\
  strtosize (strtoull_reads 16 2) ["1"; "6"; "k"]%byte 0 = (16 * 2 ^ 10, 3%nat).
Proof.
  assert (H1 : strtoull_reads 16 2 ["1"; "6"; "k"]%byte 0 = (16, 2%nat, false))
    by reflexivity.
  assert (H2 : 0 <= 16 <= ULLONG_MAX) by (split; discriminate).
  assert (H3 : 16 = ULLONG_MAX -> false = false) by reflexivity.
  split; [exact H1|]. split; [exact H2|]. split; [exact H3|].
  exact (proj1 (strtosize_never_wraps (strtoull_reads 16 2) ["1"; "6"; "k"]%byte
                  0 16 2 false H1 H2 H3)).
Defined.

(** When [strtoull] reports an overflow, [ULLONG_MAX] with [errno] set to
    [ERANGE], [strtosize] returns [ULLONG_MAX] and leaves [*endptr] at the
    start of the string, whatever the string holds and wherever [strtoull]
    stopped: for the caller nothing has been parsed. *)
Theorem strtosize_overflow (strtoull : list byte -> Z -> Z * nat * bool)
    (s : list byte) (base : Z) (ep : nat) :
  strtoull s base = (ULLONG_MAX, ep, true) ->
  strtosize strtoull s base = (ULLONG_MAX, 0%nat).
Proof.
  intros Hs. unfold strtosize. rewrite Hs.
  change ((ULLONG_MAX =? ULLONG_MAX) && true) with true. cbv iota.
  set (c := tolower (char_at s 0)).
  destruct (c =? 107); [reflexivity|]. destruct (c =? 109); [reflexivity|].
  destruct (c =? 103); [reflexivity|]. destruct (c =? 116); reflexivity.
Qed.

Lemma strtosize_overflow_witness :
  strtoull_overflows 2 ["9"; "9"; "k"]%byte 0 = (ULLONG_MAX, 2%nat, true) /\
  strtosize (strtoull_overflows 2) ["9"; "9"; "k"]%byte 0 = (ULLONG_MAX, 0%nat).
Proof.
  assert (H1 : strtoull_overflows 2 ["9"; "9"; "k"]%byte 0
               = (ULLONG_MAX, 2%nat, true)) by reflexivity.
  split; [exact H1|].
  exact (strtosize_overflow (strtoull_overflows 2) ["9"; "9"; "k"]%byte 0 2 H1).
Defined.

(** ** Ratios that always select the literal branch *)

(** A uniform variate is below every threshold that is at least 1.0. *)
Lemma always_below_threshold t k :
  d_leb d_one t = true -> is_uint32 k -> d_ltb (uniform k) t = true.
Proof.
  intros Ht Hk. destruct k as [|q|q]; [| |unfold is_uint32 in Hk; lia].
  - change (uniform 0) with (S754_zero false).
    destruct t as [s|[]| |[] m e]; try done.
  - assert (Hq : Z.pos q < 2 ^ 32) by (unfold is_uint32 in Hk; lia).
    rewrite uniform_pos by done. pose proof (digits2_uint32 q Hq) as Hd.
    unfold d_leb, SFleb, SFcompare, d_one in Ht. unfold d_ltb, SFltb, SFcompare.
    destruct t as [s|[]| |[] m e]; try done. cbv beta iota in Ht |- *.
    destruct (Z.compare_spec (-52) e) as [He|He|He]; try done;
      destruct (Z.compare_spec (Z.pos (digits2_pos q) - 85) e);
      first [done|exfalso; lia].
Qed.

Section OnlyLiterals.
Context {rng : Type}.
Variable pcg32_random : rng -> Z * rng.
Variable powf : float -> float -> float.
Variables ratio len_exp lit_exp : double.
Hypothesis threshold : d_leb d_one (d_div d_one ratio) = true.

Let source := safe_source_any pcg32_random powf len_exp lit_exp.

Lemma iterated_only_literals {C} L size st (w : world rng) st' w' :
  Forall literal_only (log w) ->
  iterated is_uint32 C L size ratio st w st' w' ->
  Forall literal_only (log w').
Proof.
  intros Hall Hit.
  iterated_cases Hit;
    try (rewrite always_below_threshold in Hber by done; discriminate);
    rewrite Hlog, Hlog1;
    repeat (apply Forall_cons; split; [done|]); exact Hall.
Qed.

Lemma generate_data_internal_only_literals (m : array byte) ptr size samples w :
  0 <= size <= SIZE_MAX -> 0 <= ptr -> ptr + size <= Z.of_nat (length m) ->
  samples_ok samples -> Forall literal_only (log w) ->
  wp sampling_fault
     (generate_data_internal pcg32_random powf m ptr size ratio len_exp lit_exp samples)
     (fun _ w' => Forall literal_only (log w')) w.
Proof.
  intros Hsize Hptr Hlen Hs Hall. unfold generate_data_internal. apply wp_bind.
  eapply wp_mono.
  { apply (generate_data_run_spec _ _ _ _ _ _ _ source
             (fun _ w' => Forall literal_only (log w'))); try done.
    intros st0 w0 st' w' HI _ _ _ Hit. eapply iterated_only_literals; eauto. }
  intros st' w' (HI & _). apply wp_ret. exact HI.
Qed.

Lemma lzdg_generate_data_bulk_only_literals (m : array byte) size w :
  0 <= size <= SIZE_MAX -> size <= Z.of_nat (length m) ->
  Forall literal_only (log w) ->
  wp sampling_fault
     (lzdg_generate_data_bulk pcg32_random powf m size ratio len_exp lit_exp)
     (fun _ w' => Forall literal_only (log w')) w.
Proof.
  intros Hsize Hlen Hall. unfold lzdg_generate_data_bulk.
  eapply wp_mono.
  { apply (bulk_loop_spec _ _ _ _ _ _ _ source
             (fun _ _ w' => Forall literal_only (log w'))
             (fun _ _ _ _ w' => Forall literal_only (log w')) m);
      try done; try lia.
    - intros m1 offs w1 smp w2 HJ _ _ Hlog. rewrite Hlog.
      apply Forall_cons. done.
    - intros m1 offs smp st0 w0 st' w' HI _ _ _ Hit.
      eapply iterated_only_literals; eauto. }
  intros m' w' (HJ & _ & _). exact HJ.
Qed.
End OnlyLiterals.

(** The core does not check its [ratio].  Whenever the threshold
    [1.0 / ratio] is at least 1.0 -- for every ratio from +0.0, whose
    threshold is infinite, up to 1.0 -- the test
    [rand_double() < 1.0 / ratio] holds for every draw, and the output of
    either entry point consists of literal runs only. *)
Theorem small_ratio_only_literals {rng} (pcg32_random : rng -> Z * rng)
    (powf : float -> float -> float) (m : array byte) (size : Z)
    (ratio len_exp lit_exp : double) (w : world rng) :
  d_leb d_one (d_div d_one ratio) = true ->
  0 <= size <= SIZE_MAX -> size <= Z.of_nat (length m) ->
  Forall literal_only (log w) ->
  (forall k, is_uint32 k -> d_ltb (uniform k) (d_div d_one ratio) = true) /\
  wp sampling_fault
     (lzdg_generate_data pcg32_random powf m size ratio len_exp lit_exp)
     (fun _ w' => Forall literal_only (log w')) w /\
  wp sampling_fault
     (lzdg_generate_data_bulk pcg32_random powf m size ratio len_exp lit_exp)
     (fun _ w' => Forall literal_only (log w')) w.
Proof.
  intros Ht Hsize Hlen Hall. split; [|split].
  - intros k Hk. by apply always_below_threshold.
  - apply (generate_data_internal_only_literals pcg32_random powf ratio len_exp
             lit_exp Ht m 0 size None w); done.
  - by apply lzdg_generate_data_bulk_only_literals.
Qed.

Lemma small_ratio_only_literals_witness :
  d_leb d_one (d_div d_one (S754_zero false)) = true /\
  0 <= 8 <= SIZE_MAX /\ 8 <= Z.of_nat (length (fresh_array byte 8)) /\
  Forall literal_only (log (World 1 [])) /\
  wp sampling_fault
     (lzdg_generate_data lcg_random powf_exp1 (fresh_array byte 8) 8
        (S754_zero false) d_one d_one)
     (fun _ w' => Forall literal_only (log w')) (World 1 []).
Proof.
  assert (H1 : d_leb d_one (d_div d_one (S754_zero false)) = true) by reflexivity.
  split; [exact H1|].
  split; [exact size_8_in_range|]. split; [exact buffer_8_holds_8|].
  split; [apply Forall_nil_2|].
  exact (proj1 (proj2 (small_ratio_only_literals lcg_random powf_exp1
                  (fresh_array byte 8) 8 (S754_zero false) d_one d_one (World 1 [])
                  H1 size_8_in_range buffer_8_holds_8 (Forall_nil_2 _)))).
Defined.

(** ** A shorter output is a prefix of a longer one *)

Section Returned.
Context {rng : Type}.
Implicit Types (w : world rng).

Lemma wp_ok {A} E (c : M rng A) (Q : A -> world rng -> Prop) w a w' :
  wp E c Q w -> c w = Ok (a, w') -> Q a w'.
Proof. unfold wp. intros H Heq. by rewrite Heq in H. Qed.

Lemma bind_ok {A B} (c : M rng A) (k : A -> M rng B) w r :
  bind c k w = Ok r -> exists a w1, c w = Ok (a, w1) /\ k a w1 = Ok r.
Proof.
  unfold bind. destruct (c w) as [[a w1]|f]; [|done]. intros H. by exists a, w1.
Qed.

(** A counted loop of [a + b] steps is one of [a] steps, then one of [b]. *)
Lemma for_loop_app {S} (body : Z -> S -> M rng S) (a b : nat) j s w :
  for_loop (a + b) j body s w
  = bind (for_loop a j body s) (fun s1 => for_loop b (j + Z.of_nat a) body s1) w.
Proof.
  revert j s w. induction a as [|a IH]; intros j s w.
  - simpl. unfold bind, ret. by rewrite Z.add_0_r.
  - cbn [Nat.add for_loop]. unfold bind.
    destruct (body j s w) as [[s1 w1]|f]; [|done].
    rewrite IH. unfold bind.
    replace (j + 1 + Z.of_nat a) with (j + Z.of_nat (Datatypes.S a)) by lia.
    reflexivity.
Qed.

(** A loop whose step [j] leaves the cells below [base + j] alone leaves
    the cells below its first index alone. *)
Lemma for_loop_frame (body : Z -> array byte -> M rng (array byte)) base count j a w :
  (forall j' a' w', j <= j' ->
     wp any_fault (body j' a')
        (fun a'' _ => forall k : nat, Z.of_nat k < base + j' -> a'' !! k = a' !! k) w') ->
  wp any_fault (for_loop count j body a)
     (fun a' _ => forall k : nat, Z.of_nat k < base + j -> a' !! k = a !! k) w.
Proof.
  intros Hbody. eapply wp_mono.
  - apply (wp_for_loop any_fault (fun _ a' _ =>
       forall k : nat, Z.of_nat k < base + j -> a' !! k = a !! k)); [done|].
    intros j' a' w' Hj Hinv. eapply wp_mono; [apply Hbody; lia|].
    intros a'' w'' Hstep k Hk. rewrite Hstep by lia. by apply Hinv.
  - intros a' w' H. exact H.
Qed.

(** Of two runs of one such loop from the same state, the longer agrees
    with the shorter below the index where the shorter stops. *)
Lemma for_loop_prefix (body : Z -> array byte -> M rng (array byte)) base
    (ns nl : nat) a w a_s w_s a_l w_l :
  (forall j' a' w', 0 <= j' ->
     wp any_fault (body j' a')
        (fun a'' _ => forall k : nat, Z.of_nat k < base + j' -> a'' !! k = a' !! k) w') ->
  (ns <= nl)%nat ->
  for_loop ns 0 body a w = Ok (a_s, w_s) ->
  for_loop nl 0 body a w = Ok (a_l, w_l) ->
  forall k : nat, Z.of_nat k < base + Z.of_nat ns -> a_l !! k = a_s !! k.
Proof.
  intros Hbody Hle Hs Hl.
  replace nl with (ns + (nl - ns))%nat in Hl by lia.
  rewrite for_loop_app in Hl. apply bind_ok in Hl as (a1 & w1 & Hs' & Hl).
  rewrite Hs in Hs'. injection Hs' as <- <-.
  assert (Hf : wp any_fault (for_loop (nl - ns) (0 + Z.of_nat ns) body a_s)
                 (fun a' _ => forall k : nat, Z.of_nat k < base + (0 + Z.of_nat ns) ->
                                a' !! k = a_s !! k) w_s).
  { apply for_loop_frame. intros j' a' w' Hj. apply Hbody. lia. }
  intros k Hk. apply (wp_ok _ _ _ _ _ _ Hf Hl). lia.
Qed.
End Returned.

Section PrefixLoops.
Context {rng : Type}.
Variable pcg32_random : rng -> Z * rng.
Variable powf : float -> float -> float.
Implicit Types (w : world rng).

Lemma generate_literals_prefix (a : array byte) ptr ns nl lit_exp samples w
    a_s w_s a_l w_l :
  0 <= ns <= nl ->
  generate_literals pcg32_random powf a ptr ns lit_exp samples w = Ok (a_s, w_s) ->
  generate_literals pcg32_random powf a ptr nl lit_exp samples w = Ok (a_l, w_l) ->
  forall k : nat, Z.of_nat k < ptr + ns -> a_l !! k = a_s !! k.
Proof.
  intros Hn Hs Hl k Hk.
  destruct samples as [s|]; cbn [generate_literals] in Hs, Hl.
  - unfold generate_literals_from_samples in Hs, Hl.
    eapply (for_loop_prefix _ ptr (Z.to_nat ns) (Z.to_nat nl)); eauto; try lia.
    intros j' a' w' Hj. apply wp_bind, wp_pcg32_next. apply wp_bind, wp_any_lift.
    intros v _. apply wp_any_lift. intros a'' Hst k' Hk'.
    apply store_ok in Hst as [_ ->]. apply list_lookup_insert_ne. lia.
  - unfold generate_literals_from_distribution in Hs, Hl.
    eapply (for_loop_prefix _ ptr (Z.to_nat ns) (Z.to_nat nl)); eauto; try lia.
    intros j' a' w' Hj. apply wp_bind. unfold rand_double.
    apply wp_bind, wp_pcg32_next, wp_ret. apply wp_bind, wp_any_lift.
    intros v _. apply wp_any_lift. intros a'' Hst k' Hk'.
    apply store_ok in Hst as [_ ->]. apply list_lookup_insert_ne. lia.
Qed.

Lemma memcpy_prefix (dst : array byte) d (src : array byte) ns nl w
    a_s w_s a_l w_l :
  0 <= ns <= nl ->
  memcpy (rng := rng) dst d src ns w = Ok (a_s, w_s) ->
  memcpy (rng := rng) dst d src nl w = Ok (a_l, w_l) ->
  forall k : nat, Z.of_nat k < d + ns -> a_l !! k = a_s !! k.
Proof.
  intros Hn Hs Hl k Hk. unfold memcpy in Hs, Hl.
  eapply (for_loop_prefix _ d (Z.to_nat ns) (Z.to_nat nl)); eauto; try lia.
  intros j' a' w' Hj. apply wp_bind, wp_any_lift.
  intros v _. apply wp_any_lift. intros a'' Hst k' Hk'.
  apply store_ok in Hst as [_ ->]. apply list_lookup_insert_ne. lia.
Qed.
End PrefixLoops.

(** One pass writes at and above the cursor only. *)
Lemma iterated_frame {rng} D {C} L (m0 : array byte) ptr size ratio st (w : world rng)
    st' w' :
  mem_inv m0 ptr size st -> i st < size ->
  iterated D C L size ratio st w st' w' ->
  ahead st st'.
Proof.
  intros Hmi Hi Hit.
  destruct (iterated_mem_inv _ _ _ _ _ _ _ _ _ _ Hmi Hi Hit) as [Hmi' Hprog].
  destruct Hmi as [Hi0 Hp0 _]. destruct Hmi' as [Hi0' Hp0' _].
  split; [lia|].
  iterated_cases Hit;
    pose proof (sc_p _ _ _ _ _ Hsc) as Hp1; pose proof (sc_mem _ _ _ _ _ Hsc) as Hm1;
    intros j Hj; rewrite <- Hm1.
  1, 2, 4, 5: (first [apply (wr_frame _ _ _ _ _ Hwr)
                     |apply (wr_frame _ _ _ _ _ (proj1 Hwr))]; lia).
  all: rewrite (wr_frame _ _ _ _ _ (proj1 Hwr)) by lia;
       apply (wr_frame _ _ _ _ _ Hw1); lia.
Qed.

Lemma ahead_trans st1 st2 st3 : ahead st1 st2 -> ahead st2 st3 -> ahead st1 st3.
Proof.
  intros [Hp12 H12] [Hp23 H23]. split; [lia|].
  intros k Hk. rewrite H23 by lia. by apply H12.
Qed.

Section Prefix.
Context {rng : Type}.
Variable pcg32_random : rng -> Z * rng.
Variable powf : float -> float -> float.
Variables ratio len_exp lit_exp : double.
Implicit Types (w : world rng).

Let source := safe_source_any pcg32_random powf len_exp lit_exp.

(** What of a run is left to do writes at and above the cursor only. *)
Lemma main_loop_frame (m0 : array byte) ptr size samples fuel st w st' w' :
  scan_inv st -> mem_inv m0 ptr size st -> size <= SIZE_MAX ->
  0 <= ptr -> ptr + size <= Z.of_nat (length m0) -> samples_ok samples ->
  size - i st <= Z.of_nat fuel ->
  main_loop pcg32_random powf fuel size ratio len_exp lit_exp samples st w
    = Ok (st', w') ->
  ahead st st'.
Proof.
  intros Hsi Hmi Hsize Hptr Hlen Hs Hfuel Hrun.
  assert (Hwp := main_loop_spec _ _ _ _ _ _ _ source (fun st0 _ => ahead st st0)
                   m0 ptr size ratio samples fuel st w).
  eapply (wp_ok _ _ _ _ _ _ (Hwp _ _ Hsi Hmi Hsize Hptr Hlen Hs Logic.I Hfuel) Hrun).
  Unshelve.
  - intros st0 w0 st1 w1 Hah _ Hmi0 Hi0 Hit.
    eapply ahead_trans; [exact Hah|]. eapply iterated_frame; eauto.
  - split; [lia|done].
Qed.
End Prefix.

Section Shorter.
Context {rng : Type}.
Implicit Types (w : world rng).

Lemma bind_run {A B} (c : M rng A) (k : A -> M rng B) w a w1 :
  c w = Ok (a, w1) -> bind c k w = k a w1.
Proof. unfold bind. by intros ->. Qed.

(** A counted loop that returns also returns when it is stopped earlier. *)
Lemma for_loop_shorter {S} (body : Z -> S -> M rng S) (ns nl : nat) j s w s_l w_l :
  (ns <= nl)%nat ->
  for_loop nl j body s w = Ok (s_l, w_l) ->
  exists s_s w_s, for_loop ns j body s w = Ok (s_s, w_s).
Proof.
  intros Hle Hl. replace nl with (ns + (nl - ns))%nat in Hl by lia.
  rewrite for_loop_app in Hl. apply bind_ok in Hl as (s1 & w1 & Hs & _).
  by exists s1, w1.
Qed.
End Shorter.

Section PrefixRuns.
Context {rng : Type}.
Variable pcg32_random : rng -> Z * rng.
Variable powf : float -> float -> float.
Variables ratio len_exp lit_exp : double.
Implicit Types (w : world rng).

Let source := safe_source_any pcg32_random powf len_exp lit_exp.

Lemma generate_literals_shorter (a : array byte) ptr ns nl samples w a_l w_l :
  0 <= ns <= nl ->
  generate_literals pcg32_random powf a ptr nl lit_exp samples w = Ok (a_l, w_l) ->
  exists a_s w_s,
    generate_literals pcg32_random powf a ptr ns lit_exp samples w = Ok (a_s, w_s).
Proof.
  intros Hn. destruct samples as [s|]; cbn [generate_literals];
    apply for_loop_shorter; lia.
Qed.

Lemma memcpy_shorter (dst : array byte) d (src : array byte) ns nl w a_l w_l :
  0 <= ns <= nl ->
  memcpy (rng := rng) dst d src nl w = Ok (a_l, w_l) ->
  exists a_s w_s, memcpy (rng := rng) dst d src ns w = Ok (a_s, w_s).
Proof. intros Hn. apply for_loop_shorter. lia. Qed.

Lemma clamp_clamp n i0 i1 len :
  0 <= i0 <= i1 -> i1 <= n -> n <= SIZE_MAX ->
  clamp n i1 (clamp n i0 len) = clamp n i1 len.
Proof.
  intros Hi0 Hi1 Hn. rewrite !clamp_min by lia. lia.
Qed.

(** The literal run of a pass, for two sizes. *)
Lemma literal_run_prefix n n' (lf : array Z) buf m p1 cur i1 len samples w st_l w_l :
  0 <= i1 <= n -> n <= n' -> n' <= SIZE_MAX -> 0 <= len ->
  (let* m' := generate_literals pcg32_random powf m p1 (clamp n' i1 len)
                lit_exp samples in
   let* _ := emit (EvLiteralRun p1 (slice m' p1 (clamp n' i1 len))) in
   ret (Locals lf buf m' (p1 + clamp n' i1 len) cur
               (size_wrap (i1 + clamp n' i1 len)) false)) w = Ok (st_l, w_l) ->
  exists st_s w_s,
    (let* m' := generate_literals pcg32_random powf m p1 (clamp n i1 len)
                  lit_exp samples in
     let* _ := emit (EvLiteralRun p1 (slice m' p1 (clamp n i1 len))) in
     ret (Locals lf buf m' (p1 + clamp n i1 len) cur
                 (size_wrap (i1 + clamp n i1 len)) false)) w = Ok (st_s, w_s) /\
    ((st_l = st_s /\ w_l = w_s) \/ (i st_s = n /\ ahead st_s st_l)).
Proof.
  intros Hi1 Hnn Hn' Hlen Hrl.
  rewrite (clamp_min n) by lia. rewrite (clamp_min n') in Hrl by lia.
  destruct (decide (Z.min len (n - i1) = Z.min len (n' - i1))) as [Heq|Hne].
  { exists st_l, w_l. rewrite Heq. split; [exact Hrl|by left]. }
  apply bind_ok in Hrl as (ml & wl & Egl & Hrl).
  apply bind_ok in Hrl as ([] & wl' & _ & Hrl). injection Hrl as <- _.
  destruct (generate_literals_shorter m p1 (Z.min len (n - i1))
              (Z.min len (n' - i1)) samples w ml wl ltac:(lia) Egl)
    as (ms & ws & Egs).
  eexists _, _. split; [rewrite (bind_run _ _ _ _ _ Egs); reflexivity|].
  right. unfold ahead; cbn [i p mem]. split.
  - rewrite size_wrap_small; lia.
  - split; [lia|]. intros k Hk.
    eapply (generate_literals_prefix _ _ _ _ _ _ _ _ _ _ _ _ _ _ Egs Egl).
    done.
    Unshelve. lia.
Qed.

(** The repeat run of a pass, for two sizes. *)
Lemma repeat_run_prefix n n' (lf : array Z) buf m p1 cur i1 len w st_l w_l :
  0 <= i1 <= n -> n <= n' -> n' <= SIZE_MAX -> 0 <= len ->
  (let* m' := memcpy m p1 buf (clamp n' i1 len) in
   let* _ := emit (EvRepeatRun p1 (slice m' p1 (clamp n' i1 len))) in
   ret (Locals lf buf m' (p1 + clamp n' i1 len) cur
               (size_wrap (i1 + clamp n' i1 len)) true)) w = Ok (st_l, w_l) ->
  exists st_s w_s,
    (let* m' := memcpy m p1 buf (clamp n i1 len) in
     let* _ := emit (EvRepeatRun p1 (slice m' p1 (clamp n i1 len))) in
     ret (Locals lf buf m' (p1 + clamp n i1 len) cur
                 (size_wrap (i1 + clamp n i1 len)) true)) w = Ok (st_s, w_s) /\
    ((st_l = st_s /\ w_l = w_s) \/ (i st_s = n /\ ahead st_s st_l)).
Proof.
  intros Hi1 Hnn Hn' Hlen Hrl.
  rewrite (clamp_min n) by lia. rewrite (clamp_min n') in Hrl by lia.
  destruct (decide (Z.min len (n - i1) = Z.min len (n' - i1))) as [Heq|Hne].
  { exists st_l, w_l. rewrite Heq. split; [exact Hrl|by left]. }
  apply bind_ok in Hrl as (ml & wl & Egl & Hrl).
  apply bind_ok in Hrl as ([] & wl' & _ & Hrl). injection Hrl as <- _.
  destruct (memcpy_shorter m p1 buf (Z.min len (n - i1))
              (Z.min len (n' - i1)) w ml wl ltac:(lia) Egl)
    as (ms & ws & Egs).
  eexists _, _. split; [rewrite (bind_run _ _ _ _ _ Egs); reflexivity|].
  right. unfold ahead; cbn [i p mem]. split.
  - rewrite size_wrap_small; lia.
  - split; [lia|]. intros k Hk.
    eapply (memcpy_prefix _ _ _ _ _ _ _ _ _ _ _ Egs Egl).
    done.
    Unshelve. lia.
Qed.

(** One pass for two sizes, from one state: when the pass for the larger
    size returns, so does the pass for the smaller, and either the two do
    the same, or the pass for the smaller size ends its run, and what it
    wrote the pass for the larger size wrote too. *)
Lemma iteration_prefix (m0 : array byte) ptr n n' samples st w st_l w_l :
  scan_inv st -> mem_inv m0 ptr n st -> i st < n -> n <= n' -> n' <= SIZE_MAX ->
  samples_ok samples ->
  iteration pcg32_random powf n' ratio len_exp lit_exp samples st w = Ok (st_l, w_l) ->
  exists st_s w_s,
    iteration pcg32_random powf n ratio len_exp lit_exp samples st w
      = Ok (st_s, w_s) /\
    ((st_l = st_s /\ w_l = w_s) \/ (i st_s = n /\ ahead st_s st_l)).
Proof.
  intros Hsi Hmi Hi Hnn Hn' Hs Hrl.
  unfold iteration in Hrl |- *.
  apply bind_ok in Hrl as (st1 & w1 & Hfl & Hrl).
  assert (Hsc : scanned (sampled_class powf is_uint32 len_exp) st w st1 w1).
  { refine (proj1 (wp_ok _ _ _ _ _ _
      (find_length_spec _ _ _ _ _ _ _ source samples scan_fuel st w Hsi Hs Logic.I _)
      Hfl)).
    destruct Hsi. unfold scan_fuel, NUM_LEN, MAX_LEN, MIN_LEN in *. lia. }
  pose proof (sc_i _ _ _ _ _ Hsc) as Hi1.
  pose proof (si_cur _ (sc_inv _ _ _ _ _ Hsc)) as Hcur.
  pose proof (mi_i _ _ _ _ Hmi) as Hi0.
  assert (Hlen0 : size_wrap (MIN_LEN + cur_len st1) = MIN_LEN + cur_len st1).
  { apply size_wrap_small. unfold NUM_LEN, MAX_LEN, MIN_LEN, SIZE_MAX in *. lia. }
  rewrite (bind_run _ _ _ _ _ Hfl).
  rewrite Hlen0 in Hrl |- *.
  assert (Hl0 : 0 <= MIN_LEN + cur_len st1) by (unfold MIN_LEN; lia).
  apply bind_ok in Hrl as ([] & w2 & E2 & Hrl).
  apply bind_ok in Hrl as (f & w3 & E3 & Hrl).
  apply bind_ok in Hrl as (lf & w4 & E4 & Hrl).
  apply bind_ok in Hrl as (u & w5 & E5 & Hrl).
  rewrite (bind_run _ _ _ _ _ E2),
          (bind_run _ _ _ _ _ E3), (bind_run _ _ _ _ _ E4),
          (bind_run _ _ _ _ _ E5).
  destruct (d_ltb u (d_div d_one ratio)).
  - eapply literal_run_prefix; [| | | |exact Hrl]; lia.
  - destruct (last_was_match st1).
    + apply bind_ok in Hrl as (brk & w6 & Eb & Hrl).
      apply bind_ok in Eb as (m1 & w7 & Eg & Eb).
      apply bind_ok in Eb as ([] & w8 & Ee & Eb). injection Eb as <- <-.
      rewrite (bind_run _ _ _
                 (m1, p st1 + 1, size_wrap (i st1 + 1),
                  clamp n (size_wrap (i st1 + 1))
                    (clamp n (i st1) (MIN_LEN + cur_len st1))) w8).
      2: { rewrite (bind_run _ _ _ _ _ Eg), (bind_run _ _ _ _ _ Ee). reflexivity. }
      assert (Hi1' : size_wrap (i st1 + 1) = i st1 + 1).
      { apply size_wrap_small. lia. }
      rewrite Hi1' in Hrl |- *.
      rewrite clamp_clamp in Hrl by lia. rewrite clamp_clamp by lia.
      eapply repeat_run_prefix; [| | | |exact Hrl]; lia.
    + apply bind_ok in Hrl as (brk' & w6 & Eb' & Hrl). injection Eb' as <- <-.
      rewrite (bind_run _ _ _
                 (mem st1, p st1, i st1,
                  clamp n (i st1) (MIN_LEN + cur_len st1)) w5 eq_refl).
      eapply repeat_run_prefix; [| | | |exact Hrl]; lia.
Qed.

Lemma main_loop_done fuel size samples st w :
  size <= i st ->
  main_loop pcg32_random powf fuel size ratio len_exp lit_exp samples st w
    = Ok (st, w).
Proof.
  intros Hi. destruct fuel; simpl; destruct (Z.ltb_spec (i st) size); done || lia.
Qed.

Lemma mem_inv_le (m0 : array byte) ptr n n' st :
  n <= n' -> mem_inv m0 ptr n st -> mem_inv m0 ptr n' st.
Proof. intros Hn [Hi Hp Hw]. split; [lia|done|done]. Qed.

(** The outer loop for two sizes, from one state. *)
Lemma main_loop_prefix (m0 : array byte) ptr n n' samples st_l w_l fs fl st w :
  n <= n' -> n' <= SIZE_MAX ->
  0 <= ptr -> ptr + n' <= Z.of_nat (length m0) -> samples_ok samples ->
  scan_inv st -> mem_inv m0 ptr n st ->
  n - i st <= Z.of_nat fs -> n' - i st <= Z.of_nat fl ->
  main_loop pcg32_random powf fl n' ratio len_exp lit_exp samples st w
    = Ok (st_l, w_l) ->
  exists st_s w_s,
    main_loop pcg32_random powf fs n ratio len_exp lit_exp samples st w
      = Ok (st_s, w_s) /\
    ahead st_s st_l /\ p st_s = ptr + n.
Proof.
  intros Hnn Hn' Hptr Hlen Hs. revert fl st w.
  assert (Hstop : forall fs fl st w, scan_inv st -> mem_inv m0 ptr n st ->
            n <= i st -> n' - i st <= Z.of_nat fl ->
            main_loop pcg32_random powf fl n' ratio len_exp lit_exp samples st w
              = Ok (st_l, w_l) ->
            exists st_s w_s,
              main_loop pcg32_random powf fs n ratio len_exp lit_exp samples st w
                = Ok (st_s, w_s) /\
              ahead st_s st_l /\ p st_s = ptr + n).
  { intros fs0 fl0 st0 w0 Hsi Hmi Hi Hfl Hrl. exists st0, w0.
    split; [by apply main_loop_done|].
    pose proof (mi_i _ _ _ _ Hmi). pose proof (mi_p _ _ _ _ Hmi).
    split; [|lia].
    eapply (main_loop_frame _ _ _ _ _ m0 ptr n'); eauto using mem_inv_le. }
  induction fs as [|fs IH]; intros fl st w Hsi Hmi Hfs Hfl Hrl.
  { eapply Hstop; eauto. lia. }
  destruct (Z.ltb_spec (i st) n) as [Hi|Hi]; [|eapply Hstop; eauto].
  destruct fl as [|fl]; [lia|].
  cbn [main_loop] in Hrl |- *.
  destruct (Z.ltb_spec (i st) n); [|lia].
  destruct (Z.ltb_spec (i st) n'); [|lia].
  apply bind_ok in Hrl as (st1l & w1l & Hitl & Hrl).
  pose proof (mi_i _ _ _ _ Hmi) as Hi0.
  destruct (iteration_prefix m0 ptr n n' samples st w _ _
              Hsi Hmi Hi Hnn Hn' Hs Hitl) as (st1s & w1s & Hits & Hcase).
  destruct (wp_ok _ _ _ _ _ _
    (iteration_cursor pcg32_random powf ratio len_exp lit_exp m0 ptr n samples st w
       ltac:(lia) Hptr ltac:(lia) Hs (conj Hsi Hmi) Hi) Hits) as (Hps & Hsis & Hmis).
  destruct (wp_ok _ _ _ _ _ _
    (iteration_cursor pcg32_random powf ratio len_exp lit_exp m0 ptr n' samples st w
       ltac:(lia) Hptr ltac:(lia) Hs (conj Hsi (mem_inv_le _ _ _ _ _ Hnn Hmi))
       ltac:(lia)) Hitl) as (Hpl & Hsil & Hmil).
  rewrite (bind_run _ _ _ _ _ Hits).
  destruct Hcase as [[-> ->]|[Hend Hah]].
  - eapply (IH fl st1s w1s); eauto; lia.
  - exists st1s, w1s. split; [apply main_loop_done; lia|].
    pose proof (mi_p _ _ _ _ Hmis). split; [|lia].
    eapply ahead_trans; [exact Hah|].
    eapply (main_loop_frame _ _ _ _ _ m0 ptr n'); eauto. lia.
Qed.

(** [generate_data_internal] for two sizes, from one state. *)
Lemma generate_data_internal_prefix (m : array byte) ptr n n' samples w ml wl :
  0 <= n <= n' -> n' <= SIZE_MAX -> 0 <= ptr -> ptr + n' <= Z.of_nat (length m) ->
  samples_ok samples ->
  generate_data_internal pcg32_random powf m ptr n' ratio len_exp lit_exp samples w
    = Ok (ml, wl) ->
  exists ms ws,
    generate_data_internal pcg32_random powf m ptr n ratio len_exp lit_exp samples w
      = Ok (ms, ws) /\
    forall k : nat, Z.of_nat k < ptr + n -> ml !! k = ms !! k.
Proof.
  intros Hn Hn' Hptr Hlen Hs Hrl.
  unfold generate_data_internal, generate_data_run in Hrl |- *.
  apply bind_ok in Hrl as (st_l & w_l & Hrl & Hml). injection Hml as <- <-.
  apply bind_ok in Hrl as (st0' & w0' & H0' & Hrl).
  unfold lift in H0'. rewrite initial_locals_eq in H0'.
  injection H0' as <- <-.
  destruct (main_loop_prefix m ptr n n' samples st_l w_l (Z.to_nat n) (Z.to_nat n')
              (entry_locals m ptr) w
              ltac:(lia) Hn' Hptr Hlen Hs
              (entry_scan_inv m ptr) (entry_mem_inv m ptr n ltac:(lia))
              ltac:(cbn [i entry_locals]; lia)
              ltac:(cbn [i entry_locals]; lia) Hrl)
    as (st_s & w_s & Hrs & [_ Hah] & Hp).
  exists (mem st_s), w_s. split.
  - erewrite (bind_run _ _ _ st_s w_s); [reflexivity|].
    erewrite (bind_run _ _ _ (entry_locals m ptr) w); [exact Hrs|].
    unfold lift. by rewrite initial_locals_eq.
  - intros k Hk. apply Hah. lia.
Qed.
End PrefixRuns.


(** ** No result depends on the log *)

Section Blind.
Context {rng : Type}.
Variable pcg32_random : rng -> Z * rng.
Variable powf : float -> float -> float.

Lemma blind_ret {A} (a : A) : log_blind (rng := rng) (ret a).
Proof. by intros g l1 l2. Qed.

Lemma blind_fail {A} f : log_blind (rng := rng) (A := A) (fail f).
Proof. by intros g l1 l2. Qed.

Lemma blind_lift {A} (r : result A) : log_blind (rng := rng) (lift r).
Proof. intros g l1 l2. unfold lift. by destruct r. Qed.

Lemma blind_emit e : log_blind (rng := rng) (emit e).
Proof. by intros g l1 l2. Qed.

Lemma blind_assert b : log_blind (rng := rng) (assert b).
Proof. intros g l1 l2. by destruct b. Qed.

Lemma blind_pcg32 : log_blind (pcg32 pcg32_random).
Proof. intros g l1 l2. unfold pcg32. simpl. by destruct (pcg32_random g). Qed.

Lemma blind_bind {A B} (c : M rng A) (k : A -> M rng B) :
  log_blind c -> (forall a, log_blind (k a)) -> log_blind (bind c k).
Proof.
  intros Hc Hk g l1 l2. specialize (Hc g l1 l2). unfold bind.
  destruct (c (World g l1)) as [[a1 [g1 l1']]|f1],
           (c (World g l2)) as [[a2 [g2 l2']]|f2]; try done.
  destruct Hc as [-> Hg]. simpl in Hg. subst g2. apply Hk.
Qed.

Lemma blind_for_loop {S} (body : Z -> S -> M rng S) count j s :
  (forall j s, log_blind (body j s)) -> log_blind (for_loop count j body s).
Proof.
  intros Hb. revert j s. induction count as [|count IH]; intros j s; simpl.
  - apply blind_ret.
  - apply blind_bind; [apply Hb|]. intros s'. apply IH.
Qed.

Lemma blind_ok {A} (c : M rng A) g l1 l2 a w2 :
  log_blind c -> c (World g l2) = Ok (a, w2) ->
  exists w1, c (World g l1) = Ok (a, w1).
Proof.
  intros Hc Hrun. specialize (Hc g l1 l2). rewrite Hrun in Hc.
  destruct (c (World g l1)) as [[a1 w1]|f1]; [|done].
  destruct Hc as [-> _]. by exists w1.
Qed.

Ltac blind_step :=
  first [ apply blind_ret | apply blind_fail | apply blind_lift | apply blind_emit
        | apply blind_assert | apply blind_pcg32
        | apply blind_for_loop; intros
        | apply blind_bind; [|intros] ].

Lemma blind_generate_literals (a : array byte) ptr size lit_exp samples :
  log_blind (generate_literals pcg32_random powf a ptr size lit_exp samples).
Proof.
  destruct samples as [s|]; cbn [generate_literals];
    unfold generate_literals_from_samples, generate_literals_from_distribution,
           rand_double;
    repeat blind_step.
Qed.

Lemma blind_generate_lengths (freq : array Z) num len_exp :
  log_blind (generate_lengths pcg32_random powf freq num len_exp).
Proof. unfold generate_lengths, rand_double. repeat blind_step. Qed.

Lemma blind_memcpy (dst : array byte) d (src : array byte) n :
  log_blind (memcpy (rng := rng) dst d src n).
Proof. unfold memcpy. repeat blind_step. Qed.

Lemma blind_find_length fuel len_exp lit_exp samples st :
  log_blind (find_length pcg32_random powf fuel len_exp lit_exp samples st).
Proof.
  revert st. induction fuel as [|fuel IH]; intros st; cbn [find_length].
  - apply blind_bind; [apply blind_lift|]. intros f.
    destruct (f =? 0); repeat blind_step.
  - apply blind_bind; [apply blind_lift|]. intros f.
    destruct (f =? 0); [|apply blind_ret].
    apply blind_bind; [|intros st1; apply IH].
    destruct (cur_len st =? 0); [|apply blind_ret].
    apply blind_bind; [apply blind_generate_literals|]. intros b.
    apply blind_bind; [apply blind_generate_lengths|]. intros lf.
    repeat blind_step.
Qed.

Lemma blind_iteration size ratio len_exp lit_exp samples st :
  log_blind (iteration pcg32_random powf size ratio len_exp lit_exp samples st).
Proof.
  unfold iteration.
  apply blind_bind; [apply blind_find_length|]. intros st1.
  apply blind_bind; [apply blind_emit|]. intros _.
  apply blind_bind; [apply blind_lift|]. intros f.
  apply blind_bind; [apply blind_lift|]. intros lf.
  apply blind_bind; [unfold rand_double; repeat blind_step|]. intros u.
  destruct (d_ltb u (d_div d_one ratio)).
  - apply blind_bind; [apply blind_generate_literals|]. intros m.
    repeat blind_step.
  - apply blind_bind.
    + destruct (last_was_match st1); [|apply blind_ret].
      apply blind_bind; [apply blind_generate_literals|]. intros m.
      repeat blind_step.
    + intros [[[m p1] i1] len1].
      apply blind_bind; [apply blind_memcpy|]. intros m'.
      repeat blind_step.
Qed.

Lemma blind_main_loop fuel size ratio len_exp lit_exp samples st :
  log_blind (main_loop pcg32_random powf fuel size ratio len_exp lit_exp samples st).
Proof.
  revert st. induction fuel as [|fuel IH]; intros st; cbn [main_loop];
    destruct (i st <? size); try apply blind_ret; try apply blind_fail.
  apply blind_bind; [apply blind_iteration|]. intros st'. apply IH.
Qed.

Lemma blind_generate_data_internal (m : array byte) ptr size ratio len_exp lit_exp
    samples :
  log_blind (generate_data_internal pcg32_random powf m ptr size ratio len_exp
               lit_exp samples).
Proof.
  unfold generate_data_internal, generate_data_run.
  apply blind_bind; [|intros; apply blind_ret].
  apply blind_bind; [apply blind_lift|]. intros st. apply blind_main_loop.
Qed.
End Blind.

Lemma cells_slice {A} (a b : array A) n :
  (forall k : nat, Z.of_nat k < n -> a !! k = b !! k) -> slice a 0 n = slice b 0 n.
Proof.
  intros H. unfold slice. cbn [Z.to_nat drop]. apply list_eq. intros k.
  rewrite !lookup_take. destruct (decide (k < Z.to_nat n)%nat); [|done].
  apply H. lia.
Qed.

Section BulkPrefix.
Context {rng : Type}.
Variable pcg32_random : rng -> Z * rng.
Variable powf : float -> float -> float.
Variables ratio len_exp lit_exp : double.
Implicit Types (w : world rng).

Let source := safe_source_any pcg32_random powf len_exp lit_exp.

Lemma bulk_loop_done fuel (m : array byte) size samples offs w :
  size <= offs ->
  bulk_loop pcg32_random powf fuel m size ratio len_exp lit_exp samples offs w
    = Ok (m, w).
Proof.
  intros Hi. destruct fuel; simpl; destruct (Z.ltb_spec offs size); done || lia.
Qed.

(** One block of a bulk run that returns. *)
Lemma bulk_loop_block fuel (m : array byte) size samples offs w m' w' :
  0 <= offs < size -> size <= SIZE_MAX -> size <= Z.of_nat (length m) ->
  Z.of_nat (length samples) = SAMPLE_SIZE ->
  bulk_loop pcg32_random powf (Datatypes.S fuel) m size ratio len_exp lit_exp
    samples offs w = Ok (m', w') ->
  exists smp w1 m1 w2,
    generate_literals pcg32_random powf samples 0 SAMPLE_SIZE lit_exp None w
      = Ok (smp, w1) /\
    generate_data_internal pcg32_random powf m offs (block_size size offs)
      ratio len_exp lit_exp (Some smp)
      (World (gen w1) (EvBlock offs (block_size size offs) smp :: log w1))
      = Ok (m1, w2) /\
    bulk_loop pcg32_random powf fuel m1 size ratio len_exp lit_exp smp
      (offs + block_size size offs) w2 = Ok (m', w') /\
    samples_ok (Some smp) /\ Z.of_nat (length smp) = SAMPLE_SIZE /\
    written (fun _ => True) m m1 offs (block_size size offs).
Proof.
  intros Hoffs Hsize Hlen Hsl Hrun. cbn [bulk_loop] in Hrun.
  destruct (Z.ltb_spec offs size); [|lia].
  rewrite (size_wrap_small (size - offs)) in Hrun by lia.
  assert (Hnum : (if BLOCK_SIZE <? size - offs then BLOCK_SIZE else size - offs)
                 = block_size size offs).
  { unfold block_size. destruct (Z.ltb_spec BLOCK_SIZE (size - offs)); lia. }
  rewrite Hnum in Hrun.
  assert (Hnr : 1 <= block_size size offs <= size - offs).
  { unfold block_size, BLOCK_SIZE. lia. }
  rewrite (size_wrap_small (offs + block_size size offs)) in Hrun by lia.
  apply bind_ok in Hrun as (smp & w1 & Hg & Hrun).
  apply bind_ok in Hrun as ([] & w1' & He & Hrun). injection He as <-.
  apply bind_ok in Hrun as (m1 & w2 & Hd & Hrun).
  destruct (wp_ok _ _ _ _ _ _
    (generate_literals_spec _ _ _ _ _ len_exp _ source samples 0 SAMPLE_SIZE None w
       ltac:(lia) ltac:(unfold SAMPLE_SIZE; lia) ltac:(lia) Logic.I Logic.I) Hg)
    as (Hsmp & _ & _).
  assert (Hsl' : Z.of_nat (length smp) = SAMPLE_SIZE).
  { rewrite (wr_length _ _ _ _ _ Hsmp). done. }
  assert (Hsok : samples_ok (Some smp)).
  { split; [done|]. intros k Hk.
    destruct (wr_cells _ _ _ _ _ Hsmp k) as (v & Hv & _); [lia|by exists v]. }
  exists smp, w1, m1, w2. do 5 (split; [done|]).
  apply (wp_ok _ _ _ _ _ _
         (generate_data_internal_fills pcg32_random powf ratio len_exp lit_exp
            m offs (block_size size offs) (Some smp) _
            ltac:(lia) ltac:(lia) ltac:(lia) Hsok) Hd).
Qed.

(** What of a bulk run is left to do writes at and above its offset only. *)
Lemma bulk_loop_frame size fuel (m : array byte) samples offs w m' w' :
  0 <= offs <= size -> size <= SIZE_MAX -> size <= Z.of_nat (length m) ->
  Z.of_nat (length samples) = SAMPLE_SIZE ->
  size - offs <= Z.of_nat fuel ->
  bulk_loop pcg32_random powf fuel m size ratio len_exp lit_exp samples offs w
    = Ok (m', w') ->
  forall k : nat, Z.of_nat k < offs -> m' !! k = m !! k.
Proof.
  revert m samples offs w.
  induction fuel as [|fuel IH]; intros m samples offs w Hoffs Hsize Hlen Hsl Hfuel Hrun.
  { rewrite bulk_loop_done in Hrun by lia. by injection Hrun as <- _. }
  destruct (Z.ltb_spec offs size) as [Hlt|Hge].
  2: { rewrite bulk_loop_done in Hrun by lia. by injection Hrun as <- _. }
  destruct (bulk_loop_block fuel m size samples offs w m' w'
              ltac:(lia) Hsize Hlen Hsl Hrun)
    as (smp & w1 & m1 & w2 & _ & _ & Hrest & _ & Hsl' & Hwr).
  assert (Hnr : 1 <= block_size size offs <= size - offs).
  { unfold block_size, BLOCK_SIZE. lia. }
  intros k Hk.
  rewrite (IH m1 smp (offs + block_size size offs) w2 ltac:(lia) Hsize
             ltac:(rewrite (wr_length _ _ _ _ _ Hwr); lia) Hsl' ltac:(lia) Hrest k)
    by lia.
  apply (wr_frame _ _ _ _ _ Hwr). lia.
Qed.

(** The bulk loop for two sizes, from one state. *)
Lemma bulk_loop_prefix n n' ml wl fs fl (m : array byte) samples offs w :
  n <= n' -> n' <= SIZE_MAX ->
  0 <= offs <= n -> n' <= Z.of_nat (length m) ->
  Z.of_nat (length samples) = SAMPLE_SIZE ->
  n - offs <= Z.of_nat fs -> n' - offs <= Z.of_nat fl ->
  bulk_loop pcg32_random powf fl m n' ratio len_exp lit_exp samples offs w
    = Ok (ml, wl) ->
  exists ms ws,
    bulk_loop pcg32_random powf fs m n ratio len_exp lit_exp samples offs w
      = Ok (ms, ws) /\
    forall k : nat, Z.of_nat k < n -> ml !! k = ms !! k.
Proof.
  intros Hnn Hn'. revert fl m samples offs w.
  induction fs as [|fs IH]; intros fl m samples offs w Hoffs Hlen Hsl Hfs Hfl Hrl.
  { exists m, w. split; [apply bulk_loop_done; lia|].
    intros k Hk.
    apply (bulk_loop_frame n' fl m samples offs w ml wl);
      [lia|done|done|done|lia|done|lia]. }
  destruct (Z.ltb_spec offs n) as [Hlt|Hge].
  2: { exists m, w. split; [apply bulk_loop_done; lia|].
       intros k Hk.
    apply (bulk_loop_frame n' fl m samples offs w ml wl);
      [lia|done|done|done|lia|done|lia]. }
  destruct fl as [|fl]; [lia|].
  destruct (bulk_loop_block fl m n' samples offs w ml wl
              ltac:(lia) Hn' Hlen Hsl Hrl)
    as (smp & w1 & m1l & w2l & Hg & Hdl & Hrest & Hsok & Hsl' & Hwr).
  assert (Hbs : 1 <= block_size n offs <= n - offs).
  { unfold block_size, BLOCK_SIZE. lia. }
  assert (Hbl : 1 <= block_size n' offs <= n' - offs).
  { unfold block_size, BLOCK_SIZE. lia. }
  assert (Hstep : forall m1 w2,
    generate_data_internal pcg32_random powf m offs (block_size n offs)
      ratio len_exp lit_exp (Some smp)
      (World (gen w1) (EvBlock offs (block_size n offs) smp :: log w1))
      = Ok (m1, w2) ->
    bulk_loop pcg32_random powf (Datatypes.S fs) m n ratio len_exp lit_exp
      samples offs w
    = bulk_loop pcg32_random powf fs m1 n ratio len_exp lit_exp smp
        (offs + block_size n offs) w2).
  { intros m1 w2 Hd. cbn [bulk_loop].
    destruct (Z.ltb_spec offs n); [|lia].
    rewrite (size_wrap_small (n - offs)) by lia.
    assert (Hnum : (if BLOCK_SIZE <? n - offs then BLOCK_SIZE else n - offs)
                   = block_size n offs).
    { unfold block_size. destruct (Z.ltb_spec BLOCK_SIZE (n - offs)); lia. }
    rewrite Hnum. rewrite (size_wrap_small (offs + block_size n offs)) by lia.
    rewrite (bind_run _ _ _ _ _ Hg).
    rewrite (bind_run _ _ _ tt
               (World (gen w1) (EvBlock offs (block_size n offs) smp :: log w1))
               eq_refl).
    by rewrite (bind_run _ _ _ _ _ Hd). }
  destruct (decide (block_size n offs = block_size n' offs)) as [Heq|Hne].
  - rewrite <- Heq in Hdl, Hrest, Hwr. rewrite (Hstep _ _ Hdl).
    apply (IH fl m1l smp _ w2l); try done; try lia.
    rewrite (wr_length _ _ _ _ _ Hwr). lia.
  - assert (Hend : offs + block_size n offs = n).
    { unfold block_size in *. lia. }
    destruct (blind_ok _ (gen w1)
                (EvBlock offs (block_size n offs) smp :: log w1) _ _ _
                (blind_generate_data_internal pcg32_random powf m offs
                   (block_size n' offs) ratio len_exp lit_exp (Some smp)) Hdl)
      as (w2x & Hdx).
    destruct (generate_data_internal_prefix pcg32_random powf ratio len_exp lit_exp
                m offs (block_size n offs) (block_size n' offs) (Some smp) _ _ _
                ltac:(unfold block_size in *; lia) ltac:(lia) ltac:(lia) ltac:(lia)
                Hsok Hdx) as (m1s & w2s & Hds & Hcells).
    exists m1s, w2s. split.
    + rewrite (Hstep _ _ Hds). apply bulk_loop_done. lia.
    + intros k Hk.
      rewrite (bulk_loop_frame n' fl m1l smp (offs + block_size n' offs) w2l ml wl
                 ltac:(lia) Hn'
                 ltac:(rewrite (wr_length _ _ _ _ _ Hwr); lia) Hsl' ltac:(lia)
                 Hrest k) by (unfold block_size in *; lia).
      apply Hcells. lia.
Qed.
End BulkPrefix.

(** With one seed, the output for a size is the beginning of the output for
    every larger size: when a run for [n'] bytes returns, the run for
    [n <= n'] bytes from the same state of the random source returns too,
    and its [n] bytes are the first [n] bytes of the longer output.  This
    holds for both entry points; in bulk mode the runs share their blocks
    up to the one in which the shorter run ends. *)
Theorem shorter_output_is_prefix {rng} (pcg32_random : rng -> Z * rng)
    (powf : float -> float -> float) (m : array byte) (n n' : Z)
    (ratio len_exp lit_exp : double) (w : world rng) :
  0 <= n <= n' -> n' <= SIZE_MAX -> n' <= Z.of_nat (length m) ->
  (forall ml wl,
     lzdg_generate_data pcg32_random powf m n' ratio len_exp lit_exp w = Ok (ml, wl) ->
     exists ms ws,
       lzdg_generate_data pcg32_random powf m n ratio len_exp lit_exp w
         = Ok (ms, ws) /\
       slice ms 0 n = slice ml 0 n) /\
  (forall ml wl,
     lzdg_generate_data_bulk pcg32_random powf m n' ratio len_exp lit_exp w
       = Ok (ml, wl) ->
     exists ms ws,
       lzdg_generate_data_bulk pcg32_random powf m n ratio len_exp lit_exp w
         = Ok (ms, ws) /\
       slice ms 0 n = slice ml 0 n).
Proof.
  intros Hn Hn' Hlen. split; intros ml wl Hrl.
  - destruct (generate_data_internal_prefix pcg32_random powf ratio len_exp lit_exp
                m 0 n n' None w ml wl Hn Hn' ltac:(lia) ltac:(lia) Logic.I Hrl)
      as (ms & ws & Hrs & Hcells).
    exists ms, ws. split; [exact Hrs|].
    apply cells_slice. intros k Hk. symmetry. apply Hcells. lia.
  - destruct (bulk_loop_prefix pcg32_random powf ratio len_exp lit_exp
                n n' ml wl (Z.to_nat n) (Z.to_nat n') m
                (fresh_array byte SAMPLE_SIZE) 0 w
                ltac:(lia) Hn' ltac:(lia) Hlen eq_refl ltac:(lia) ltac:(lia) Hrl)
      as (ms & ws & Hrs & Hcells).
    exists ms, ws. split; [exact Hrs|].
    apply cells_slice. intros k Hk. symmetry. by apply Hcells.
Qed.

Lemma shorter_output_is_prefix_witness :
  0 <= 3 <= 8 /\ 8 <= SIZE_MAX /\ 8 <= Z.of_nat (length (fresh_array byte 8)) /\
  exists ml wl ms ws,
    lzdg_generate_data lcg_random powf_exp1 (fresh_array byte 8) 8
      d_three d_one d_one (World 1 []) = Ok (ml, wl) /\
    lzdg_generate_data lcg_random powf_exp1 (fresh_array byte 8) 3
      d_three d_one d_one (World 1 []) = Ok (ms, ws) /\
    slice ms 0 3 = slice ml 0 3.
Proof.
  assert (H3 : 0 <= 3 <= 8) by (split; discriminate).
  split; [exact H3|]. split; [exact (proj2 size_8_in_range)|].
  split; [exact buffer_8_holds_8|].
  assert (exists ml wl,
            lzdg_generate_data lcg_random powf_exp1 (fresh_array byte 8) 8
              d_three d_one d_one (World 1 []) = Ok (ml, wl)) as (ml & wl & Hl).
  { eexists _, _. vm_compute. reflexivity. }
  destruct (proj1 (shorter_output_is_prefix lcg_random powf_exp1
                     (fresh_array byte 8) 3 8 d_three d_one d_one (World 1 [])
                     H3 (proj2 size_8_in_range) buffer_8_holds_8) ml wl Hl)
    as (ms & ws & Hs & Hpre).
  exists ml, wl, ms, ws. split; [exact Hl|]. split; [exact Hs|exact Hpre].
Defined.

(** ** Bulk mode: a corpus is drawn for each block *)

Lemma draw_state_add {rng} (pcg32_random : rng -> Z * rng) n1 n2 g :
  draw_state pcg32_random n1 (draw_state pcg32_random n2 g)
  = draw_state pcg32_random (n1 + n2) g.
Proof. unfold draw_state. by rewrite Nat.iter_add. Qed.

Lemma length_slice_nat {A} (a : array A) off len :
  (0 < len -> 0 <= off /\ off + len <= Z.of_nat (length a)) ->
  length (slice a off len) = Z.to_nat len.
Proof.
  intros H. destruct (Z.le_gt_cases len 0) as [Hle|Hgt].
  - unfold slice. replace (Z.to_nat len) with 0%nat by lia. done.
  - destruct (H Hgt) as [Hoff Hlen].
    pose proof (length_slice a off len Hoff ltac:(lia) Hlen). lia.
Qed.

Section Draws.
Context {rng : Type}.
Variable pcg32_random : rng -> Z * rng.
Variable powf : float -> float -> float.
Variables ratio len_exp lit_exp : double.
Implicit Types (w : world rng).

(** Literal generation takes one draw for each byte, in either mode. *)
Lemma generate_literals_draws (a : array byte) ptr size samples w :
  wp any_fault (generate_literals pcg32_random powf a ptr size lit_exp samples)
     (fun a' w' =>
        w' = World (draw_state pcg32_random (Z.to_nat size) (gen w)) (log w) /\
        length a' = length a /\
        (0 < size -> 0 <= ptr /\ ptr + size <= Z.of_nat (length a))) w.
Proof.
  assert (Hstep : forall j (a' a'' : array byte) v,
            0 <= j -> length a' = length a ->
            (0 < j -> 0 <= ptr /\ ptr + j <= Z.of_nat (length a)) ->
            store a' (ptr + j) v = Ok a'' ->
            length a'' = length a /\
            (0 < j + 1 -> 0 <= ptr /\ ptr + (j + 1) <= Z.of_nat (length a))).
  { intros j a' a'' v Hj Hl Hr Hst. apply store_ok in Hst as [Hin ->].
    rewrite length_insert. split; [done|]. intros _.
    destruct (decide (j = 0)) as [->|Hne]; [lia|]. destruct Hr; lia. }
  destruct samples as [s|]; cbn [generate_literals].
  - unfold generate_literals_from_samples. eapply wp_mono.
    { apply (wp_for_loop any_fault (fun j a' w' =>
         w' = World (draw_state pcg32_random (Z.to_nat j) (gen w)) (log w) /\
         length a' = length a /\
         (0 < j -> 0 <= ptr /\ ptr + j <= Z.of_nat (length a)))).
      - split; [by destruct w|]. split; [done|lia].
      - intros j a' w' Hj (-> & Hl & Hr).
        apply wp_bind, wp_pcg32_next. cbn [gen log].
        apply wp_bind, wp_any_lift. intros v _. apply wp_any_lift.
        intros a'' Hst.
        replace (Z.to_nat (j + 1)) with (Datatypes.S (Z.to_nat j)) by lia.
        split; [reflexivity|]. eapply Hstep; eauto. lia. }
    intros a' w' (Hw & Hl & Hr).
    replace (Z.to_nat (0 + Z.of_nat (Z.to_nat size))) with (Z.to_nat size) in Hw
      by lia.
    split; [exact Hw|]. split; [done|]. intros Hs. destruct Hr; lia.
  - unfold generate_literals_from_distribution. eapply wp_mono.
    { apply (wp_for_loop any_fault (fun j a' w' =>
         w' = World (draw_state pcg32_random (Z.to_nat j) (gen w)) (log w) /\
         length a' = length a /\
         (0 < j -> 0 <= ptr /\ ptr + j <= Z.of_nat (length a)))).
      - split; [by destruct w|]. split; [done|lia].
      - intros j a' w' Hj (-> & Hl & Hr).
        apply wp_bind. unfold rand_double. apply wp_bind, wp_pcg32_next, wp_ret.
        cbn [gen log].
        apply wp_bind, wp_any_lift. intros v _. apply wp_any_lift.
        intros a'' Hst.
        replace (Z.to_nat (j + 1)) with (Datatypes.S (Z.to_nat j)) by lia.
        split; [reflexivity|]. eapply Hstep; eauto. lia. }
    intros a' w' (Hw & Hl & Hr).
    replace (Z.to_nat (0 + Z.of_nat (Z.to_nat size))) with (Z.to_nat size) in Hw
      by lia.
    split; [exact Hw|]. split; [done|]. intros Hs. destruct Hr; lia.
Qed.

(** The bytes of a corpus are the samples of the draws it takes. *)
Lemma generate_literals_corpus (a : array byte) w :
  Z.of_nat (length a) = SAMPLE_SIZE ->
  wp any_fault
     (generate_literals pcg32_random powf a 0 SAMPLE_SIZE lit_exp None)
     (fun a' w' =>
        w' = World (draw_state pcg32_random (Z.to_nat SAMPLE_SIZE) (gen w)) (log w) /\
        corpus_drawn pcg32_random powf lit_exp (gen w) a') w.
Proof.
  intros Hlen. cbn [generate_literals]. unfold generate_literals_from_distribution.
  eapply wp_mono.
  { apply (wp_for_loop any_fault (fun j a' w' =>
       w' = World (draw_state pcg32_random (Z.to_nat j) (gen w)) (log w) /\
       length a' = length a /\
       forall (i : nat) (d : Z),
         draws pcg32_random (Z.to_nat j) (gen w) !! i = Some d ->
         exists b, float_to_uchar (power_sample powf 256 (uniform d) lit_exp) = Ok b /\
                   a' !! i = Some (Some b))).
    - split; [by destruct w|]. split; [done|]. intros i d Hi. done.
    - intros j a' w' Hj (-> & Hl & Hcells).
      apply wp_bind. unfold rand_double. apply wp_bind, wp_pcg32_next, wp_ret.
      cbn [gen log].
      set (g := draw_state pcg32_random (Z.to_nat j) (gen w)).
      set (d := uint_wrap (fst (pcg32_random g))).
      apply wp_bind, wp_any_lift. intros v Hv. apply wp_any_lift.
      intros a'' Hst. apply store_ok in Hst as [Hin ->].
      replace (Z.to_nat (j + 1)) with (Datatypes.S (Z.to_nat j)) by lia.
      split; [reflexivity|]. split; [by rewrite length_insert|].
      intros i0 d0 Hi0. rewrite draws_snoc in Hi0. fold g d in Hi0.
      apply lookup_app_Some in Hi0 as [Hi0|[Hge Hi0]].
      + destruct (Hcells i0 d0 Hi0) as (b & Hb & Ha). exists b. split; [done|].
        apply lookup_lt_Some in Hi0. rewrite length_draws in Hi0.
        rewrite list_lookup_insert_ne by lia. exact Ha.
      + rewrite length_draws in Hge, Hi0.
        apply list_lookup_singleton_Some in Hi0 as [Hi0 <-].
        exists v. split; [exact Hv|].
        replace i0 with (Z.to_nat (0 + j)) by lia.
        apply list_lookup_insert_eq. lia. }
  intros a' w' (-> & Hl & Hcells). split; [done|].
  split; [lia|]. intros j d Hj. apply Hcells.
  by replace (Z.to_nat (0 + Z.of_nat (Z.to_nat SAMPLE_SIZE)))
    with (Z.to_nat SAMPLE_SIZE) by lia.
Qed.

(** [generate_lengths] takes one draw for each length. *)
Lemma generate_lengths_draws (freq : array Z) num w :
  wp any_fault (generate_lengths pcg32_random powf freq num len_exp)
     (fun _ w' =>
        w' = World (draw_state pcg32_random (Z.to_nat num) (gen w)) (log w)) w.
Proof.
  unfold generate_lengths. apply wp_bind. eapply wp_mono.
  { apply (wp_for_loop any_fault (fun _ _ w' => w' = w)); [done|].
    intros j f' w' _ ->. by apply wp_any_lift. }
  intros f0 w0 ->. simpl. eapply wp_mono.
  { apply (wp_for_loop any_fault (fun j _ w' =>
       w' = World (draw_state pcg32_random (Z.to_nat j) (gen w)) (log w))).
    - by destruct w.
    - intros j f' w' Hj ->.
      apply wp_bind. unfold rand_double. apply wp_bind, wp_pcg32_next, wp_ret.
      cbn [gen log].
      apply wp_bind, wp_any_lift. intros len _.
      apply wp_bind, wp_assert. destruct (len <? NUM_LEN); [|done].
      apply wp_bind, wp_any_lift. intros v _. apply wp_any_lift. intros f'' _.
      by replace (Z.to_nat (j + 1)) with (Datatypes.S (Z.to_nat j)) by lia. }
  intros f' w' ->. by replace (Z.to_nat (0 + Z.of_nat (Z.to_nat num)))
    with (Z.to_nat num) by lia.
Qed.

Variable g0 : rng.
Let Inv := drawn pcg32_random powf lit_exp g0.

Lemma find_length_drawn fuel samples st w :
  Inv w ->
  wp any_fault (find_length pcg32_random powf fuel len_exp lit_exp samples st)
     (fun _ w1 => Inv w1) w.
Proof.
  revert st w. induction fuel as [|fuel IH]; intros st w HI.
  - simpl. apply wp_bind, wp_any_lift. intros f _.
    destruct (f =? 0); [done|]. by apply wp_ret.
  - simpl. apply wp_bind, wp_any_lift. intros f _.
    destruct (f =? 0); [|by apply wp_ret].
    apply wp_bind. destruct (cur_len st =? 0).
    + apply wp_bind. eapply wp_mono; [apply generate_literals_draws|].
      intros b w1 (-> & _ & _). cbv beta.
      apply wp_bind. eapply wp_mono; [apply generate_lengths_draws|].
      intros lf w2 ->. cbv beta. apply wp_bind, wp_emit, wp_ret. cbv beta.
      apply IH. destruct HI as [Hg Hc]. split; [|exact Hc].
      cbn [gen log draws_of event_draws]. rewrite Hg, !draw_state_add.
      f_equal; lia.
    + apply wp_ret. cbv beta. by apply IH.
Qed.

Lemma iteration_drawn size samples st w :
  Inv w ->
  wp any_fault (iteration pcg32_random powf size ratio len_exp lit_exp samples st)
     (fun _ w' => Inv w') w.
Proof.
  intros HI. unfold iteration.
  apply wp_bind. eapply wp_mono; [by apply find_length_drawn|].
  intros st1 w1 [Hg Hc].
  apply wp_bind, wp_emit. apply wp_bind, wp_any_lift. intros f _.
  apply wp_bind, wp_any_lift. intros lf _.
  apply wp_bind. unfold rand_double. apply wp_bind, wp_pcg32_next, wp_ret.
  cbn [log gen].
  set (len := clamp size (i st1) (size_wrap (MIN_LEN + cur_len st1))).
  destruct (d_ltb _ _).
  - apply wp_bind. eapply wp_mono; [apply generate_literals_draws|].
    intros m w2 (-> & Hl & Hr). cbn [log gen].
    apply wp_bind, wp_emit, wp_ret. split; [|exact Hc].
    cbn [gen log draws_of event_draws].
    rewrite (length_slice_nat m (p st1) len) by (rewrite Hl; exact Hr).
    rewrite Hg.
    change (snd (pcg32_random (draw_state pcg32_random (draws_of (log w1)) g0)))
      with (draw_state pcg32_random (Datatypes.S (draws_of (log w1))) g0).
    rewrite draw_state_add. reflexivity.
  - apply wp_bind. destruct (last_was_match st1).
    + apply wp_bind. eapply wp_mono; [apply generate_literals_draws|].
      intros m1 w2 (-> & Hl & Hr). cbn [log gen].
      apply wp_bind, wp_emit, wp_ret. cbv beta iota.
      apply wp_bind. eapply wp_mono; [apply memcpy_fill|].
      intros m2 w3 (_ & ->).
      apply wp_bind, wp_emit, wp_ret. split; [|exact Hc].
      cbn [gen log draws_of event_draws].
      rewrite (length_slice_nat m1 (p st1) 1) by (rewrite Hl; exact Hr).
      rewrite Hg.
      change (snd (pcg32_random (draw_state pcg32_random (draws_of (log w1)) g0)))
        with (draw_state pcg32_random (Datatypes.S (draws_of (log w1))) g0).
      rewrite draw_state_add. reflexivity.
    + apply wp_ret. cbv beta iota.
      apply wp_bind. eapply wp_mono; [apply memcpy_fill|].
      intros m2 w3 (_ & ->).
      apply wp_bind, wp_emit, wp_ret. split; [|exact Hc].
      cbn [gen log draws_of event_draws]. rewrite Hg. reflexivity.
Qed.

Lemma main_loop_drawn fuel size samples st w :
  Inv w ->
  wp any_fault
     (main_loop pcg32_random powf fuel size ratio len_exp lit_exp samples st)
     (fun _ w' => Inv w') w.
Proof.
  revert st w. induction fuel as [|fuel IH]; intros st w HI.
  - simpl. destruct (i st <? size); [done|]. by apply wp_ret.
  - simpl. destruct (i st <? size); [|by apply wp_ret].
    apply wp_bind. eapply wp_mono; [by apply iteration_drawn|].
    intros st1 w1 HI1. by apply IH.
Qed.

Lemma generate_data_internal_drawn (m : array byte) ptr size samples w :
  Inv w ->
  wp any_fault
     (generate_data_internal pcg32_random powf m ptr size ratio len_exp lit_exp
        samples)
     (fun _ w' => Inv w') w.
Proof.
  intros HI. unfold generate_data_internal, generate_data_run.
  apply wp_bind, wp_bind, wp_any_lift. intros st _.
  eapply wp_mono; [by apply main_loop_drawn|].
  intros st' w' HI'. by apply wp_ret.
Qed.

(** Before each block the corpus is drawn anew. *)
Lemma bulk_loop_drawn fuel (m : array byte) size samples offs w :
  Z.of_nat (length samples) = SAMPLE_SIZE -> Inv w ->
  wp any_fault
     (bulk_loop pcg32_random powf fuel m size ratio len_exp lit_exp samples offs)
     (fun _ w' => Inv w') w.
Proof.
  revert m samples offs w. induction fuel as [|fuel IH];
    intros m samples offs w Hsl HI.
  - cbn [bulk_loop]. destruct (offs <? size); [done|]. by apply wp_ret.
  - cbn [bulk_loop]. destruct (offs <? size); [|by apply wp_ret].
    apply wp_bind. eapply wp_mono; [by apply generate_literals_corpus|].
    intros smp w1 (-> & Hcorp). destruct HI as [Hg Hc].
    apply wp_bind, wp_emit. cbn [gen log].
    apply wp_bind. eapply wp_mono.
    { apply generate_data_internal_drawn. split.
      - cbn [gen log draws_of event_draws].
        rewrite Hg, draw_state_add. reflexivity.
      - cbn [log corpora_fresh]. split; [|exact Hc]. by rewrite <- Hg. }
    intros m1 w2 HI2. apply IH; [apply Hcorp|exact HI2].
Qed.
End Draws.

(** C6. [lzdg_generate_data_bulk] fills the destination block after block:
    the blocks start at offset 0 and follow one another up to [size], each
    has [min (1 MiB) (size - offset)] bytes, and before each block a corpus
    of 16384 literals is drawn for it with the caller's [lit_exp]: the
    corpus of a block is made of the 16384 draws that come after all the
    draws of the run so far (those of the blocks before, corpus included),
    cell [j] holding the literal sample of the [j]-th of them, and the
    source ends where the draws of the log have taken it.  Every literal
    run and every break literal of a block consists of bytes found at an
    index below 16384 of that block's corpus, and the runs of the log are
    the bytes of the output at their offsets. *)
Theorem bulk_literals_from_block_corpus {rng} (pcg32_random : rng -> Z * rng)
    (powf : float -> float -> float) (m : array byte) (size : Z)
    (ratio len_exp lit_exp : double) (g : rng) :
  0 <= size <= SIZE_MAX -> size <= Z.of_nat (length m) ->
  wp sampling_fault
     (lzdg_generate_data_bulk pcg32_random powf m size ratio len_exp lit_exp)
     (fun m' w' => blocks_ok powf lit_exp size (log w') /\
                   next_offset (log w') = size /\
                   corpora_fresh pcg32_random powf lit_exp g (log w') /\
                   gen w' = draw_state pcg32_random (draws_of (log w')) g /\
                   literals_from_pool (log w') /\
                   Forall (run_in m' size) (log w')) (World g []).
Proof.
  intros Hsize Hlen. eapply wp_mono.
  - apply wp_conj.
    + apply (lzdg_generate_data_bulk_blocks pcg32_random powf ratio len_exp lit_exp
               m size g Hsize Hlen).
    + unfold lzdg_generate_data_bulk.
      apply (bulk_loop_drawn pcg32_random powf ratio len_exp lit_exp g).
      * reflexivity.
      * split; [reflexivity|exact Logic.I].
  - intros m' w' ((Hblk & Hnext & Hlit & Hrun) & Hg & Hfresh). done.
Qed.

(** A call of 1200 bytes in bulk mode from the seed 7: one block, whose
    repeat runs are separated by break literals and which ends with a
    literal run. *)
Lemma bulk_literals_from_block_corpus_witness :
  0 <= 1200 <= SIZE_MAX /\ 1200 <= Z.of_nat (length (fresh_array byte 1200)) /\
  wp sampling_fault
     (lzdg_generate_data_bulk lcg_random powf_exp1 (fresh_array byte 1200) 1200
        d_three d_one d_one)
     (fun m' w' => blocks_ok powf_exp1 d_one 1200 (log w') /\
                   next_offset (log w') = 1200 /\
                   corpora_fresh lcg_random powf_exp1 d_one 7 (log w') /\
                   gen w' = draw_state lcg_random (draws_of (log w')) 7 /\
                   literals_from_pool (log w') /\
                   Forall (run_in m' 1200) (log w')) (World 7 []).
Proof.
  assert (H1 : 0 <= 1200 <= SIZE_MAX) by (split; discriminate).
  assert (H2 : 1200 <= Z.of_nat (length (fresh_array byte 1200))) by discriminate.
  split; [exact H1|]. split; [exact H2|].
  exact (bulk_literals_from_block_corpus lcg_random powf_exp1
           (fresh_array byte 1200) 1200 d_three d_one d_one 7 H1 H2).
Defined.

(** ** A call that stops before it has written [size] bytes *)

Section StopsShort.
Context {rng : Type}.
Variable pcg32_random : rng -> Z * rng.
Variable powf : float -> float -> float.
Variables ratio len_exp lit_exp : double.
Implicit Types (w : world rng).

Hypothesis powf_one : forall y, powf f_one y = f_one.

(** [generate_lengths] on a first draw that narrows to 1.0f. *)
Lemma generate_lengths_stops (freq : array Z) num w :
  2 ^ 32 - 128 <= uint_wrap (fst (pcg32_random (gen w))) ->
  Z.of_nat (length freq) = NUM_LEN -> 0 < num ->
  generate_lengths pcg32_random powf freq num len_exp w = Fault AssertionFailed.
Proof.
  intros Hk Hlen Hnum.
  pose proof (uint_wrap_range (fst (pcg32_random (gen w)))) as Hr.
  apply wp_fault_only. unfold generate_lengths. apply wp_bind.
  eapply wp_mono.
  { apply (wp_for_loop _ (fun j f' w' => length f' = length freq /\ w' = w)).
    - done.
    - intros j f' w' Hj (Hl & ->). apply wp_store; [lia|].
      split; [by rewrite length_insert|done]. }
  intros f0 w0 (Hl0 & ->).
  destruct (Z.to_nat num) as [|n] eqn:Hn; [lia|].
  cbn [for_loop]. apply wp_bind, wp_bind.
  unfold rand_double. apply wp_bind, wp_pcg32_next, wp_ret.
  apply wp_bind, wp_lift.
  rewrite (length_class_of_one powf len_exp _ powf_one (conj Hk (proj2 Hr))).
  apply wp_bind, wp_assert. reflexivity.
Qed.

(** A call for at least one byte starts with a refill: it fills the
    scratch buffer, then samples the lengths.  When the first draw that
    [generate_lengths] takes narrows to 1.0f the call ends there. *)
Lemma generate_data_internal_stops (m : array byte) ptr size samples w b w1 :
  0 < size ->
  generate_literals pcg32_random powf (fresh_array byte MAX_LEN) 0 MAX_LEN
    lit_exp samples w = Ok (b, w1) ->
  2 ^ 32 - 128 <= uint_wrap (fst (pcg32_random (gen w1))) ->
  generate_data_internal pcg32_random powf m ptr size ratio len_exp lit_exp
    samples w = Fault AssertionFailed.
Proof.
  intros Hsize Hfill Hk. apply wp_fault_only.
  unfold generate_data_internal, generate_data_run.
  apply wp_bind, wp_bind, wp_lift. rewrite initial_locals_eq.
  destruct (Z.to_nat size) as [|n] eqn:Hn; [lia|].
  cbn [main_loop]. change (i (entry_locals m ptr)) with 0.
  destruct (Z.ltb_spec 0 size); [|lia].
  apply wp_bind. unfold iteration. apply wp_bind.
  unfold scan_fuel. cbn [find_length]. apply wp_bind, wp_lift.
  change (load (len_freq (entry_locals m ptr)) (cur_len (entry_locals m ptr)))
    with (@Ok Z 0).
  change (0 =? 0) with true. cbv iota.
  change (cur_len (entry_locals m ptr) =? 0) with true. cbv iota.
  apply wp_bind, wp_bind.
  change (buffer (entry_locals m ptr)) with (fresh_array byte MAX_LEN).
  eapply wp_of_ok; [exact Hfill|].
  apply wp_bind. eapply wp_of_fault; [|reflexivity].
  apply generate_lengths_stops; [exact Hk| |reflexivity].
  unfold entry_locals. cbn [len_freq]. rewrite length_insert.
  reflexivity.
Qed.
End StopsShort.

(** C1 (the code departs from it).  The claim is that every call with
    valid parameters writes exactly [size] bytes.  A call for at least one
    byte starts with a refill: [generate_literals] fills the scratch
    buffer, then [generate_lengths] samples the lengths.  When the first
    draw that [generate_lengths] takes is within 128 of [2^32], its
    assertion fails (the defect of C5) and the call ends there, before the
    first byte of the destination is written.  In bulk mode the same
    happens in the first block, once its corpus has been drawn. *)
Theorem generation_stops_short {rng} (pcg32_random : rng -> Z * rng)
    (powf : float -> float -> float) (m : array byte) (size : Z)
    (ratio len_exp lit_exp : double) (w : world rng) :
  (forall y, powf f_one y = f_one) -> 0 < size <= SIZE_MAX ->
  (forall b w1,
     generate_literals pcg32_random powf (fresh_array byte MAX_LEN) 0 MAX_LEN
       lit_exp None w = Ok (b, w1) ->
     2 ^ 32 - 128 <= uint_wrap (fst (pcg32_random (gen w1))) ->
     lzdg_generate_data pcg32_random powf m size ratio len_exp lit_exp w
       = Fault AssertionFailed) /\
  (forall smp w1 b w2,
     generate_literals pcg32_random powf (fresh_array byte SAMPLE_SIZE) 0
       SAMPLE_SIZE lit_exp None w = Ok (smp, w1) ->
     generate_literals pcg32_random powf (fresh_array byte MAX_LEN) 0 MAX_LEN
       lit_exp (Some smp) w1 = Ok (b, w2) ->
     2 ^ 32 - 128 <= uint_wrap (fst (pcg32_random (gen w2))) ->
     lzdg_generate_data_bulk pcg32_random powf m size ratio len_exp lit_exp w
       = Fault AssertionFailed).
Proof.
  intros Hpow Hsize. split.
  - intros b w1 Hfill Hk.
    apply (generate_data_internal_stops pcg32_random powf ratio len_exp lit_exp
             Hpow m 0 size None w b w1); [lia|done|done].
  - intros smp w1 b w2 Hcorp Hfill Hk.
    apply wp_fault_only. unfold lzdg_generate_data_bulk.
    destruct (Z.to_nat size) as [|n] eqn:Hn; [lia|].
    cbn [bulk_loop]. destruct (Z.ltb_spec 0 size); [|lia].
    rewrite Z.sub_0_r, (size_wrap_small size) by lia.
    set (num := if BLOCK_SIZE <? size then BLOCK_SIZE else size).
    assert (Hnum : 0 < num).
    { subst num. destruct (BLOCK_SIZE <? size); [reflexivity|lia]. }
    apply wp_bind. eapply wp_of_ok; [exact Hcorp|].
    apply wp_bind, wp_emit. apply wp_bind.
    eapply wp_of_fault; [|reflexivity].
    destruct w1 as [g1 l1]. cbn [gen log].
    pose proof (blind_generate_literals pcg32_random powf
                  (fresh_array byte MAX_LEN) 0 MAX_LEN lit_exp (Some smp)
                  g1 (EvBlock 0 num smp :: l1) l1) as Hblind.
    cbv beta in Hblind. rewrite Hfill in Hblind.
    destruct (generate_literals pcg32_random powf (fresh_array byte MAX_LEN) 0
                MAX_LEN lit_exp (Some smp) (World g1 (EvBlock 0 num smp :: l1)))
      as [[b' w2']|f] eqn:Hfill'; [|done].
    destruct Hblind as [_ Hg].
    apply (generate_data_internal_stops pcg32_random powf ratio len_exp lit_exp
             Hpow m 0 num (Some smp) _ b' w2'); [exact Hnum|exact Hfill'|].
    by rewrite Hg.
Qed.

(** The source started at 3599710270: its first 258 draws fill the scratch
    buffer, the 259th is [2^32 - 1]. *)
Lemma generation_stops_short_witness :
  (forall y, powf_exp1 f_one y = f_one) /\ 0 < 8 <= SIZE_MAX /\
  lzdg_generate_data lcg_random powf_exp1 (fresh_array byte 8) 8
    d_three d_one d_one (World 3599710270 []) = Fault AssertionFailed.
Proof.
  assert (H1 : forall y, powf_exp1 f_one y = f_one) by reflexivity.
  assert (H2 : 0 < 8 <= SIZE_MAX) by (split; [reflexivity|discriminate]).
  split; [exact H1|]. split; [exact H2|].
  assert (exists b w1,
            generate_literals lcg_random powf_exp1 (fresh_array byte MAX_LEN) 0
              MAX_LEN d_one None (World 3599710270 []) = Ok (b, w1) /\
            2 ^ 32 - 128 <= uint_wrap (fst (lcg_random (gen w1))))
    as (b & w1 & Hfill & Hk).
  { eexists _, _. split; [vm_compute; reflexivity|vm_compute; discriminate]. }
  exact (proj1 (generation_stops_short lcg_random powf_exp1 (fresh_array byte 8) 8
                  d_three d_one d_one (World 3599710270 []) H1 H2) b w1 Hfill Hk).
Defined.
